(** * mdu: a multi-threaded disk-usage summary

    A shallow embedding of the C sources of [mdu] (mdu.c, queue.c,
    thread_context.c, safe_functions.c) and the properties proved about them.

    Conventions of the embedding (LP64 Linux, gcc):
    - [int] values are integers of [Z] reduced by [to_int] wherever the C code
      stores into an [int]; [blkcnt_t] (the type of [st_blocks]) is a 64-bit
      integer and is kept as the [Z] it denotes;
    - C strings are [string]s; a copied string is the same [string];
    - heap objects reached through pointers that are manipulated as such (the
      nodes of the queue) live in a finite map from locations; a dereference of
      a null or dangling pointer is the result [None];
    - [exit] ends the whole process: functions that may call it return an
      [outcome]. *)

From Stdlib Require Import ZArith Lia String Ascii List.
From stdpp Require Import base option list gmap strings pretty.

Open Scope Z_scope.

(** ** C integers *)

Definition INT_MAX : Z := 2147483647.
Definition INT_MIN : Z := -2147483648.

(** Conversion of an integer to [int]: reduction modulo 2^32 into
    [INT_MIN .. INT_MAX] (what gcc does on narrowing and on wrap-around). *)
Definition to_int (z : Z) : Z := (z + 2147483648) mod 4294967296 - 2147483648.

Definition EXIT_SUCCESS : Z := 0.
Definition EXIT_FAILURE : Z := 1.

Lemma to_int_range z : INT_MIN ≤ to_int z ≤ INT_MAX.
Proof. unfold to_int, INT_MIN, INT_MAX. pose proof (Z.mod_pos_bound (z + 2147483648) 4294967296). lia. Qed.

Lemma to_int_small z : INT_MIN ≤ z ≤ INT_MAX → to_int z = z.
Proof.
  unfold to_int, INT_MIN, INT_MAX. intros H.
  rewrite Z.mod_small by lia. lia.
Qed.

Lemma to_int_idem z : to_int (to_int z) = to_int z.
Proof. apply to_int_small, to_int_range. Qed.

Lemma to_int_add_l a b : to_int (to_int a + b) = to_int (a + b).
Proof.
  unfold to_int.
  replace ((a + 2147483648) mod 4294967296 - 2147483648 + b + 2147483648)
    with ((a + 2147483648) mod 4294967296 + b) by lia.
  rewrite Zplus_mod_idemp_l. f_equal. f_equal. lia.
Qed.

Lemma to_int_add_r a b : to_int (a + to_int b) = to_int (a + b).
Proof. rewrite (Z.add_comm a), to_int_add_l. f_equal. lia. Qed.

(** ** The queue of strings (queue.c) *)

Module Queue.

Abbreviation loc := positive.

(** [struct node] *)
Record node := Node { next : option loc; value : string }.

(** [struct queue]; the mutex is left out, every operation below is one
    critical section of it. *)
Record Queue := MkQueue { first : option loc; last : option loc }.

Abbreviation heap := (gmap loc node).

(** [clone_string]: a fresh buffer of [strlen(in) + 1] zeroed bytes, filled
    by [strncpy] with the [strlen(in)] bytes of [in]. *)
Definition clone_string (s : string) : string := s.

(** [malloc] in [make_node]: a location that is not in use. *)
Definition malloc (h : heap) : loc := fresh (dom h).

Definition queue_create : Queue := {| first := None; last := None |}.

Definition queue_enqueue (h : heap) (q : Queue) (v : string)
  : option (heap * Queue) :=
  let n := malloc h in
  let last_in_queue := last q in
  let h1 := <[n := {| next := None; value := clone_string v |}]> h in
  match first q with
  | Some _ =>
      l ← last_in_queue;
      nd ← h1 !! l;
      Some (<[l := {| next := Some n; value := value nd |}]> h1,
            {| first := first q; last := Some n |})
  | None => Some (h1, {| first := Some n; last := Some n |})
  end.

Definition queue_dequeue (h : heap) (q : Queue)
  : option (string * heap * Queue) :=
  a ← first q;
  nd ← h !! a;
  Some (clone_string (value nd), delete a h,
        {| first := next nd; last := last q |}).

Definition queue_is_empty (q : Queue) : bool :=
  match first q with None => true | Some _ => false end.

(** [queue_destroy]: dequeue until [first] is null, then free the queue. *)
Fixpoint queue_destroy (fuel : nat) (h : heap) (q : Queue) : option heap :=
  match first q, fuel with
  | None, _ => Some h
  | Some _, O => None
  | Some _, S fuel' =>
      '(_, h', q') ← queue_dequeue h q;
      queue_destroy fuel' h' q'
  end.

(** The nodes at [locs] hold the strings [l], in this order, each pointing
    to the next one and the last one to null. *)
Fixpoint links (h : heap) (locs : list loc) (l : list string) : Prop :=
  match locs, l with
  | [], [] => True
  | a :: locs', x :: l' =>
      h !! a = Some {| next := head locs'; value := x |} ∧ links h locs' l'
  | _, _ => False
  end.

(** The queue [q] in the heap [h] holds the strings [l], front first. After
    the last element is dequeued [last] dangles, so nothing is said of it
    for the empty queue. *)
Definition repr (h : heap) (q : Queue) (l : list string) : Prop :=
  ∃ locs, links h locs l ∧ NoDup locs ∧ first q = head locs
          ∧ (l ≠ [] → last q = list.last locs).

Fixpoint enqueue_all (h : heap) (q : Queue) (vs : list string)
  : option (heap * Queue) :=
  match vs with
  | [] => Some (h, q)
  | v :: vs' => '(h', q') ← queue_enqueue h q v; enqueue_all h' q' vs'
  end.

Fixpoint dequeue_n (n : nat) (h : heap) (q : Queue)
  : option (list string * heap * Queue) :=
  match n with
  | O => Some ([], h, q)
  | S n' =>
      '(x, h', q') ← queue_dequeue h q;
      '(xs, h'', q'') ← dequeue_n n' h' q';
      Some (x :: xs, h'', q'')
  end.

Lemma malloc_fresh h : h !! malloc h = None.
Proof. unfold malloc. apply (not_elem_of_dom (D := gset loc)), is_fresh. Qed.

Lemma repr_create h : repr h queue_create [].
Proof. exists []. split_and!; [done|constructor|done|done]. Qed.

Lemma links_length h locs l : links h locs l → length locs = length l.
Proof.
  revert l. induction locs as [|a locs IH]; intros [|x l]; cbn [links]; try done.
  intros [_ H]. cbn [length]. f_equal. by apply IH.
Qed.

Lemma links_allocated h locs l a :
  links h locs l → a ∈ locs → is_Some (h !! a).
Proof.
  revert l. induction locs as [|b locs IH]; intros [|x l]; cbn [links]; try done.
  - by intros _ ?%elem_of_nil.
  - intros [Hb Hl] [->|Hin]%elem_of_cons; eauto.
Qed.

(** Writing outside the nodes of the queue leaves it as it is. *)
Lemma links_insert_other h locs l a nd :
  a ∉ locs → links h locs l → links (<[a := nd]> h) locs l.
Proof.
  revert l. induction locs as [|b locs IH]; intros [|x l]; cbn [links]; try done.
  intros Hnin [Hb Hl]. apply not_elem_of_cons in Hnin as [Hab Hnin].
  split; [by rewrite lookup_insert_ne|by apply IH].
Qed.

Lemma links_delete_other h locs l a :
  a ∉ locs → links h locs l → links (delete a h) locs l.
Proof.
  revert l. induction locs as [|b locs IH]; intros [|x l]; cbn [links]; try done.
  intros Hnin [Hb Hl]. apply not_elem_of_cons in Hnin as [Hab Hnin].
  split; [by rewrite lookup_delete_ne|by apply IH].
Qed.

(** Linking a new node [n] behind the last node [z]. *)
Lemma links_snoc h locs l z n v :
  links h locs l → NoDup locs → list.last locs = Some z → h !! n = None →
  ∃ vz, h !! z = Some {| next := None; value := vz |} ∧
    links (<[z := {| next := Some n; value := vz |}]>
             (<[n := {| next := None; value := v |}]> h))
          (locs ++ [n]) (l ++ [v]).
Proof.
  intros Hl Hnd Hz Hn.
  assert (Hnl : n ∉ locs).
  { intros Hin. destruct (links_allocated _ _ _ _ Hl Hin). congruence. }
  revert l Hl Hnd Hz Hnl.
  induction locs as [|a locs IH]; intros [|x l]; cbn [links]; try done.
  intros [Ha Hl] Hnd Hz Hnl.
  apply NoDup_cons in Hnd as [Hal Hnd].
  apply not_elem_of_cons in Hnl as [Hna Hnl].
  destruct locs as [|b locs].
  - destruct l; [|done]. cbn in Hz. injection Hz as ->. cbn in Ha.
    exists x. split; [done|]. cbn.
    rewrite lookup_insert_eq. split; [done|].
    by rewrite lookup_insert_ne, lookup_insert_eq.
  - rewrite last_cons_cons in Hz.
    destruct (IH l Hl Hnd Hz Hnl) as (vz & Hvz & Hlinks).
    exists vz. split; [done|]. split; [|exact Hlinks].
    assert (a ≠ z).
    { intros ->. apply Hal. apply last_Some in Hz as [l' ->].
      apply elem_of_app. right. by apply list_elem_of_singleton. }
    by rewrite !lookup_insert_ne.
Qed.

Lemma enqueue_repr h q l v :
  repr h q l →
  ∃ h' q', queue_enqueue h q v = Some (h', q') ∧ repr h' q' (l ++ [v]).
Proof.
  intros (locs & Hl & Hnd & Hf & Hlast).
  pose proof (malloc_fresh h) as Hn.
  unfold queue_enqueue, clone_string.
  destruct locs as [|a locs].
  - destruct l; [|done]. cbn in Hf. rewrite Hf.
    eexists _, _. split; [done|].
    exists [malloc h]. cbn [links app head]. rewrite lookup_insert_eq.
    split_and!; [done|done|apply NoDup_singleton|done|done].
  - destruct l as [|x l]; [done|]. cbn in Hf. rewrite Hf.
    rewrite Hlast by done.
    destruct (list.last (a :: locs)) as [z|] eqn:Hz;
      [|by apply last_None in Hz].
    destruct (links_snoc _ _ _ _ _ v Hl Hnd Hz Hn) as (vz & Hvz & Hlinks).
    assert (z ≠ malloc h) by (intros ->; congruence).
    cbn [mbind option_bind]. rewrite lookup_insert_ne by done. rewrite Hvz. cbn [mbind option_bind value].
    eexists _, _. split; [done|].
    exists ((a :: locs) ++ [malloc h]). split; [exact Hlinks|].
    split.
    { apply NoDup_app. split; [done|]. split; [|apply NoDup_singleton].
      intros c Hc ->%list_elem_of_singleton.
      destruct (links_allocated _ _ _ _ Hl Hc). congruence. }
    split; [done|]. intros _. cbn [last]. by rewrite last_snoc.
Qed.

Lemma dequeue_repr h q x l :
  repr h q (x :: l) →
  ∃ h' q', queue_dequeue h q = Some (x, h', q') ∧ repr h' q' l.
Proof.
  intros (locs & Hl & Hnd & Hf & Hlast).
  destruct locs as [|a locs]; [done|]. cbn [links head] in Hl, Hf.
  destruct Hl as [Ha Hl]. apply NoDup_cons in Hnd as [Hal Hnd].
  unfold queue_dequeue, clone_string. rewrite Hf. cbn [mbind option_bind]. rewrite Ha. cbn [mbind option_bind value next].
  eexists _, _. split; [done|].
  exists locs. split; [by apply links_delete_other|].
  split; [done|]. split; [done|].
  intros Hne. cbn [last]. rewrite Hlast by done.
  destruct locs; [by destruct l|]. by rewrite last_cons_cons.
Qed.

Lemma is_empty_repr h q l :
  repr h q l → queue_is_empty q = true ↔ l = [].
Proof.
  intros (locs & Hl & _ & Hf & _). unfold queue_is_empty. rewrite Hf.
  destruct locs, l; cbn in *; try done.
Qed.

Lemma enqueue_all_repr vs : ∀ h q l,
  repr h q l →
  ∃ h' q', enqueue_all h q vs = Some (h', q') ∧ repr h' q' (l ++ vs).
Proof.
  induction vs as [|v vs IH]; intros h q l Hr; cbn [enqueue_all].
  - eexists _, _. by rewrite app_nil_r.
  - destruct (enqueue_repr _ _ _ v Hr) as (h1 & q1 & -> & Hr1). cbn [mbind option_bind].
    destruct (IH _ _ _ Hr1) as (h2 & q2 & -> & Hr2).
    eexists _, _. split; [done|]. by rewrite <- app_assoc in Hr2.
Qed.

Lemma dequeue_n_repr l : ∀ h q,
  repr h q l →
  ∃ h' q', dequeue_n (length l) h q = Some (l, h', q') ∧ repr h' q' [].
Proof.
  induction l as [|x l IH]; intros h q Hr; cbn [dequeue_n length].
  - by eexists _, _.
  - destruct (dequeue_repr _ _ _ _ Hr) as (h1 & q1 & -> & Hr1). cbn [mbind option_bind].
    destruct (IH _ _ Hr1) as (h2 & q2 & -> & Hr2). cbn [mbind option_bind].
    by eexists _, _.
Qed.

(** C7. The queue is first-in first-out. For a queue that holds the strings
    [l]: [queue_enqueue] appends its argument at the back; [queue_dequeue], on
    a queue that is not empty, removes the front element and returns (a copy
    of) it; [queue_is_empty] is true exactly when the queue holds nothing; and
    whatever is enqueued afterwards, successive dequeues return the strings in
    the order of their insertion. *)
Theorem queue_fifo (h : heap) (q : Queue) (l : list string) :
  repr h q l →
  (∀ v, ∃ h' q', queue_enqueue h q v = Some (h', q') ∧ repr h' q' (l ++ [v])) ∧
  (∀ x l', l = x :: l' →
     ∃ h' q', queue_dequeue h q = Some (x, h', q') ∧ repr h' q' l') ∧
  (queue_is_empty q = true ↔ l = []) ∧
  (∀ vs, ∃ h1 q1, enqueue_all h q vs = Some (h1, q1) ∧
     ∃ h2 q2, dequeue_n (length (l ++ vs)) h1 q1 = Some (l ++ vs, h2, q2)
              ∧ queue_is_empty q2 = true).
Proof.
  intros Hr. split_and!.
  - intros v. by apply enqueue_repr.
  - intros x l' ->. by apply dequeue_repr.
  - exact (is_empty_repr _ _ _ Hr).
  - intros vs. destruct (enqueue_all_repr vs _ _ _ Hr) as (h1 & q1 & He & Hr1).
    exists h1, q1. split; [done|].
    destruct (dequeue_n_repr _ _ _ Hr1) as (h2 & q2 & Hd & Hr2).
    exists h2, q2. split; [done|]. by apply (is_empty_repr _ _ _ Hr2).
Qed.

(** A queue of two strings, built by two enqueues on the empty queue. *)
Definition two_strings : heap * Queue :=
  default (∅, queue_create)
    (enqueue_all ∅ queue_create ["dir/a"; "dir/b"]%string).

Lemma queue_fifo_witness :
  repr two_strings.1 two_strings.2 ["dir/a"; "dir/b"]%string ∧
  ∃ h' q', queue_dequeue two_strings.1 two_strings.2 = Some ("dir/a"%string, h', q')
           ∧ repr h' q' ["dir/b"%string].
Proof.
  assert (Hr : repr two_strings.1 two_strings.2 ["dir/a"; "dir/b"]%string).
  { exists [1; 2]%positive. split_and!.
    - split; [vm_compute; reflexivity|]. split; [vm_compute; reflexivity|exact I].
    - apply (bool_decide_unpack _). vm_compute. reflexivity.
    - vm_compute. reflexivity.
    - intros _. vm_compute. reflexivity. }
  split; [exact Hr|].
  exact (proj1 (proj2 (queue_fifo _ _ _ Hr)) _ _ eq_refl).
Defined.

(** *** Destroying a queue *)

(** The loop of [queue_destroy] over the nodes at [locs]. *)
Lemma queue_destroy_total (fuel : nat) (h : heap) (q : Queue)
  (locs : list loc) (l : list string) :
  links h locs l → NoDup locs → first q = head locs →
  (length l ≤ fuel)%nat →
  ∃ h', queue_destroy fuel h q = Some h'
        ∧ ∀ a, h' !! a = if decide (a ∈ locs) then None else h !! a.
Proof.
  revert fuel h q l.
  induction locs as [|a locs IH]; intros fuel h q [|x l]; cbn [links];
    try done.
  - intros _ _ Hf _. exists h. split.
    + destruct fuel; cbn [queue_destroy]; by rewrite Hf.
    + intros a. destruct (decide (a ∈ [])) as [Hin|]; [|done].
      by apply elem_of_nil in Hin.
  - intros [Ha Hl] [Hal Hnd]%NoDup_cons Hf Hfuel. cbn [head] in Hf.
    destruct fuel as [|fuel]; [cbn [length] in Hfuel; lia|].
    cbn [queue_destroy]. rewrite Hf. unfold queue_dequeue.
    rewrite Hf. cbn [mbind option_bind]. rewrite Ha.
    cbn [mbind option_bind next].
    destruct (IH fuel (delete a h) {| first := head locs; last := last q |} l)
      as (h' & -> & Hh'); [by apply links_delete_other|done|done| |].
    { cbn [length] in Hfuel. lia. }
    exists h'. split; [done|]. intros b. rewrite Hh'.
    destruct (decide (b ∈ locs)) as [Hb|Hb].
    + rewrite decide_True; [done|]. by apply elem_of_cons; right.
    + destruct (decide (b = a)) as [->|Hne].
      * rewrite lookup_delete_eq, decide_True; [done|].
        by apply elem_of_cons; left.
      * rewrite lookup_delete_ne by done. rewrite decide_False; [done|].
        by intros [?|?]%elem_of_cons.
Qed.

(** X2. [queue_destroy] frees every node of the queue and nothing else: for a
    queue that holds the strings [l], and as many rounds of the loop as there
    are strings, it returns, and in the heap it leaves no node of the queue
    is allocated and every other location holds what it held. What [last]
    points to is of no account. *)
Theorem queue_destroy_frees (fuel : nat) (h : heap) (q : Queue)
  (l : list string) :
  repr h q l → (length l ≤ fuel)%nat →
  ∃ h' locs,
    links h locs l ∧ queue_destroy fuel h q = Some h'
    ∧ ∀ a, h' !! a = if decide (a ∈ locs) then None else h !! a.
Proof.
  intros (locs & Hl & Hnd & Hf & _) Hfuel.
  destruct (queue_destroy_total fuel h q locs l Hl Hnd Hf Hfuel)
    as (h' & Hd & Hh').
  by exists h', locs.
Qed.

Lemma queue_destroy_frees_witness :
  repr two_strings.1 two_strings.2 ["dir/a"; "dir/b"]%string
  ∧ ∃ h', queue_destroy 2 two_strings.1 two_strings.2 = Some h'.
Proof.
  assert (Hr : repr two_strings.1 two_strings.2 ["dir/a"; "dir/b"]%string).
  { exists [1; 2]%positive. split_and!.
    - split; [vm_compute; reflexivity|].
      split; [vm_compute; reflexivity|exact I].
    - apply (bool_decide_unpack _). vm_compute. reflexivity.
    - vm_compute. reflexivity.
    - intros _. vm_compute. reflexivity. }
  split; [exact Hr|].
  destruct (queue_destroy_frees 2 two_strings.1 two_strings.2
              ["dir/a"; "dir/b"]%string Hr) as (h' & locs & _ & Hd & _).
  - cbn [length]. lia.
  - by exists h'.
Defined.

(** *** The whole life of a queue *)

(** The nodes at [locs] are those that were allocated since the heap was
    [h0]: they were free in [h0], and every other location holds what it
    held in [h0]. *)
Definition grown (h0 h : heap) (locs : list loc) : Prop :=
  ∀ a, if decide (a ∈ locs) then h0 !! a = None else h !! a = h0 !! a.

Lemma enqueue_grown h0 h q l locs v :
  links h locs l → NoDup locs → first q = head locs →
  (l ≠ [] → last q = list.last locs) → grown h0 h locs →
  ∃ h' q' n,
    queue_enqueue h q v = Some (h', q')
    ∧ links h' (locs ++ [n]) (l ++ [v]) ∧ NoDup (locs ++ [n])
    ∧ first q' = head (locs ++ [n]) ∧ last q' = list.last (locs ++ [n])
    ∧ grown h0 h' (locs ++ [n]).
Proof.
  intros Hl Hnd Hf Hlast Hg.
  pose proof (malloc_fresh h) as Hn.
  assert (Hnl : malloc h ∉ locs).
  { intros Hin. destruct (links_allocated _ _ _ _ Hl Hin). congruence. }
  assert (Hnd' : NoDup (locs ++ [malloc h])).
  { apply NoDup_app. split; [done|]. split; [|apply NoDup_singleton].
    by intros c Hc ->%list_elem_of_singleton. }
  assert (Hfresh : h0 !! malloc h = None).
  { specialize (Hg (malloc h)). rewrite decide_False in Hg by done.
    congruence. }
  assert (Hg' : ∀ z nd, z ∈ locs →
            grown h0 (<[z := nd]> (<[malloc h := {| next := None; value := v |}]> h))
              (locs ++ [malloc h])
            ∧ grown h0 (<[malloc h := {| next := None; value := v |}]> h)
                (locs ++ [malloc h])).
  { intros z nd Hz. split; intros a; specialize (Hg a);
      destruct (decide (a ∈ locs)) as [Ha|Ha].
    - rewrite decide_True by (apply elem_of_app; by left). done.
    - destruct (decide (a = malloc h)) as [->|Hne].
      + rewrite decide_True; [done|].
        apply elem_of_app. right. by apply list_elem_of_singleton.
      + rewrite decide_False.
        * rewrite !lookup_insert_ne; [done|done|]. by intros ->.
        * intros [?|?%list_elem_of_singleton]%elem_of_app; done.
    - rewrite decide_True by (apply elem_of_app; by left). done.
    - destruct (decide (a = malloc h)) as [->|Hne].
      + rewrite decide_True; [done|].
        apply elem_of_app. right. by apply list_elem_of_singleton.
      + rewrite decide_False.
        * by rewrite lookup_insert_ne.
        * intros [?|?%list_elem_of_singleton]%elem_of_app; done. }
  unfold queue_enqueue, clone_string.
  destruct locs as [|a locs].
  - destruct l; [|done]. cbn in Hf. rewrite Hf.
    eexists _, _, (malloc h). split; [done|].
    cbn [links app head last]. rewrite lookup_insert_eq.
    split_and!; [done|done|done|done|done|].
    intros b. specialize (Hg b). cbn in Hg.
    destruct (decide (b = malloc h)) as [->|Hne].
    + rewrite decide_True; [done|]. by apply list_elem_of_singleton.
    + rewrite decide_False by (by intros ?%list_elem_of_singleton).
      rewrite lookup_insert_ne by done.
      rewrite decide_False in Hg; [done|]. by intros ?%elem_of_nil.
  - destruct l as [|x l]; [done|]. cbn in Hf. rewrite Hf.
    rewrite Hlast by done.
    destruct (list.last (a :: locs)) as [z|] eqn:Hz;
      [|by apply last_None in Hz].
    destruct (links_snoc _ _ _ _ _ v Hl Hnd Hz Hn) as (vz & Hvz & Hlinks).
    assert (z ≠ malloc h) by (intros ->; congruence).
    cbn [mbind option_bind]. rewrite lookup_insert_ne by done.
    rewrite Hvz. cbn [mbind option_bind value].
    eexists _, _, (malloc h). split; [done|].
    split_and!; [exact Hlinks|done|done|by rewrite last_snoc|].
    apply Hg'. apply last_Some in Hz as [l' ->].
    apply elem_of_app. right. by apply list_elem_of_singleton.
Qed.

Lemma enqueue_all_grown h0 vs : ∀ h q l locs,
  links h locs l → NoDup locs → first q = head locs →
  (l ≠ [] → last q = list.last locs) → grown h0 h locs →
  ∃ h' q' locs',
    enqueue_all h q vs = Some (h', q')
    ∧ links h' locs' (l ++ vs) ∧ NoDup locs' ∧ first q' = head locs'
    ∧ grown h0 h' locs'.
Proof.
  induction vs as [|v vs IH]; intros h q l locs Hl Hnd Hf Hlast Hg;
    cbn [enqueue_all].
  - exists h, q, locs. by rewrite app_nil_r.
  - destruct (enqueue_grown h0 h q l locs v Hl Hnd Hf Hlast Hg)
      as (h1 & q1 & n & -> & Hl1 & Hnd1 & Hf1 & Hlast1 & Hg1).
    cbn [mbind option_bind].
    destruct (IH h1 q1 (l ++ [v]) (locs ++ [n]) Hl1 Hnd1 Hf1
                (λ _, Hlast1) Hg1)
      as (h2 & q2 & locs2 & -> & Hl2 & Hnd2 & Hf2 & Hg2).
    exists h2, q2, locs2. by rewrite <- app_assoc in Hl2.
Qed.

(** X16. The whole life of a queue leaves the heap as it found it: after
    [queue_create], any number of calls of [queue_enqueue], each of which
    succeeds, and [queue_destroy], every location holds what it held
    before; the nodes that were allocated are all freed. *)
Theorem queue_life (h : heap) (vs : list string) :
  ∃ h1 q1, enqueue_all h queue_create vs = Some (h1, q1)
           ∧ queue_destroy (length vs) h1 q1 = Some h.
Proof.
  destruct (enqueue_all_grown h vs h queue_create [] [])
    as (h1 & q1 & locs & He & Hl & Hnd & Hf & Hg);
    [done|constructor|done|done| |].
  { intros a. rewrite decide_False; [done|]. by intros ?%elem_of_nil. }
  exists h1, q1. split; [done|].
  destruct (queue_destroy_total (length vs) h1 q1 locs vs Hl Hnd Hf)
    as (h2 & -> & Hh2); [done|].
  f_equal. apply map_eq. intros a. rewrite Hh2. specialize (Hg a).
  by destruct (decide (a ∈ locs)).
Qed.

End Queue.

(** ** Outcomes of code that may end the process *)

(** A call returns ([Ok]), ends the process through [exit] ([Exit], with the
    status and the diagnostic written to stderr just before), or runs into
    undefined behaviour ([Fault]: a null or out-of-bounds access, a mutex
    locked again or destroyed by the thread that holds it, an array of
    negative size). *)
Inductive outcome (A : Type) : Type :=
| Ok (a : A)
| Exit (status : Z) (diagnostic : string)
| Fault.
Arguments Ok {A} a.
Arguments Exit {A} status diagnostic.
Arguments Fault {A}.

#[global] Instance outcome_ret : MRet outcome := λ A, Ok.
#[global] Instance outcome_bind : MBind outcome := λ A B f m,
  match m with
  | Ok a => f a
  | Exit status diagnostic => Exit status diagnostic
  | Fault => Fault
  end.

(** ** The environment: memory, file system, C library *)

(** How many further requests for memory the system grants ([malloc],
    [calloc], [realloc], and what [pthread_create] needs for a thread);
    [None] when it never refuses one. *)
Definition memory : Type := option nat.

(** [malloc], [calloc], [realloc]: the memory left after the request, or
    [None] for a null result. *)
Definition alloc (mem : memory) : option memory :=
  match mem with
  | None => Some None
  | Some (S k) => Some (Some k)
  | Some O => None
  end.

(** [struct stat], the two fields the program reads. [st_blocks] has type
    [blkcnt_t], 64 bits wide. *)
Record stat := Stat { st_mode : Z; st_blocks : Z }.

Definition S_IFMT : Z := 61440.
Definition S_IFDIR : Z := 16384.

(** What the system calls answer:
    - [lstat path]: the stat buffer, or [None] when [lstat] returns -1;
    - [opendir path]: [inl e] when it fails with [errno = e], else [inr names],
      the [d_name]s that successive [readdir] calls return, "." and ".."
      among them;
    - [strerror]. *)
Record System := MkSystem {
  lstat : string → option stat;
  opendir : string → positive + list string;
  strerror : Z → string
}.

(** ** safe_functions.c *)

(** Every failure branch ends in [thread_context_destroy(in_use_data);
    exit(EXIT_FAILURE)]. The argument [in_use_data] is given here as what
    [thread_context_destroy] comes to on it at the time of the call:
    [null_context] for a null pointer, [thread_context_destroy ctx mem] for
    the context, [held_queue] for the context while the caller holds the mutex
    of one of its queues. The process exits when that returns. *)
Definition destroy_and_exit {A : Type} (in_use_data : outcome unit)
  (diagnostic : string) : outcome A :=
  _ ← in_use_data; Exit EXIT_FAILURE diagnostic.

(** [thread_context_destroy(NULL)] reads [thread_context->dir_num] through the
    null pointer. *)
Definition null_context : outcome unit := Fault.

Definition safe_malloc (in_use_data : outcome unit) (mem : memory)
  : outcome memory :=
  match alloc mem with
  | Some mem' => Ok mem'
  | None => destroy_and_exit in_use_data "malloc() failed to allocate memory"
  end.

Definition safe_calloc (in_use_data : outcome unit) (mem : memory)
  : outcome memory :=
  match alloc mem with
  | Some mem' => Ok mem'
  | None => destroy_and_exit in_use_data "calloc() failed to allocate memory"
  end.

Definition safe_realloc (in_use_data : outcome unit) (mem : memory)
  : outcome memory :=
  match alloc mem with
  | Some mem' => Ok mem'
  | None => destroy_and_exit in_use_data "realloc() failed to allocate memory"
  end.

Definition safe_lstat (sys : System) (path_name : string)
  (in_use_data : outcome unit) : outcome stat :=
  match lstat sys path_name with
  | Some buff => Ok buff
  | None => destroy_and_exit in_use_data "lstat"
  end.

(** [safe_opendir]: the stream ([None] for a null [DIR*]), the lines written
    to stderr, and the caller's [errno] afterwards. *)
Definition safe_opendir (sys : System) (dir_name : string) (errno : Z)
  : option (list string) * list string * Z :=
  match opendir sys dir_name with
  | inl e =>
      (None,
       ["du: cannot read directory '" +:+ dir_name +:+ "': "
          +:+ strerror sys (Z.pos e)],
       Z.pos e)
  | inr names => (Some names, [], errno)
  end.

(** ** The queue as the list of its strings

    By [Queue.queue_fifo] the linked queue behaves as the list of the strings
    it holds; the rest of the program is modelled on that list. The
    allocations of [make_node] and [clone_string] are kept: [clone_string]
    passes a null [in_use_data]. *)

Definition clone_string (mem : memory) : outcome memory :=
  safe_calloc null_context mem.

(** [thread_context_destroy] on the context of a queue whose mutex the caller
    holds. It comes to [queue_destroy] of that queue, which locks the mutex
    again in [queue_dequeue] or, the queue being empty, destroys it locked:
    both are undefined for a default mutex. *)
Definition held_queue : outcome unit := Fault.

(** [queue_create(in_use_data)]. *)
Definition queue_create (in_use_data : outcome unit) (mem : memory)
  : outcome (list string * memory) :=
  mem ← safe_malloc in_use_data mem;
  Ok ([], mem).

(** [queue_enqueue(q, value, in_use_data)] for a queue [q] of the context that
    [in_use_data] points to: [make_node] calls [safe_malloc] between the lock
    and the unlock of [q->mutex]. *)
Definition queue_enqueue (q : list string) (value : string) (mem : memory)
  : outcome (list string * memory) :=
  mem ← safe_malloc held_queue mem;
  mem ← clone_string mem;
  Ok (q ++ [value], mem).

Definition queue_dequeue (q : list string) (mem : memory)
  : outcome (string * list string * memory) :=
  match q with
  | [] => Fault
  | value :: q' => mem ← clone_string mem; Ok (value, q', mem)
  end.

Definition queue_is_empty (q : list string) : bool :=
  match q with [] => true | _ :: _ => false end.

(** [queue_destroy]: [queue_dequeue] until the queue is empty, each string
    freed as soon as it is returned. *)
Fixpoint queue_destroy (q : list string) (mem : memory) : outcome memory :=
  match q with
  | [] => Ok mem
  | _ :: q' => '(_, _, mem) ← queue_dequeue q mem; queue_destroy q' mem
  end.

(** ** thread_context.c *)

(** [Coordinator]: the counter of active threads, the running total and the
    queue of directories; their mutexes are left out, each operation below is
    one critical section. *)
Record Coordinator := MkCoordinator {
  active_threads : Z;
  tot_sum : Z;
  dir_queue : list string
}.

(** [ThreadContext]. [coordinator] lists the slots of the array that hold a
    coordinator, from index 0; [capacity] is the number of slots of the block
    the array pointer points to (known to the allocator, not to the program);
    [size] and [dir_num] are the program's fields. *)
Record ThreadContext := MkThreadContext {
  coordinator : list Coordinator;
  capacity : Z;
  size : Z;
  dir_num : Z
}.

Definition set_coordinator (cs : list Coordinator) (ctx : ThreadContext)
  : ThreadContext :=
  {| coordinator := cs; capacity := capacity ctx;
     size := size ctx; dir_num := dir_num ctx |}.

Definition destroy_coordinator (c : Coordinator) (mem : memory)
  : outcome memory :=
  queue_destroy (dir_queue c) mem.

Fixpoint destroy_coordinators (cs : list Coordinator) (mem : memory)
  : outcome memory :=
  match cs with
  | [] => Ok mem
  | c :: cs' => mem ← destroy_coordinator c mem; destroy_coordinators cs' mem
  end.

(** [thread_context_destroy] of the context, run by a thread that holds none
    of its mutexes while no other thread uses it: what destroying
    [mutex_work] and [cond_work] under a thread that waits on them comes to is
    for the pool of workers to say ([ended_among]). The loop reads the slots
    below [dir_num]; one that holds no coordinator yet is null or was never
    written. *)
Definition thread_context_destroy (ctx : ThreadContext) (mem : memory)
  : outcome unit :=
  if dir_num ctx <=? Z.of_nat (length (coordinator ctx)) then
    _ ← destroy_coordinators
          (take (Z.to_nat (dir_num ctx)) (coordinator ctx)) mem;
    Ok ()
  else Fault.

Definition create_counter (mem : memory) : outcome (Z * memory) :=
  mem ← safe_malloc null_context mem;
  Ok (0, mem).

Definition create_coordinator (ctx : ThreadContext) (mem : memory)
  : outcome (Coordinator * memory) :=
  mem ← safe_malloc (thread_context_destroy ctx mem) mem;
  '(counter, mem) ← create_counter mem;
  '(q, mem) ← queue_create (thread_context_destroy ctx mem) mem;
  Ok ({| active_threads := counter; tot_sum := 0; dir_queue := q |}, mem).

Definition create_thread_context (mem : memory)
  : outcome (ThreadContext * memory) :=
  mem ← safe_malloc null_context mem;
  mem ← safe_calloc null_context mem;
  Ok ({| coordinator := []; capacity := 2; size := 2; dir_num := 0 |}, mem).

(** [expand_and_create_coordinator]. When [size <= dir_num] the array is
    reallocated to [size + 2] slots and [size] is doubled. The store to
    [coordinator[dir_num - 1]] is a [Fault] outside the allocated block; the
    slots below [dir_num - 1] were written by the earlier calls, so the store
    extends the list of coordinators. Until the store the context has the
    coordinators it came with. *)
Definition expand_and_create_coordinator (ctx : ThreadContext) (mem : memory)
  : outcome (ThreadContext * memory) :=
  let size0 := size ctx in
  let dir_num0 := dir_num ctx in
  '(capacity1, size1, mem) ←
    (if size0 <=? dir_num0
     then mem ← safe_realloc (thread_context_destroy ctx mem) mem;
          Ok (size0 + 2, to_int (size0 * 2), mem)
     else Ok (capacity ctx, size0, mem));
  '(c, mem) ←
    create_coordinator
      {| coordinator := coordinator ctx; capacity := capacity1;
         size := size1; dir_num := dir_num0 |} mem;
  if (0 <=? dir_num0 - 1) && (dir_num0 - 1 <? capacity1)
  then Ok ({| coordinator := coordinator ctx ++ [c]; capacity := capacity1;
              size := size1; dir_num := dir_num0 |}, mem)
  else Fault.

Definition increment_counter (c : Coordinator) : Coordinator :=
  {| active_threads := to_int (active_threads c + 1);
     tot_sum := tot_sum c; dir_queue := dir_queue c |}.

Definition decrement_counter (c : Coordinator) : Coordinator :=
  {| active_threads :=
       if 0 <? active_threads c then active_threads c - 1 else active_threads c;
     tot_sum := tot_sum c; dir_queue := dir_queue c |}.

Definition get_counter_value (c : Coordinator) : Z := active_threads c.

(** [update_total_sum(int value, ...)]: [value] is an [int]. *)
Definition update_total_sum (value : Z) (c : Coordinator) : Coordinator :=
  {| active_threads := active_threads c;
     tot_sum := to_int (tot_sum c + value); dir_queue := dir_queue c |}.

(** An operation on the coordinator that a [Coordinator*] points to, here the
    one at index [i]. *)
Definition on_coordinator (i : nat) (f : Coordinator → Coordinator)
  (ctx : ThreadContext) : ThreadContext :=
  set_coordinator (alter f i (coordinator ctx)) ctx.

(** ** The C library: getopt and atoi

    [getopt] is the one of glibc in its default mode, which permutes [argv] so
    that the options come first. Only what the option string "j:" needs is
    modelled: short options, [--], and an option with a required argument. *)

Record getopt_data := MkGetopt {
  argv : list string;
  optind : nat;
  first_nonopt : nat;
  last_nonopt : nat;
  nextchar : string;
  optarg : string
}.

(** [_getopt_initialize]: [optind = 1], nothing skipped yet. *)
Definition getopt_initialize (argv : list string) : getopt_data :=
  {| argv := argv; optind := 1; first_nonopt := 1; last_nonopt := 1;
     nextchar := ""; optarg := "" |}.

(** [NONOPTION_P]: [argv[optind][0] != '-' || argv[optind][1] == '\0']. *)
Definition nonoption_p (a : string) : bool :=
  match a with
  | String "-" (String _ _) => false
  | _ => true
  end.

(** [exchange]: the non-options at [first .. last) and the options at
    [last .. optind) change places. *)
Definition exchange (av : list string) (first last optind : nat)
  : list string :=
  take first av ++ take (optind - last) (drop last av)
    ++ take (last - first) (drop first av) ++ drop optind av.

Fixpoint skip_nonoptions (rest : list string) (optind : nat) : nat :=
  match rest with
  | a :: rest' =>
      if nonoption_p a then skip_nonoptions rest' (S optind) else optind
  | [] => optind
  end.

(** The first half of [_getopt_internal_r], run when [nextchar] is empty:
    advance to the next element of [argv]. [inl d] when the scan is over
    ([getopt] returns -1), else [inr d] with [nextchar] behind the dash. *)
Definition getopt_advance (d : getopt_data) : getopt_data + getopt_data :=
  let argc := length (argv d) in
  let optind0 := optind d in
  let last0 := Nat.min (last_nonopt d) optind0 in
  let first0 := Nat.min (first_nonopt d) optind0 in
  let '(av1, first1) :=
    if negb (first0 =? last0)%nat && negb (last0 =? optind0)%nat
    then (exchange (argv d) first0 last0 optind0,
          (first0 + (optind0 - last0))%nat)
    else if negb (last0 =? optind0)%nat then (argv d, optind0)
    else (argv d, first0) in
  let optind1 := skip_nonoptions (drop optind0 av1) optind0 in
  let last1 := optind1 in
  let '(av2, first2, last2, optind2) :=
    if negb (optind1 =? argc)%nat
       && bool_decide (av1 !! optind1 = Some "--")
    then
      let optind' := S optind1 in
      let '(av', first') :=
        if negb (first1 =? last1)%nat && negb (last1 =? optind')%nat
        then (exchange av1 first1 last1 optind',
              (first1 + (optind' - last1))%nat)
        else if (first1 =? last1)%nat then (av1, optind')
        else (av1, first1) in
      (av', first', argc, argc)
    else (av1, first1, last1, optind1) in
  if (optind2 =? argc)%nat
  then inl {| argv := av2;
              optind := if negb (first2 =? last2)%nat then first2 else optind2;
              first_nonopt := first2; last_nonopt := last2;
              nextchar := ""; optarg := "" |}
  else inr {| argv := av2; optind := optind2;
              first_nonopt := first2; last_nonopt := last2;
              nextchar := match av2 !! optind2 with
                          | Some (String _ s) => s
                          | _ => ""
                          end;
              optarg := "" |}.

Definition char_code (c : ascii) : Z := Z.of_N (N_of_ascii c).

(** What [getopt] writes to stderr about the option character [c]; [opterr]
    is never cleared and the option string does not begin with a colon. *)
Definition getopt_diagnostic (av : list string) (what : string) (c : ascii)
  : string :=
  default "" (head av) +:+ ": " +:+ what +:+ " -- '" +:+ String c "'".

(** One call of [getopt(argc, argv, "j:")]: the value returned (-1, ['j'] or
    ['?']), the state left and the lines written to stderr. *)
Definition getopt (d : getopt_data) : Z * getopt_data * list string :=
  let step1 := match nextchar d with
               | EmptyString => getopt_advance d
               | String _ _ => inr d
               end in
  match step1 with
  | inl d' => (-1, d', [])
  | inr d1 =>
      match nextchar d1 with
      | EmptyString => (-1, d1, [])
      | String c rest =>
          let optind1 :=
            match rest with EmptyString => S (optind d1) | _ => optind d1 end in
          if (char_code c =? 106) (* 'j', which takes an argument *)
          then
            match rest with
            | String _ _ =>
                (106, {| argv := argv d1; optind := S optind1;
                         first_nonopt := first_nonopt d1;
                         last_nonopt := last_nonopt d1;
                         nextchar := ""; optarg := rest |}, [])
            | EmptyString =>
                match argv d1 !! optind1 with
                | None =>
                    (63, {| argv := argv d1; optind := optind1;
                            first_nonopt := first_nonopt d1;
                            last_nonopt := last_nonopt d1;
                            nextchar := ""; optarg := "" |},
                     [getopt_diagnostic (argv d1)
                        "option requires an argument" c])
                | Some a =>
                    (106, {| argv := argv d1; optind := S optind1;
                             first_nonopt := first_nonopt d1;
                             last_nonopt := last_nonopt d1;
                             nextchar := ""; optarg := a |}, [])
                end
            end
          else
            (63, {| argv := argv d1; optind := optind1;
                    first_nonopt := first_nonopt d1;
                    last_nonopt := last_nonopt d1;
                    nextchar := rest; optarg := "" |},
             [getopt_diagnostic (argv d1) "invalid option" c])
      end
  end.

Definition isspace (c : ascii) : bool :=
  let n := char_code c in (n =? 32) || ((9 <=? n) && (n <=? 13)).

Definition isdigit (c : ascii) : bool :=
  let n := char_code c in (48 <=? n) && (n <=? 57).

Fixpoint skip_spaces (s : string) : string :=
  match s with
  | String c rest => if isspace c then skip_spaces rest else s
  | EmptyString => s
  end.

Fixpoint digits_value (s : string) (acc : Z) : Z :=
  match s with
  | String c rest =>
      if isdigit c then digits_value rest (acc * 10 + (char_code c - 48))
      else acc
  | EmptyString => acc
  end.

Definition LONG_MAX : Z := 9223372036854775807.
Definition LONG_MIN : Z := -9223372036854775808.

Definition ERANGE : Z := 34.

(** The number that the digits of [s] write, behind white space and a sign. *)
Definition strtol_number (s : string) : Z :=
  match skip_spaces s with
  | String "-" rest => - digits_value rest 0
  | String "+" rest => digits_value rest 0
  | rest => digits_value rest 0
  end.

(** [strtol(s, NULL, 10)], which saturates. *)
Definition strtol10 (s : string) : Z :=
  Z.max LONG_MIN (Z.min LONG_MAX (strtol_number s)).

(** [errno] after [strtol(s, NULL, 10)]: [ERANGE] when the result saturates,
    else as it was. *)
Definition strtol_errno (s : string) (errno : Z) : Z :=
  let v := strtol_number s in
  if (v <? LONG_MIN) || (LONG_MAX <? v) then ERANGE else errno.

(** [atoi] is [(int) strtol(s, NULL, 10)]. *)
Definition atoi (s : string) : Z := to_int (strtol10 s).

(** The value of [*s] for a [char*], [char] being signed. *)
Definition first_char (s : string) : Z :=
  match s with
  | EmptyString => 0
  | String c _ => let n := char_code c in if n <? 128 then n else n - 256
  end.

(** ** mdu.c *)

Definition strlen (s : string) : Z := Z.of_nat (String.length s).

Definition get_path_length (file_path directory_path : string) : Z :=
  to_int (strlen file_path + strlen directory_path + 2).

Definition is_dot_or_dot_dot (path : string) : bool :=
  String.eqb path "." || String.eqb path "..".

Definition is_dictionary (file_info : stat) : bool :=
  Z.land (st_mode file_info) S_IFMT =? S_IFDIR.

(** [optind] is the global that [getopt] left. *)
Definition is_flag_arg (optind i : Z) : bool :=
  (i =? optind - 2) || (i =? optind - 1).

Definition check_arguments (argc : Z) : outcome unit :=
  if argc <? 2
  then Exit EXIT_FAILURE "mdu -j {antal trådar} {fil} [filer ...]"
  else Ok ().

(** [queue_enqueue(coordinator->dir_queue, value, thread_context)] for the
    coordinator at index [i]. *)
Definition enqueue_on (i : nat) (value : string) (ctx : ThreadContext)
  (mem : memory) : outcome (ThreadContext * memory) :=
  match coordinator ctx !! i with
  | None => Fault
  | Some c =>
      '(q, mem) ← queue_enqueue (dir_queue c) value mem;
      Ok (set_coordinator
            (<[i := {| active_threads := active_threads c;
                       tot_sum := tot_sum c; dir_queue := q |}]>
               (coordinator ctx)) ctx, mem)
  end.

Definition process_argument (sys : System) (optind : Z) (index : Z)
  (arg : string) (ctx : ThreadContext) (mem : memory)
  : outcome (ThreadContext * memory) :=
  if negb (is_flag_arg optind index) then
    file_info ← safe_lstat sys arg (thread_context_destroy ctx mem);
    if is_dictionary file_info then
      let ctx := {| coordinator := coordinator ctx; capacity := capacity ctx;
                    size := size ctx; dir_num := to_int (dir_num ctx + 1) |} in
      let dir_num := dir_num ctx in
      '(ctx, mem) ← expand_and_create_coordinator ctx mem;
      '(ctx, mem) ← enqueue_on (Z.to_nat (dir_num - 1)) arg ctx mem;
      Ok (on_coordinator (Z.to_nat (dir_num - 1))
            (update_total_sum (to_int (st_blocks file_info))) ctx, mem)
    else Ok (ctx, mem)
  else Ok (ctx, mem).

(** The loop of [traverse_input_arguments], from index [i] on. *)
Fixpoint traverse_arguments_from (sys : System) (optind : Z) (i : Z)
  (args : list string) (ctx : ThreadContext) (mem : memory)
  : outcome (ThreadContext * memory) :=
  match args with
  | [] => Ok (ctx, mem)
  | arg :: rest =>
      '(ctx, mem) ← process_argument sys optind i arg ctx mem;
      traverse_arguments_from sys optind (i + 1) rest ctx mem
  end.

Definition traverse_input_arguments (sys : System) (optind : Z)
  (argv : list string) (ctx : ThreadContext) (mem : memory)
  : outcome (ThreadContext * memory) :=
  traverse_arguments_from sys optind 1 (drop 1 argv) ctx mem.

(** The loop of [get_thread_amount]; every call of [getopt] takes a character
    or an element of [argv], so [fuel] is never used up. Besides the value
    returned and the state of [getopt]: the [errno] of the invoking thread,
    which [atoi] may set, and the lines that [getopt] wrote to stderr. *)
Fixpoint get_thread_amount_loop (fuel : nat) (d : getopt_data) (errno : Z)
  (written : list string) : Z * getopt_data * Z * list string :=
  match fuel with
  | O => (0, d, errno, written)
  | S fuel' =>
      let '(opt, d', messages) := getopt d in
      let written := written ++ messages in
      if opt =? -1 then (0, d', errno, written)
      else if opt =? 106 then
        if first_char (optarg d') <? 1 then (0, d', errno, written)
        else (to_int (atoi (optarg d') - 1), d',
              strtol_errno (optarg d') errno, written)
      else get_thread_amount_loop fuel' d' errno written
  end.

(** [get_thread_amount(argc, argv)] in a process that has just started, its
    [errno] zero. *)
Definition get_thread_amount_run (argv : list string)
  : Z * getopt_data * Z * list string :=
  get_thread_amount_loop
    (S (length argv + sum_list (String.length <$> argv)))
    (getopt_initialize argv) 0 [].

(** The value that [get_thread_amount] returns and what [getopt] left. *)
Definition get_thread_amount (argv : list string) : Z * getopt_data :=
  (get_thread_amount_run argv).1.1.

(** A byte buffer of [n] bytes ([n] an [int] converted to [size_t]) receives
    at most [n - 1] characters of the formatted path. *)
Definition snprintf_path (n : Z) (dir_name file_name : string) : string :=
  let s := dir_name +:+ "/" +:+ file_name in
  if n <? 0 then s else substring 0 (Z.to_nat (n - 1)) s.

Definition create_full_path (dir_name file_name : string)
  (ctx : ThreadContext) (mem : memory) : outcome (string * memory) :=
  let path_length := get_path_length file_name dir_name in
  mem ← safe_calloc (thread_context_destroy ctx mem) mem;
  Ok (snprintf_path path_length dir_name file_name, mem).

Definition process_directory_entry (sys : System) (full_path : string)
  (sum : Z) (c : nat) (ctx : ThreadContext) (mem : memory)
  : outcome (Z * ThreadContext * memory) :=
  file_info ← safe_lstat sys full_path (thread_context_destroy ctx mem);
  '(ctx, mem) ←
    (if is_dictionary file_info then enqueue_on c full_path ctx mem
     else Ok (ctx, mem));
  Ok (to_int (sum + st_blocks file_info), ctx, mem).

(** One round of the loop of [process_directory_entries], for the entry
    [d_name] that [readdir] returned. *)
Definition process_entry (sys : System) (dir_name d_name : string)
  (sum : Z) (c : nat) (ctx : ThreadContext) (mem : memory)
  : outcome (Z * ThreadContext * memory) :=
  if negb (is_dot_or_dot_dot d_name) then
    '(full_path, mem) ← create_full_path dir_name d_name ctx mem;
    process_directory_entry sys full_path sum c ctx mem
  else Ok (sum, ctx, mem).

Fixpoint process_directory_entries (sys : System) (dir_name : string)
  (directory : list string) (sum : Z) (c : nat) (ctx : ThreadContext)
  (mem : memory) : outcome (Z * ThreadContext * memory) :=
  match directory with
  | [] => Ok (sum, ctx, mem)
  | d_name :: rest =>
      '(sum, ctx, mem) ← process_entry sys dir_name d_name sum c ctx mem;
      process_directory_entries sys dir_name rest sum c ctx mem
  end.

(** [traverse_directory] as one thread runs it, no other thread at work: the
    context, the memory, the thread's [errno] and the lines written to
    stderr. *)
Definition traverse_directory (sys : System) (dir_name : string) (c : nat)
  (ctx : ThreadContext) (mem : memory) (errno : Z)
  : outcome (ThreadContext * memory * Z * list string) :=
  let '(directory, messages, errno) := safe_opendir sys dir_name errno in
  match directory with
  | Some names =>
      '(sum, ctx, mem) ←
        process_directory_entries sys dir_name names 0 c ctx mem;
      Ok (on_coordinator c (update_total_sum sum) ctx, mem, errno, messages)
  | None => Ok (ctx, mem, errno, messages)
  end.

Fixpoint are_threads_active_from (cs : list Coordinator) : bool :=
  match cs with
  | [] => false
  | c :: cs' =>
      let threads_num := get_counter_value c in
      if (0 <? threads_num) || negb (queue_is_empty (dir_queue c)) then true
      else are_threads_active_from cs'
  end.

Definition are_threads_active (ctx : ThreadContext) : bool :=
  are_threads_active_from (coordinator ctx).

(** The loop of [get_non_empty_coordinator] from index [i] on: the index of
    the coordinator found, the path dequeued and the coordinator after the
    dequeue and the increment. *)
Fixpoint get_non_empty_from (cs : list Coordinator) (i : nat) (mem : memory)
  : outcome (option (nat * string * Coordinator) * memory) :=
  match cs with
  | [] => Ok (None, mem)
  | c :: cs' =>
      if negb (queue_is_empty (dir_queue c)) then
        '(dir_path, q, mem) ← queue_dequeue (dir_queue c) mem;
        Ok (Some (i, dir_path,
                  increment_counter
                    {| active_threads := active_threads c;
                       tot_sum := tot_sum c; dir_queue := q |}), mem)
      else get_non_empty_from cs' (S i) mem
  end.

Definition get_non_empty_coordinator (ctx : ThreadContext) (mem : memory)
  : outcome (option (nat * string) * ThreadContext * memory) :=
  '(found, mem) ← get_non_empty_from (coordinator ctx) 0 mem;
  match found with
  | Some (i, dir_path, c) =>
      Ok (Some (i, dir_path),
          set_coordinator (<[i := c]> (coordinator ctx)) ctx, mem)
  | None => Ok (None, ctx, mem)
  end.

(** What one round of the loop of [get_coordinator_with_work] comes to, under
    the lock [mutex_work]: a coordinator and a path to return, a wait on
    [cond_work] after which the round is run again, or the null result. *)
Inductive dispatch :=
| Work (c : nat) (dir_path : string)
| Wait
| NoWork.

Definition get_coordinator_with_work (ctx : ThreadContext) (mem : memory)
  : outcome (dispatch * ThreadContext * memory) :=
  if are_threads_active ctx then
    '(found, ctx', mem') ← get_non_empty_coordinator ctx mem;
    match found with
    | None => Ok (Wait, ctx, mem)
    | Some (c, dir_path) => Ok (Work c dir_path, ctx', mem')
    end
  else Ok (NoWork, ctx, mem).

Definition tab : string := String "009" EmptyString.

(** [printf("%d<TAB>%s\n", file_size, file_path)], the line without its end. *)
Definition result_line (file_size : Z) (file_path : string) : string :=
  pretty file_size +:+ tab +:+ file_path.

(** The loop of [print_results] from index [i] on: the lines written to
    stdout, and how the loop ended. *)
Fixpoint print_results_from (sys : System) (optind : Z) (i : Z)
  (args : list string) (ctx : ThreadContext) (mem : memory) (dir_num : nat)
  : list string * outcome unit :=
  match args with
  | [] => ([], Ok ())
  | arg :: rest =>
      if negb (is_flag_arg optind i) then
        match safe_lstat sys arg (thread_context_destroy ctx mem) with
        | Ok file_info =>
            if is_dictionary file_info then
              match coordinator ctx !! dir_num with
              | Some c =>
                  let file_size := tot_sum c in
                  let '(out, r) :=
                    print_results_from sys optind (i + 1) rest ctx mem
                      (S dir_num)
                  in (result_line file_size arg :: out, r)
              | None => ([], Fault)
              end
            else
              let file_size := to_int (st_blocks file_info) in
              let '(out, r) :=
                print_results_from sys optind (i + 1) rest ctx mem dir_num
              in (result_line file_size arg :: out, r)
        | Exit status diagnostic => ([], Exit status diagnostic)
        | Fault => ([], Fault)
        end
      else print_results_from sys optind (i + 1) rest ctx mem dir_num
  end.

Definition print_results (sys : System) (optind : Z) (argv : list string)
  (ctx : ThreadContext) (mem : memory) : list string * outcome unit :=
  print_results_from sys optind 1 (drop 1 argv) ctx mem 0.

Definition collect_thread_exit_statuses (values : list Z) (exit_status : Z)
  : Z :=
  fold_left
    (λ status value, if value =? EXIT_FAILURE then EXIT_FAILURE else status)
    values exit_status.

(** ** The pool of workers

    Every worker runs [thread_handler]. The states of a worker are the places
    of [thread_handler] and [traverse_directory] between two accesses to what
    the workers share. [errno] is the worker's own; it is zero when a
    thread starts, the invoking thread comes with what [get_thread_amount]
    left, a failing [opendir] sets it, and no call sets it back to zero. *)
Inductive Worker :=
| Seeking (errno : Z)
    (** in [get_coordinator_with_work] *)
| Opening (errno : Z) (c : nat) (dir_name : string)
    (** holds the path dequeued from coordinator [c], before [safe_opendir] *)
| Reading (errno : Z) (c : nat) (dir_name : string) (directory : list string)
    (sum : Z)
    (** in the loop of [process_directory_entries]; [directory] is what
        [readdir] has still to return *)
| Releasing (errno : Z) (c : nat)
    (** [traverse_directory] is over, before [decrement_counter] *)
| Returned (exit_status : Z).

Record Process := MkProcess {
  ctx : ThreadContext;
  pool : list Worker;
  stderr : list string;
  mem : memory
}.

Inductive Machine :=
| Running (p : Process)
| Exited (status : Z)
| Crashed.

Definition ended {A : Type} (r : outcome A) : Machine :=
  match r with
  | Ok _ => Crashed
  | Exit status _ => Exited status
  | Fault => Crashed
  end.

Definition is_returned (w : Worker) : bool :=
  match w with Returned _ => true | _ => false end.

(** Whether a worker other than [i] has not returned from [thread_handler]. *)
Definition others_at_work (pool : list Worker) (i : nat) : bool :=
  existsb (λ w, negb (is_returned w)) (delete i pool).

(** How the process ends when worker [i] leaves through a failure branch.
    [thread_context_destroy] destroys [mutex_work] and [cond_work] and frees
    the coordinators: with another worker still in [thread_handler], blocked
    on [cond_work] or at work on what is freed, that is undefined. *)
Definition ended_among {A : Type} (pool : list Worker) (i : nat)
  (r : outcome A) : Machine :=
  if others_at_work pool i then Crashed else ended r.

(** The step of worker [i], when it can take one. A worker that waits on
    [cond_work] takes none until the round of [get_coordinator_with_work]
    comes to something else: [decrement_counter] and the broadcast that wake it
    are one step of another worker. *)
Definition worker_step (sys : System) (p : Process) (i : nat)
  : option Machine :=
  w ← pool p !! i;
  match w with
  | Seeking errno =>
      match get_coordinator_with_work (ctx p) (mem p) with
      | Ok (Work c dir_path, ctx', mem') =>
          Some (Running {| ctx := ctx';
                           pool := <[i := Opening errno c dir_path]> (pool p);
                           stderr := stderr p; mem := mem' |})
      | Ok (Wait, _, _) => None
      | Ok (NoWork, _, _) =>
          match safe_malloc (thread_context_destroy (ctx p) (mem p)) (mem p)
          with
          | Ok mem' =>
              let exit_status := if negb (errno =? 0) then 1 else 0 in
              Some (Running {| ctx := ctx p;
                               pool := <[i := Returned exit_status]> (pool p);
                               stderr := stderr p; mem := mem' |})
          | r => Some (ended_among (pool p) i r)
          end
      | r => Some (ended_among (pool p) i r)
      end
  | Opening errno c dir_name =>
      let '(directory, messages, errno') := safe_opendir sys dir_name errno in
      let w' := match directory with
                | Some names => Reading errno' c dir_name names 0
                | None => Releasing errno' c
                end in
      Some (Running {| ctx := ctx p; pool := <[i := w']> (pool p);
                       stderr := stderr p ++ messages; mem := mem p |})
  | Reading errno c dir_name (d_name :: rest) sum =>
      match process_entry sys dir_name d_name sum c (ctx p) (mem p) with
      | Ok (sum', ctx', mem') =>
          Some (Running {| ctx := ctx';
                           pool := <[i := Reading errno c dir_name rest sum']>
                                     (pool p);
                           stderr := stderr p; mem := mem' |})
      | r => Some (ended_among (pool p) i r)
      end
  | Reading errno c dir_name [] sum =>
      Some (Running {| ctx := on_coordinator c (update_total_sum sum) (ctx p);
                       pool := <[i := Releasing errno c]> (pool p);
                       stderr := stderr p; mem := mem p |})
  | Releasing errno c =>
      Some (Running {| ctx := on_coordinator c decrement_counter (ctx p);
                       pool := <[i := Seeking errno]> (pool p);
                       stderr := stderr p; mem := mem p |})
  | Returned _ => None
  end.

Definition step (sys : System) (m m' : Machine) : Prop :=
  ∃ p i, m = Running p ∧ worker_step sys p i = Some m'.

(** Running the workers in the order a schedule names them; a worker that
    cannot take a step is passed over. *)
Fixpoint run_schedule (sys : System) (schedule : list nat) (m : Machine)
  : Machine :=
  match schedule, m with
  | i :: schedule', Running p =>
      match worker_step sys p i with
      | Some m' => run_schedule sys schedule' m'
      | None => run_schedule sys schedule' m
      end
  | _, _ => m
  end.

(** ** main *)

(** The number of rounds of the loop
    [for (i = 0; i < thread_num; i++) pthread_create(...)]. *)
Definition spawned (thread_num : Z) : nat := Z.to_nat thread_num.

(** That loop. What [pthread_create] returns is not looked at: when the
    system has no memory left for a thread, [threads[i]] stays indeterminate
    and [pthread_join] is called on it in the end. *)
Fixpoint create_threads (n : nat) (mem : memory) : outcome memory :=
  match n with
  | O => Ok mem
  | S n' =>
      match alloc mem with
      | Some mem' => create_threads n' mem'
      | None => Fault
      end
  end.

(** [main] up to the point where the invoking thread enters [thread_handler]:
    the process with its workers, the invoking thread first, and what [getopt]
    left. A negative size of the array [pthread_t threads[thread_num]] is
    undefined. *)
Definition boot (sys : System) (arguments : list string) (mem : memory)
  : outcome (Process * getopt_data) :=
  _ ← check_arguments (Z.of_nat (length arguments));
  let '(thread_num, d, errno, written) := get_thread_amount_run arguments in
  if thread_num <? 0 then Fault else
  '(ctx, mem) ← create_thread_context mem;
  '(ctx, mem) ←
    traverse_input_arguments sys (Z.of_nat (optind d)) (argv d) ctx mem;
  mem ← create_threads (spawned thread_num) mem;
  Ok ({| ctx := ctx;
         pool := Seeking errno :: replicate (spawned thread_num) (Seeking 0);
         stderr := written; mem := mem |}, d).

Definition exit_value (w : Worker) : option Z :=
  match w with Returned exit_status => Some exit_status | _ => None end.

(** [main] from the return of the invoking thread's [thread_handler] on:
    the joins, [print_results], [thread_context_destroy] and [exit]. [sys] is
    the file system as it is by then. The lines written to stdout and how the
    process ends. *)
Definition finish (sys : System) (d : getopt_data) (p : Process)
  : option (list string * Machine) :=
  match pool p with
  | [] => None
  | w :: others =>
      exit_status ← exit_value w;
      values ← mapM exit_value others;
      let exit_status := collect_thread_exit_statuses values exit_status in
      let '(out, r) :=
        print_results sys (Z.of_nat (optind d)) (argv d) (ctx p) (mem p) in
      Some (out,
            match r with
            | Ok _ =>
                match thread_context_destroy (ctx p) (mem p) with
                | Ok _ => Exited (if negb (exit_status =? EXIT_SUCCESS)
                                  then EXIT_FAILURE else EXIT_SUCCESS)
                | _ => Crashed
                end
            | r => ended r
            end)
  end.

(** A whole run of [main]: what was written to stdout and how it ended.
    [sys] answers the system calls until the workers are done, [sys_end]
    when the results are printed. *)
Inductive main_run (sys sys_end : System) (arguments : list string)
  (mem : memory) : list string → Machine → Prop :=
| run_refused r :
    boot sys arguments mem = r → (∀ x, r ≠ Ok x) →
    main_run sys sys_end arguments mem [] (ended r)
| run_aborted p0 d m :
    boot sys arguments mem = Ok (p0, d) →
    rtc (step sys) (Running p0) m → (∀ p, m ≠ Running p) →
    main_run sys sys_end arguments mem [] m
| run_finished p0 d p out m :
    boot sys arguments mem = Ok (p0, d) →
    rtc (step sys) (Running p0) (Running p) →
    finish sys_end d p = Some (out, m) →
    main_run sys sys_end arguments mem out m.

(** ** Directory trees

    What the system calls show below a path: an entry that is no directory, a
    directory that [opendir] does not open, or a directory with the names
    [readdir] returns and the trees of its entries other than "." and "..".
    Path lengths fit in an [int], as [get_path_length] takes for granted. *)
#[local] Set Warnings "-register-all".
Inductive fstree :=
| Leaf (st : stat)
| Closed (st : stat)
| Open (st : stat) (names : list string) (kids : list fstree).

Definition entry_names (names : list string) : list string :=
  filter (λ n, is_dot_or_dot_dot n = false) names.

Fixpoint presents (sys : System) (path : string) (t : fstree) {struct t}
  : Prop :=
  match t with
  | Leaf st => lstat sys path = Some st ∧ is_dictionary st = false
  | Closed st =>
      lstat sys path = Some st ∧ is_dictionary st = true
      ∧ ∃ e, opendir sys path = inl e
  | Open st names kids =>
      lstat sys path = Some st ∧ is_dictionary st = true
      ∧ opendir sys path = inr names
      ∧ Forall (λ n, strlen path + strlen n + 2 ≤ INT_MAX) names
      ∧ (fix each (ks : list fstree) (ns : list string) {struct ks} : Prop :=
           match ks, ns with
           | [], [] => True
           | k :: ks', n :: ns' =>
               presents sys (path +:+ "/" +:+ n) k ∧ each ks' ns'
           | _, _ => False
           end) kids (entry_names names)
  end.

Definition root_stat (t : fstree) : stat :=
  match t with Leaf st | Closed st | Open st _ _ => st end.

(** The sum of [st_blocks] over the entry at the root of a tree and every
    entry below it. *)
Fixpoint tree_blocks (t : fstree) : Z :=
  match t with
  | Leaf st | Closed st => st_blocks st
  | Open st _ kids =>
      st_blocks st + foldr (λ k acc, tree_blocks k + acc) 0 kids
  end.

(** The directory arguments of the command line, in their order, each with
    what [lstat] answers for it: the arguments of index [i] on that
    [is_flag_arg] does not reject. *)
Fixpoint directory_arguments (sys : System) (optind : Z) (i : Z)
  (args : list string) : list (string * stat) :=
  match args with
  | [] => []
  | arg :: rest =>
      let others := directory_arguments sys optind (i + 1) rest in
      if is_flag_arg optind i then others
      else match lstat sys arg with
           | Some st => if is_dictionary st then (arg, st) :: others else others
           | None => others
           end
  end.

(** * Properties *)

(** ** The dispatch of work *)

Definition idle (c : Coordinator) : Prop :=
  active_threads c = 0 ∧ dir_queue c = [].

(** The counters of a context are those of a pool of workers: none is
    negative and none is at the largest [int]. *)
Definition counters_in_range (ctx : ThreadContext) : Prop :=
  Forall (λ c, 0 ≤ active_threads c < INT_MAX) (coordinator ctx).

(** The coordinator [c] after one path is taken from its queue, which leaves
    [rest], for a worker that starts on it. *)
Definition taken (c : Coordinator) (rest : list string) : Coordinator :=
  {| active_threads := active_threads c + 1; tot_sum := tot_sum c;
     dir_queue := rest |}.

Lemma are_threads_active_false cs :
  are_threads_active_from cs = false ↔
  Forall (λ c, active_threads c ≤ 0 ∧ dir_queue c = []) cs.
Proof.
  induction cs as [|c cs IH]; cbn [are_threads_active_from].
  - split; [constructor|done].
  - unfold get_counter_value. rewrite Forall_cons.
    destruct (0 <? active_threads c) eqn:Hc; cbn [orb].
    + apply Z.ltb_lt in Hc. split; [done|]. intros [[? _] _]. lia.
    + apply Z.ltb_ge in Hc. destruct (dir_queue c) eqn:Hq; cbn.
      * rewrite IH. tauto.
      * split; [done|]. by intros [[_ ?] _].
Qed.

Lemma get_non_empty_from_none cs k mem :
  Forall (λ c, dir_queue c = []) cs →
  get_non_empty_from cs k mem = Ok (None, mem).
Proof.
  intros H. revert k. induction H as [|c cs Hc _ IH]; intros k; [done|].
  cbn [get_non_empty_from]. rewrite Hc. cbn. apply IH.
Qed.

Lemma get_non_empty_from_first cs k mem i c path rest :
  cs !! i = Some c → dir_queue c = path :: rest →
  (∀ j cj, (j < i)%nat → cs !! j = Some cj → dir_queue cj = []) →
  get_non_empty_from cs k mem =
    match alloc mem with
    | Some mem' =>
        Ok (Some ((k + i)%nat, path,
                  increment_counter
                    {| active_threads := active_threads c;
                       tot_sum := tot_sum c; dir_queue := rest |}), mem')
    | None => Fault
    end.
Proof.
  revert k i. induction cs as [|c0 cs IH]; intros k i Hi Hq Hbefore; [done|].
  cbn [get_non_empty_from]. destruct i as [|i].
  - injection Hi as ->. rewrite Hq. cbn.
    unfold clone_string, safe_calloc. rewrite Nat.add_0_r.
    by destruct (alloc mem).
  - rewrite (Hbefore 0%nat c0) by (done || lia). cbn.
    rewrite (IH (S k) i); [|done|done|].
    + by replace (S k + i)%nat with (k + S i)%nat by lia.
    + intros j cj Hj Hcj. apply (Hbefore (S j) cj); [lia|done].
Qed.

(** C2. One round of [get_coordinator_with_work], on the context as it is
    under the lock [mutex_work]: the null result comes exactly when every
    coordinator has no active thread and an empty queue; when some queue is
    not empty, the first path of the first such coordinator in the order of
    the scan is dequeued, that coordinator's counter is incremented, and the
    coordinator and the path are returned (the copy of the path is one
    allocation); otherwise the worker waits on the condition and the round is
    run again. *)
Theorem get_coordinator_with_work_spec (ctx : ThreadContext) (mem : memory) :
  counters_in_range ctx →
  ((∃ ctx' mem', get_coordinator_with_work ctx mem = Ok (NoWork, ctx', mem'))
     ↔ Forall idle (coordinator ctx))
  ∧ (Forall idle (coordinator ctx) →
       get_coordinator_with_work ctx mem = Ok (NoWork, ctx, mem))
  ∧ (∀ i c path rest,
       coordinator ctx !! i = Some c → dir_queue c = path :: rest →
       (∀ j cj, (j < i)%nat → coordinator ctx !! j = Some cj →
                dir_queue cj = []) →
       get_coordinator_with_work ctx mem =
         match alloc mem with
         | Some mem' =>
             Ok (Work i path,
                 set_coordinator (<[i := taken c rest]> (coordinator ctx)) ctx,
                 mem')
         | None => Fault
         end)
  ∧ (Forall (λ c, dir_queue c = []) (coordinator ctx) →
     Exists (λ c, 0 < active_threads c) (coordinator ctx) →
     get_coordinator_with_work ctx mem = Ok (Wait, ctx, mem)).
Proof.
  intros Hrange. unfold get_coordinator_with_work, are_threads_active.
  assert (Hidle : are_threads_active_from (coordinator ctx) = false
                  ↔ Forall idle (coordinator ctx)).
  { rewrite are_threads_active_false. unfold counters_in_range in Hrange.
    rewrite !Forall_forall in *. unfold idle.
    split; intros H c Hc; specialize (H c Hc); specialize (Hrange c Hc);
      (split; [lia|tauto]). }
  assert (Hsome : ∀ i c path rest,
    coordinator ctx !! i = Some c → dir_queue c = path :: rest →
    are_threads_active_from (coordinator ctx) = true).
  { intros i c path rest Hi Hq.
    apply not_false_iff_true. intros Ha.
    apply Hidle in Ha. rewrite Forall_forall in Ha.
    destruct (Ha c) as [_ Hq']; [by eapply list_elem_of_lookup_2|congruence]. }
  split_and!.
  - split.
    + intros (ctx' & mem' & H).
      destruct (are_threads_active_from (coordinator ctx)) eqn:Ha;
        [|by apply Hidle].
      destruct (get_non_empty_coordinator ctx mem) as [[[[[]|] ?] ?]| |];
        discriminate.
    + intros H. apply Hidle in H. rewrite H. eauto.
  - intros H. apply Hidle in H. by rewrite H.
  - intros i c path rest Hi Hq Hbefore.
    rewrite (Hsome _ _ _ _ Hi Hq). unfold get_non_empty_coordinator.
    rewrite (get_non_empty_from_first _ _ _ _ _ _ _ Hi Hq Hbefore).
    destruct (alloc mem); [|done]. cbn.
    unfold increment_counter, taken. cbn.
    rewrite to_int_small; [done|].
    unfold counters_in_range in Hrange. rewrite Forall_forall in Hrange.
    specialize (Hrange c (list_elem_of_lookup_2 _ _ _ Hi)).
    unfold INT_MIN, INT_MAX in *. lia.
  - intros Hempty Hactive.
    destruct (are_threads_active_from (coordinator ctx)) eqn:Ha.
    + unfold get_non_empty_coordinator.
      by rewrite (get_non_empty_from_none _ _ _ Hempty).
    + pose proof (proj1 Hidle eq_refl) as Hall. rewrite Forall_forall in Hall.
      rename Hall into Ha'.
      apply Exists_exists in Hactive as (c & Hc & Hpos).
      destruct (Ha' c Hc). lia.
Qed.

Definition two_roots : ThreadContext :=
  {| coordinator :=
       [ {| active_threads := 1; tot_sum := 8; dir_queue := [] |};
         {| active_threads := 0; tot_sum := 16;
            dir_queue := ["b/x"; "b/y"]%string |} ];
     capacity := 2; size := 4; dir_num := 2 |}.

Lemma get_coordinator_with_work_witness :
  counters_in_range two_roots ∧
  get_coordinator_with_work two_roots None =
    Ok (Work 1 "b/x",
        set_coordinator
          [ {| active_threads := 1; tot_sum := 8; dir_queue := [] |};
            {| active_threads := 1; tot_sum := 16;
               dir_queue := ["b/y"%string] |} ] two_roots,
        None).
Proof.
  assert (H : counters_in_range two_roots).
  { repeat constructor; cbn; unfold INT_MAX; lia. }
  split; [exact H|].
  refine (proj1 (proj2 (proj2 (get_coordinator_with_work_spec two_roots None H)))
            1%nat _ "b/x"%string ["b/y"%string] eq_refl eq_refl _).
  intros [|j] cj Hj Hcj; [|lia]. by injection Hcj as <-.
Defined.

(** ** Seeding: one coordinator for every directory argument *)

(** The coordinator that [process_argument] makes for a directory argument. *)
Definition seed (a : string * stat) : Coordinator :=
  {| active_threads := 0; tot_sum := to_int (st_blocks a.2);
     dir_queue := [a.1] |}.

Lemma bind_Ok {A B : Type} (m : outcome A) (f : A → outcome B) (b : B) :
  m ≫= f = Ok b → ∃ a, m = Ok a ∧ f a = Ok b.
Proof. destruct m; cbn; try done. eauto. Qed.

Lemma destroy_and_exit_bind {A B : Type} in_use_data diagnostic
  (f : A → outcome B) (b : B) :
  destroy_and_exit in_use_data diagnostic ≫= f = Ok b → False.
Proof. unfold destroy_and_exit. by destruct in_use_data. Qed.

Lemma destroy_and_exit_Ok {A : Type} in_use_data diagnostic (a : A) :
  destroy_and_exit in_use_data diagnostic = Ok a → False.
Proof. unfold destroy_and_exit. by destruct in_use_data. Qed.

Lemma safe_lstat_Ok sys path in_use_data st :
  safe_lstat sys path in_use_data = Ok st → lstat sys path = Some st.
Proof.
  unfold safe_lstat. destruct (lstat sys path); [congruence|].
  by intros ?%destroy_and_exit_Ok.
Qed.

Lemma safe_alloc_Ok in_use mem mem' :
  (safe_malloc in_use mem = Ok mem' ∨ safe_calloc in_use mem = Ok mem'
   ∨ safe_realloc in_use mem = Ok mem') → alloc mem = Some mem'.
Proof.
  unfold safe_malloc, safe_calloc, safe_realloc, destroy_and_exit.
  destruct (alloc mem), in_use as [[]| |]; naive_solver.
Qed.

Lemma create_coordinator_Ok ctx mem c mem' :
  create_coordinator ctx mem = Ok (c, mem') →
  c = {| active_threads := 0; tot_sum := 0; dir_queue := [] |}.
Proof.
  unfold create_coordinator, create_counter, queue_create. intros H.
  apply bind_Ok in H as (m1 & _ & H).
  apply bind_Ok in H as ([z m2] & H2 & H).
  apply bind_Ok in H2 as (m3 & _ & H2). injection H2 as <- <-.
  apply bind_Ok in H as ([q m4] & H4 & H).
  apply bind_Ok in H4 as (m5 & _ & H4). injection H4 as <- <-.
  by injection H as <- <-.
Qed.

Definition seeded (ctx : ThreadContext) : Prop :=
  dir_num ctx = Z.of_nat (length (coordinator ctx)) ∧ dir_num ctx ≤ INT_MAX.

Lemma process_argument_Ok sys optind i arg ctx mem ctx' mem' :
  process_argument sys optind i arg ctx mem = Ok (ctx', mem') →
  seeded ctx →
  coordinator ctx' =
    coordinator ctx ++ (seed <$> directory_arguments sys optind i [arg])
  ∧ seeded ctx'.
Proof.
  unfold process_argument. cbn [directory_arguments].
  destruct (is_flag_arg optind i); cbn [negb].
  { intros H Hn. injection H as <- <-. by rewrite app_nil_r. }
  unfold safe_lstat. destruct (lstat sys arg) as [st|];
    [|by intros ?%destroy_and_exit_bind].
  cbn [mbind outcome_bind].
  destruct (is_dictionary st);
    [|intros H Hn; injection H as <- <-; by rewrite app_nil_r].
  intros H [Hn Hmax]. cbn [dir_num coordinator capacity size] in H.
  apply bind_Ok in H as ([ctx1 mem1] & Hexp & H).
  apply bind_Ok in H as ([ctx2 mem2] & Henq & H).
  injection H as <- <-.
  unfold expand_and_create_coordinator in Hexp.
  cbn [dir_num coordinator capacity size] in Hexp.
  apply bind_Ok in Hexp as ([[cap1 size1] mem3] & _ & Hexp).
  apply bind_Ok in Hexp as ([c mem4] & Hc & Hexp).
  apply create_coordinator_Ok in Hc as ->.
  destruct (0 <=? to_int (dir_num ctx + 1) - 1) eqn:H0; [|done].
  destruct (to_int (dir_num ctx + 1) - 1 <? cap1) eqn:H1; [|done].
  cbn in Hexp. injection Hexp as <- <-.
  apply Z.leb_le in H0. apply Z.ltb_lt in H1.
  assert (Hinc : to_int (dir_num ctx + 1) = dir_num ctx + 1).
  { destruct (decide (dir_num ctx + 1 ≤ INT_MAX)) as [Hle|Hgt].
    - apply to_int_small. unfold INT_MIN, INT_MAX in *. lia.
    - assert (dir_num ctx = INT_MAX) as Heq by lia. rewrite Heq in H0.
      vm_compute in H0. by destruct H0. }
  rewrite Hinc in *.
  replace (Z.to_nat (dir_num ctx + 1 - 1)) with (length (coordinator ctx))
    in * by lia.
  unfold enqueue_on in Henq. cbn [coordinator] in Henq.
  rewrite lookup_app_r, Nat.sub_diag in Henq by lia. cbn [lookup list_lookup] in Henq.
  apply bind_Ok in Henq as ([q mem5] & Hq & Henq).
  unfold queue_enqueue in Hq.
  apply bind_Ok in Hq as (m6 & _ & Hq). apply bind_Ok in Hq as (m7 & _ & Hq).
  injection Hq as <- <-. injection Henq as <- <-.
  unfold on_coordinator, set_coordinator, seeded.
  cbn [coordinator dir_num capacity size].
  split.
  - rewrite insert_app_r_alt, Nat.sub_diag by lia. cbn [insert list_insert].
    rewrite (alter_app_r_alt _ (coordinator ctx)), Nat.sub_diag by lia.
    cbn. unfold seed, update_total_sum. cbn. do 2 f_equal.
    rewrite Z.add_0_l. by rewrite to_int_idem.
  - rewrite length_alter, length_insert, length_app. cbn [length].
    pose proof (to_int_range (dir_num ctx + 1)). lia.
Qed.

Lemma directory_arguments_cons sys optind i arg rest :
  directory_arguments sys optind i (arg :: rest) =
  directory_arguments sys optind i [arg]
    ++ directory_arguments sys optind (i + 1) rest.
Proof.
  cbn [directory_arguments]. destruct (is_flag_arg optind i); [done|].
  destruct (lstat sys arg) as [st|]; [|done]. by destruct (is_dictionary st).
Qed.

Lemma traverse_arguments_from_Ok sys optind args : ∀ i ctx mem ctx' mem',
  traverse_arguments_from sys optind i args ctx mem = Ok (ctx', mem') →
  seeded ctx →
  coordinator ctx' =
    coordinator ctx ++ (seed <$> directory_arguments sys optind i args)
  ∧ seeded ctx'.
Proof.
  induction args as [|arg rest IH]; intros i ctx mem ctx' mem' H Hs.
  - injection H as <- <-. by rewrite app_nil_r.
  - cbn [traverse_arguments_from] in H.
    apply bind_Ok in H as ([ctx1 mem1] & H1 & H).
    destruct (process_argument_Ok _ _ _ _ _ _ _ _ H1 Hs) as [Hc1 Hs1].
    destruct (IH _ _ _ _ _ H Hs1) as [Hc' Hs'].
    split; [|done].
    rewrite Hc', Hc1, (directory_arguments_cons _ _ _ arg rest), fmap_app.
    by rewrite <- app_assoc.
Qed.

(** The roots of a command line, as [getopt] left it: the directory
    arguments, in their order. *)
Definition roots (sys : System) (d : getopt_data) : list (string * stat) :=
  directory_arguments sys (Z.of_nat (optind d)) 1 (drop 1 (argv d)).

(** The [errno] with which the invoking thread enters [thread_handler], and
    what [getopt] wrote to stderr. *)
Definition errno_at_boot (arguments : list string) : Z :=
  (get_thread_amount_run arguments).1.2.

Definition written_at_boot (arguments : list string) : list string :=
  (get_thread_amount_run arguments).2.

Lemma create_threads_Ok n : ∀ mem mem',
  create_threads n mem = Ok mem' → mem = None → mem' = None.
Proof.
  induction n as [|n IH]; intros mem mem' H ->; cbn in H; [congruence|].
  by eapply IH.
Qed.

Lemma boot_Ok sys arguments mem p0 d :
  boot sys arguments mem = Ok (p0, d) →
  d = (get_thread_amount arguments).2
  ∧ coordinator (ctx p0) = seed <$> roots sys d
  ∧ pool p0 =
      Seeking (errno_at_boot arguments)
        :: replicate (spawned (get_thread_amount arguments).1) (Seeking 0)
  ∧ stderr p0 = written_at_boot arguments
  ∧ 0 ≤ (get_thread_amount arguments).1.
Proof.
  unfold boot, get_thread_amount, errno_at_boot, written_at_boot.
  intros H. apply bind_Ok in H as (_ & _ & H).
  destruct (get_thread_amount_run arguments) as [[[thread_num d'] e] wr].
  destruct (thread_num <? 0) eqn:Hneg; [done|]. apply Z.ltb_ge in Hneg.
  apply bind_Ok in H as ([ctx0 m0] & Hctx & H).
  apply bind_Ok in H as ([ctx1 m1] & Hseed & H).
  apply bind_Ok in H as (m2 & Hthreads & H).
  injection H as <- <-. cbn.
  unfold create_thread_context in Hctx.
  apply bind_Ok in Hctx as (? & _ & Hctx).
  apply bind_Ok in Hctx as (? & _ & Hctx). injection Hctx as <- <-.
  apply traverse_arguments_from_Ok in Hseed as [Hc _];
    [|split; cbn; unfold INT_MAX; lia].
  by rewrite Hc.
Qed.

Lemma seeking_at_boot errno k i w :
  (Seeking errno :: replicate k (Seeking 0)) !! i = Some w →
  ∃ e, w = Seeking e.
Proof.
  destruct i as [|i]; cbn; [intros [= <-]; eauto|].
  intros [-> _]%lookup_replicate. eauto.
Qed.

(** ** The steps of a worker, case by case *)

Definition put_coordinator (c : nat) (C : Coordinator) (ctx : ThreadContext)
  : ThreadContext :=
  set_coordinator (<[c := C]> (coordinator ctx)) ctx.

Definition with_queue (C : Coordinator) (q : list string) : Coordinator :=
  {| active_threads := active_threads C; tot_sum := tot_sum C;
     dir_queue := q |}.

(** The steps that leave the process running. *)
Inductive transition (sys : System) (p : Process) (i : nat)
  : Process → Prop :=
| t_acquire errno c C path rest mem' :
    pool p !! i = Some (Seeking errno) →
    coordinator (ctx p) !! c = Some C → dir_queue C = path :: rest →
    (∀ j Cj, (j < c)%nat → coordinator (ctx p) !! j = Some Cj →
             dir_queue Cj = []) →
    alloc (mem p) = Some mem' →
    transition sys p i
      {| ctx := put_coordinator c (increment_counter (with_queue C rest))
                  (ctx p);
         pool := <[i := Opening errno c path]> (pool p);
         stderr := stderr p; mem := mem' |}
| t_return errno mem' :
    pool p !! i = Some (Seeking errno) →
    Forall (λ C, active_threads C ≤ 0 ∧ dir_queue C = [])
      (coordinator (ctx p)) →
    alloc (mem p) = Some mem' →
    transition sys p i
      {| ctx := ctx p;
         pool := <[i := Returned (if negb (errno =? 0) then 1 else 0)]>
                   (pool p);
         stderr := stderr p; mem := mem' |}
| t_open_fail errno c dir_name e :
    pool p !! i = Some (Opening errno c dir_name) →
    opendir sys dir_name = inl e →
    transition sys p i
      {| ctx := ctx p; pool := <[i := Releasing (Z.pos e) c]> (pool p);
         stderr := stderr p ++
           ["du: cannot read directory '" +:+ dir_name +:+ "': "
              +:+ strerror sys (Z.pos e)];
         mem := mem p |}
| t_open errno c dir_name names :
    pool p !! i = Some (Opening errno c dir_name) →
    opendir sys dir_name = inr names →
    transition sys p i
      {| ctx := ctx p;
         pool := <[i := Reading errno c dir_name names 0]> (pool p);
         stderr := stderr p ++ []; mem := mem p |}
| t_skip errno c dir_name d_name rest sum :
    pool p !! i = Some (Reading errno c dir_name (d_name :: rest) sum) →
    is_dot_or_dot_dot d_name = true →
    transition sys p i
      {| ctx := ctx p;
         pool := <[i := Reading errno c dir_name rest sum]> (pool p);
         stderr := stderr p; mem := mem p |}
| t_file errno c dir_name d_name rest sum mem' st :
    pool p !! i = Some (Reading errno c dir_name (d_name :: rest) sum) →
    is_dot_or_dot_dot d_name = false →
    alloc (mem p) = Some mem' →
    lstat sys (snprintf_path (get_path_length d_name dir_name)
                 dir_name d_name) = Some st →
    is_dictionary st = false →
    transition sys p i
      {| ctx := ctx p;
         pool := <[i := Reading errno c dir_name rest
                           (to_int (sum + st_blocks st))]> (pool p);
         stderr := stderr p; mem := mem' |}
| t_directory errno c dir_name d_name rest sum mem1 mem2 mem3 st C :
    pool p !! i = Some (Reading errno c dir_name (d_name :: rest) sum) →
    is_dot_or_dot_dot d_name = false →
    alloc (mem p) = Some mem1 → alloc mem1 = Some mem2 →
    alloc mem2 = Some mem3 →
    lstat sys (snprintf_path (get_path_length d_name dir_name)
                 dir_name d_name) = Some st →
    is_dictionary st = true →
    coordinator (ctx p) !! c = Some C →
    transition sys p i
      {| ctx := put_coordinator c
                  (with_queue C
                     (dir_queue C ++
                        [snprintf_path (get_path_length d_name dir_name)
                           dir_name d_name])) (ctx p);
         pool := <[i := Reading errno c dir_name rest
                           (to_int (sum + st_blocks st))]> (pool p);
         stderr := stderr p; mem := mem3 |}
| t_total errno c dir_name sum :
    pool p !! i = Some (Reading errno c dir_name [] sum) →
    transition sys p i
      {| ctx := on_coordinator c (update_total_sum sum) (ctx p);
         pool := <[i := Releasing errno c]> (pool p);
         stderr := stderr p; mem := mem p |}
| t_release errno c :
    pool p !! i = Some (Releasing errno c) →
    transition sys p i
      {| ctx := on_coordinator c decrement_counter (ctx p);
         pool := <[i := Seeking errno]> (pool p);
         stderr := stderr p; mem := mem p |}.

Lemma get_non_empty_from_Some cs : ∀ k mem i path C' mem',
  get_non_empty_from cs k mem = Ok (Some (i, path, C'), mem') →
  ∃ c C rest, i = (k + c)%nat ∧ cs !! c = Some C ∧ dir_queue C = path :: rest
    ∧ (∀ j Cj, (j < c)%nat → cs !! j = Some Cj → dir_queue Cj = [])
    ∧ C' = increment_counter (with_queue C rest)
    ∧ alloc mem = Some mem'.
Proof.
  induction cs as [|C0 cs IH]; intros k mem i path C' mem' H; [done|].
  cbn [get_non_empty_from] in H.
  destruct (dir_queue C0) as [|path0 rest0] eqn:Hq; cbn in H.
  - apply IH in H as (c & C & rest & -> & Hc & HqC & Hbefore & -> & Hm).
    exists (S c), C, rest. split_and!; try done; [lia|].
    intros [|j] Cj Hj Hcj; [by injection Hcj as <-|].
    apply (Hbefore j Cj); [lia|done].
  - unfold clone_string, safe_calloc in H.
    destruct (alloc mem) as [m1|] eqn:Hm; [|done]. cbn in H.
    injection H as <- <- <- <-.
    exists 0%nat, C0, rest0. split_and!; try done; lia.
Qed.

Lemma get_non_empty_from_None cs : ∀ k mem mem',
  get_non_empty_from cs k mem = Ok (None, mem') →
  Forall (λ C, dir_queue C = []) cs.
Proof.
  induction cs as [|C0 cs IH]; intros k mem mem' H; [constructor|].
  cbn [get_non_empty_from] in H.
  destruct (dir_queue C0) as [|path0 rest0] eqn:Hq; cbn in H.
  - constructor; [done|]. by eapply IH.
  - unfold clone_string, safe_calloc in H. by destruct (alloc mem).
Qed.

Lemma get_non_empty_from_no_Exit cs : ∀ k mem s d,
  get_non_empty_from cs k mem ≠ Exit s d.
Proof.
  induction cs as [|C0 cs IH]; intros k mem s d; [done|].
  cbn [get_non_empty_from].
  destruct (dir_queue C0); cbn; [apply IH|].
  unfold clone_string, safe_calloc. by destruct (alloc mem).
Qed.

(** An outcome that, when it is an exit, is one with [EXIT_FAILURE]. *)
Definition exits_with_failure {A : Type} (r : outcome A) : Prop :=
  ∀ status diagnostic, r = Exit status diagnostic → status = EXIT_FAILURE.

Lemma exits_bind {A B : Type} (m : outcome A) (f : A → outcome B) :
  exits_with_failure m → (∀ a, exits_with_failure (f a)) →
  exits_with_failure (m ≫= f).
Proof.
  intros Hm Hf status dg. destruct m as [a|s d|]; cbn; [apply Hf| |done].
  intros [= -> ->]. by eapply Hm.
Qed.

Lemma exits_Ok {A : Type} (a : A) : exits_with_failure (Ok a).
Proof. by intros status dg. Qed.

Lemma exits_destroy {A : Type} in_use_data dg :
  exits_with_failure in_use_data →
  exits_with_failure (@destroy_and_exit A in_use_data dg).
Proof.
  intros Hu status dg'. unfold destroy_and_exit.
  destruct in_use_data as [[]|s d|]; cbn; [by intros [= <- _]| |done].
  intros [= -> ->]. by eapply Hu.
Qed.

Lemma exits_safe_malloc in_use_data mem :
  exits_with_failure in_use_data →
  exits_with_failure (safe_malloc in_use_data mem).
Proof.
  intros Hu. unfold safe_malloc. destruct (alloc mem);
    [apply exits_Ok|by apply exits_destroy].
Qed.

Lemma exits_safe_calloc in_use_data mem :
  exits_with_failure in_use_data →
  exits_with_failure (safe_calloc in_use_data mem).
Proof.
  intros Hu. unfold safe_calloc. destruct (alloc mem);
    [apply exits_Ok|by apply exits_destroy].
Qed.

Lemma exits_safe_realloc in_use_data mem :
  exits_with_failure in_use_data →
  exits_with_failure (safe_realloc in_use_data mem).
Proof.
  intros Hu. unfold safe_realloc. destruct (alloc mem);
    [apply exits_Ok|by apply exits_destroy].
Qed.

Lemma exits_safe_lstat sys path in_use_data :
  exits_with_failure in_use_data →
  exits_with_failure (safe_lstat sys path in_use_data).
Proof.
  intros Hu. unfold safe_lstat. destruct (lstat sys path);
    [apply exits_Ok|by apply exits_destroy].
Qed.

Lemma exits_Fault {A : Type} : exits_with_failure (@Fault A).
Proof. by intros status dg. Qed.

Lemma exits_clone_string mem : exits_with_failure (clone_string mem).
Proof. apply exits_safe_calloc, exits_Fault. Qed.

Lemma exits_queue_destroy q : ∀ mem, exits_with_failure (queue_destroy q mem).
Proof.
  induction q as [|value q IH]; intros mem; [apply exits_Ok|].
  cbn [queue_destroy queue_dequeue].
  apply exits_bind; [|by intros [[v q'] m]].
  apply exits_bind; [apply exits_clone_string|]. intros m. apply exits_Ok.
Qed.

Lemma exits_destroy_coordinators cs : ∀ mem,
  exits_with_failure (destroy_coordinators cs mem).
Proof.
  induction cs as [|c cs IH]; intros mem; [apply exits_Ok|].
  cbn [destroy_coordinators].
  apply exits_bind; [apply exits_queue_destroy|done].
Qed.

Lemma exits_thread_context_destroy ctx mem :
  exits_with_failure (thread_context_destroy ctx mem).
Proof.
  unfold thread_context_destroy. destruct (_ <=? _); [|apply exits_Fault].
  apply exits_bind; [apply exits_destroy_coordinators|].
  intros m. apply exits_Ok.
Qed.

Create HintDb exits.
#[local] Hint Resolve exits_Ok exits_Fault exits_safe_malloc exits_safe_calloc
  exits_safe_realloc exits_safe_lstat exits_clone_string
  exits_thread_context_destroy : exits.

Ltac exits :=
  repeat first
    [ apply exits_bind; [solve [auto with exits]|intros]
    | match goal with
      | |- exits_with_failure (let '(_, _) := ?x in _) => destruct x
      | |- exits_with_failure (if ?b then _ else _) => destruct b
      | |- exits_with_failure (match ?x with Some _ => _ | None => _ end) =>
          destruct x
      end
    | solve [auto with exits]
    | done ].

Lemma exits_queue_enqueue q value mem :
  exits_with_failure (queue_enqueue q value mem).
Proof. unfold queue_enqueue, held_queue. exits. Qed.

Lemma exits_enqueue_on c value ctx mem :
  exits_with_failure (enqueue_on c value ctx mem).
Proof.
  unfold enqueue_on. destruct (coordinator ctx !! c); [|done].
  apply exits_bind; [apply exits_queue_enqueue|]. intros [q m]. exits.
Qed.

Lemma exits_create_coordinator ctx mem :
  exits_with_failure (create_coordinator ctx mem).
Proof.
  unfold create_coordinator, create_counter, queue_create, null_context.
  apply exits_bind; [exits|]. intros m1.
  apply exits_bind; [exits|]. intros [counter m2].
  apply exits_bind; [exits|]. intros [q m3]. exits.
Qed.

Lemma exits_expand ctx mem :
  exits_with_failure (expand_and_create_coordinator ctx mem).
Proof.
  unfold expand_and_create_coordinator.
  apply exits_bind; [exits|]. intros [[cap1 size1] m1].
  apply exits_bind; [apply exits_create_coordinator|]. intros [c m2]. exits.
Qed.

Lemma exits_process_argument sys optind i arg ctx mem :
  exits_with_failure (process_argument sys optind i arg ctx mem).
Proof.
  unfold process_argument. destruct (negb (is_flag_arg optind i)); [|exits].
  apply exits_bind; [exits|]. intros st.
  destruct (is_dictionary st); [|exits].
  apply exits_bind; [apply exits_expand|]. intros [ctx1 m1].
  apply exits_bind; [apply exits_enqueue_on|]. intros [ctx2 m2]. exits.
Qed.

Lemma exits_traverse_arguments sys optind args : ∀ i ctx mem,
  exits_with_failure (traverse_arguments_from sys optind i args ctx mem).
Proof.
  induction args as [|arg rest IH]; intros i ctx mem;
    cbn [traverse_arguments_from]; [exits|].
  apply exits_bind; [apply exits_process_argument|]. intros [ctx1 m1].
  apply IH.
Qed.


Lemma exits_get_coordinator_with_work ctx mem :
  exits_with_failure (get_coordinator_with_work ctx mem).
Proof.
  intros status dg. unfold get_coordinator_with_work, get_non_empty_coordinator.
  destruct (are_threads_active ctx); [|done].
  destruct (get_non_empty_from (coordinator ctx) 0 mem)
    as [[[[[c path] C']|] mem']|s d|] eqn:Hg; cbn; try done.
  by apply get_non_empty_from_no_Exit in Hg.
Qed.

Lemma exits_process_entry sys dir_name d_name sum c ctx mem :
  exits_with_failure (process_entry sys dir_name d_name sum c ctx mem).
Proof.
  unfold process_entry, create_full_path, process_directory_entry.
  destruct (negb (is_dot_or_dot_dot d_name)); [|exits].
  apply exits_bind; [exits|]. intros [full_path m1].
  apply exits_bind; [exits|]. intros st.
  apply exits_bind; [|intros [ctx1 m2]; exits].
  destruct (is_dictionary st); [apply exits_enqueue_on|exits].
Qed.

(** What [ended_among] comes to. *)
Lemma ended_among_running {A : Type} pool i (r : outcome A) p :
  ended_among pool i r = Running p → False.
Proof.
  unfold ended_among. destruct (others_at_work pool i); [done|]. by destruct r.
Qed.

Lemma ended_among_exited {A : Type} pool i (r : outcome A) status :
  ended_among pool i r = Exited status →
  others_at_work pool i = false ∧ ∃ diagnostic, r = Exit status diagnostic.
Proof.
  unfold ended_among. destruct (others_at_work pool i); [done|].
  destruct r; cbn; try done. intros [= ->]. eauto.
Qed.

(** The failure branches of a worker's step. *)
Ltac stops :=
  unfold destroy_and_exit, held_queue, null_context;
  try destruct (thread_context_destroy _ _) as [[]| |];
  cbn [mbind outcome_bind];
  first [done | by intros [= ?%ended_among_running]].

(** Every step that leaves the process running is one of the cases. *)
Lemma worker_step_running sys p i p' :
  worker_step sys p i = Some (Running p') → transition sys p i p'.
Proof.
  unfold worker_step. destruct (pool p !! i) as [w|] eqn:Hw; [|done].
  cbn [mbind option_bind]. destruct w as [errno|errno c d|errno c d dir sum|errno c|s].
  - unfold get_coordinator_with_work, are_threads_active.
    destruct (are_threads_active_from (coordinator (ctx p))) eqn:Ha.
    + unfold get_non_empty_coordinator.
      destruct (get_non_empty_from (coordinator (ctx p)) 0 (mem p))
        as [[[[[c path] C']|] mem']| |] eqn:Hg; cbn; try stops.
      intros [= <-].
      apply get_non_empty_from_Some in Hg
        as (c0 & C & rest & -> & Hc & Hq & Hbefore & -> & Hm).
      by eapply t_acquire.
    + cbn. destruct (safe_malloc _ (mem p)) as [mem'| |] eqn:Hm; try stops.
      intros [= <-]. apply are_threads_active_false in Ha.
      refine (t_return sys p i errno mem' Hw Ha _).
      eapply safe_alloc_Ok. by left.
  - unfold safe_opendir. destruct (opendir sys d) as [e|names] eqn:Ho.
    + intros [= <-]. by eapply t_open_fail.
    + intros [= <-]. by eapply t_open.
  - destruct dir as [|d_name rest].
    + intros [= <-]. by eapply t_total.
    + unfold process_entry.
      destruct (is_dot_or_dot_dot d_name) eqn:Hdot; cbn [negb].
      { intros [= <-]. by eapply t_skip. }
      unfold create_full_path, safe_calloc.
      destruct (alloc (mem p)) as [mem1|] eqn:Hm1; [|stops].
      cbn [mbind outcome_bind]. unfold process_directory_entry, safe_lstat.
      destruct (lstat sys _) as [st|] eqn:Hst; [|stops].
      cbn [mbind outcome_bind].
      destruct (is_dictionary st) eqn:Hdir.
      * unfold enqueue_on.
        destruct (coordinator (ctx p) !! c) as [C|] eqn:HC; [|stops].
        unfold queue_enqueue, safe_malloc, clone_string, safe_calloc.
        destruct (alloc mem1) as [mem2|] eqn:Hm2; [|stops].
        cbn [mbind outcome_bind].
        destruct (alloc mem2) as [mem3|] eqn:Hm3; [|stops].
        cbn [mbind outcome_bind]. intros [= <-].
        by eapply t_directory.
      * cbn [mbind outcome_bind]. intros [= <-]. by eapply t_file.
  - intros [= <-]. by eapply t_release.
  - done.
Qed.

(** The steps that end the process end it with [EXIT_FAILURE] or a crash;
    with [EXIT_FAILURE] only when no other worker is at work. *)
Lemma worker_step_exited sys p i status :
  worker_step sys p i = Some (Exited status) →
  status = EXIT_FAILURE ∧ others_at_work (pool p) i = false.
Proof.
  unfold worker_step. destruct (pool p !! i) as [w|] eqn:Hw; [|done].
  cbn [mbind option_bind].
  destruct w as [errno|errno c d|errno c d dir sum|errno c|s]; try done.
  - destruct (get_coordinator_with_work (ctx p) (mem p))
      as [[[[c path| |] ctx'] mem']|s dg|] eqn:Hg; try done.
    + destruct (safe_malloc _ (mem p)) as [m|s dg|] eqn:Hm; try done.
      * intros [= (Ho & dg' & [= -> ->])%ended_among_exited]. split; [|done].
        eapply (exits_safe_malloc _ _ (exits_thread_context_destroy _ _)), Hm.
      * by intros [= (_ & dg' & [=])%ended_among_exited].
    + intros [= (Ho & dg' & [= -> ->])%ended_among_exited]. split; [|done].
      eapply exits_get_coordinator_with_work, Hg.
    + by intros [= (_ & dg' & [=])%ended_among_exited].
  - unfold safe_opendir. by destruct (opendir sys d).
  - destruct dir as [|d_name rest]; [done|].
    destruct (process_entry sys d d_name sum c (ctx p) (mem p))
      as [[[sum' ctx'] mem']|s dg|] eqn:He; [done| |].
    + intros [= (Ho & dg' & [= -> ->])%ended_among_exited]. split; [|done].
      eapply exits_process_entry, He.
    + by intros [= (_ & dg' & [=])%ended_among_exited].
Qed.

Lemma step_running sys p p' :
  step sys (Running p) (Running p') → ∃ i, transition sys p i p'.
Proof.
  intros (p0 & i & [= <-] & H). exists i. by apply worker_step_running.
Qed.

Lemma run_schedule_steps sys schedule : ∀ m,
  rtc (step sys) m (run_schedule sys schedule m).
Proof.
  induction schedule as [|i schedule IH]; intros m; [by destruct m|].
  destruct m as [p| |]; cbn [run_schedule]; try done.
  destruct (worker_step sys p i) as [m'|] eqn:Hs; [|apply IH].
  eapply rtc_l; [|apply IH]. by exists p, i.
Qed.

(** An invariant of the running processes holds wherever a run gets. *)
Lemma rtc_running_ind sys (P : Process → Prop) p0 p :
  P p0 →
  (∀ p i p', P p → transition sys p i p' → P p') →
  rtc (step sys) (Running p0) (Running p) → P p.
Proof.
  intros H0 Hstep Hrtc. remember (Running p0) as m0 eqn:E0.
  remember (Running p) as m eqn:E. revert p0 H0 E0 p E.
  induction Hrtc as [m|m1 m2 m3 H12 H23 IH]; intros p0 H0 -> p E.
  - by injection E as <-.
  - destruct H12 as (p1 & i & [= <-] & Hw).
    destruct m2 as [p2| |].
    + apply (IH p2); [|done|done].
      eapply Hstep; [done|]. by apply worker_step_running.
    + subst. inversion H23 as [|? ? ? (? & ? & ? & ?)]; done.
    + subst. inversion H23 as [|? ? ? (? & ? & ? & ?)]; done.
Qed.

(** ** What is still to be counted

    The path of an entry as [create_full_path] builds it. *)
Definition entry_path (dir_name d_name : string) : string :=
  snprintf_path (get_path_length d_name dir_name) dir_name d_name.

Lemma substring_all (s : string) : substring 0 (String.length s) s = s.
Proof.
  induction s as [|a s IH]; [done|].
  change (String a (substring 0 (String.length s) s) = String a s).
  by rewrite IH.
Qed.

Lemma string_length_app (s1 s2 : string) :
  String.length (s1 +:+ s2) = (String.length s1 + String.length s2)%nat.
Proof.
  induction s1 as [|a s1 IH]; [done|].
  change (S (String.length (s1 +:+ s2))
          = S (String.length s1 + String.length s2)).
  by rewrite IH.
Qed.

Lemma entry_path_exact dir_name d_name :
  strlen dir_name + strlen d_name + 2 ≤ INT_MAX →
  entry_path dir_name d_name = dir_name +:+ "/" +:+ d_name.
Proof.
  unfold entry_path, snprintf_path, get_path_length, strlen. intros Hfit.
  rewrite to_int_small by (unfold INT_MIN, INT_MAX in *; lia).
  destruct (_ <? 0) eqn:Hneg; [done|].
  replace (Z.to_nat _)
    with (String.length (dir_name +:+ "/" +:+ d_name)).
  - apply substring_all.
  - rewrite !string_length_app. cbn [String.length]. lia.
Qed.

(** [pending sys path z n]: the directory at [path] is still to be
    traversed; everything below it amounts to [z] blocks, and traversing it
    with all that is below takes [n] steps of workers. [unread] is the same
    for the entries that [readdir] has still to return in one directory. *)
Inductive pending (sys : System) : string → Z → nat → Prop :=
| pending_closed path e :
    opendir sys path = inl e → pending sys path 0 3
| pending_open path names z n :
    opendir sys path = inr names → unread sys path names z n →
    pending sys path z (4 + n)
with unread (sys : System) : string → list string → Z → nat → Prop :=
| unread_nil dir_name : unread sys dir_name [] 0 0
| unread_skip dir_name d_name rest z n :
    is_dot_or_dot_dot d_name = true →
    unread sys dir_name rest z n →
    unread sys dir_name (d_name :: rest) z (S n)
| unread_file dir_name d_name rest st z n :
    is_dot_or_dot_dot d_name = false →
    lstat sys (entry_path dir_name d_name) = Some st →
    is_dictionary st = false →
    unread sys dir_name rest z n →
    unread sys dir_name (d_name :: rest) (st_blocks st + z) (S n)
| unread_directory dir_name d_name rest st z1 n1 z n :
    is_dot_or_dot_dot d_name = false →
    lstat sys (entry_path dir_name d_name) = Some st →
    is_dictionary st = true →
    pending sys (entry_path dir_name d_name) z1 n1 →
    unread sys dir_name rest z n →
    unread sys dir_name (d_name :: rest) (st_blocks st + z1 + z) (S (n1 + n)).

(** What a worker has still to add to the total of its coordinator, directly
    or through the queue, and the steps it has still to take, its return
    included. *)
Inductive working (sys : System) : Worker → Z → nat → Prop :=
| working_seeking errno : working sys (Seeking errno) 0 1
| working_opening errno c dir_name z n :
    pending sys dir_name z n → working sys (Opening errno c dir_name) z n
| working_reading errno c dir_name rest sum z n :
    unread sys dir_name rest z n →
    working sys (Reading errno c dir_name rest sum) (sum + z) (3 + n)
| working_releasing errno c : working sys (Releasing errno c) 0 2
| working_returned status : working sys (Returned status) 0 0.

Definition worker_root (w : Worker) : option nat :=
  match w with
  | Opening _ c _ | Reading _ c _ _ _ | Releasing _ c => Some c
  | Seeking _ | Returned _ => None
  end.

(** The part of it that goes to coordinator [c]. *)
Definition working_for (sys : System) (c : nat) (w : Worker) (z : Z) (n : nat)
  : Prop :=
  n = 0%nat ∧
  if decide (worker_root w = Some c) then ∃ n', working sys w z n' else z = 0.

(** Sums over a list, of an amount and of a number of steps that a relation
    gives for each element. *)
Inductive sums {A : Type} (R : A → Z → nat → Prop)
  : list A → Z → nat → Prop :=
| sums_nil : sums R [] 0 0
| sums_cons a l z n z' n' :
    R a z n → sums R l z' n' → sums R (a :: l) (z + z') (n + n').

Lemma sums_snoc {A : Type} (R : A → Z → nat → Prop) l a z n z' n' :
  sums R l z n → R a z' n' → sums R (l ++ [a]) (z + z') (n + n').
Proof.
  induction 1 as [|a0 l z0 n0 z1 n1 Ha Hl IH]; intros HR; cbn [app].
  - pose proof (sums_cons R a [] z' n' 0 0 HR (sums_nil R)) as H.
    rewrite Z.add_0_r, Nat.add_0_r in H. by rewrite Z.add_0_l, Nat.add_0_l.
  - replace (z0 + z1 + z') with (z0 + (z1 + z')) by lia.
    replace (n0 + n1 + n')%nat with (n0 + (n1 + n'))%nat by lia.
    constructor; [done|]. by apply IH.
Qed.

(** The element at index [i] set apart from the others. *)
Lemma sums_lookup {A : Type} (R : A → Z → nat → Prop) l i a z n :
  sums R l z n → l !! i = Some a →
  ∃ za na zr nr, R a za na ∧ z = za + zr ∧ n = (na + nr)%nat
    ∧ ∀ a' za' na', R a' za' na' →
        sums R (<[i := a']> l) (za' + zr) (na' + nr).
Proof.
  intros H. revert i. induction H as [|a0 l z0 n0 z1 n1 Ha Hl IH];
    intros i Hi; [done|].
  destruct i as [|i].
  - injection Hi as ->. exists z0, n0, z1, n1. split_and!; try done.
    intros a' za' na' Ha'. cbn. by constructor.
  - destruct (IH i Hi) as (za & na & zr & nr & HR & -> & -> & Hins).
    exists za, na, (z0 + zr), (n0 + nr)%nat. split_and!; [done|lia|lia|].
    intros a' za' na' Ha'. cbn.
    replace (za' + (z0 + zr)) with (z0 + (za' + zr)) by lia.
    replace (na' + (n0 + nr))%nat with (n0 + (na' + nr))%nat by lia.
    constructor; [done|]. by apply Hins.
Qed.

Lemma sums_impl {A : Type} (R R' : A → Z → nat → Prop) l z n :
  (∀ a z n, a ∈ l → R a z n → R' a z n) → sums R l z n → sums R' l z n.
Proof.
  intros HRR' H. induction H as [|a0 l z0 n0 z1 n1 Ha Hl IH]; [constructor|].
  constructor.
  - apply HRR'; [left|done].
  - apply IH. intros a z n Hin. apply HRR'. by right.
Qed.

(** Two integers that are the same [int]. *)
Definition same_int (a b : Z) : Prop := to_int a = to_int b.

Lemma same_int_mod a b : same_int a b ↔ (a - b) mod 4294967296 = 0.
Proof.
  unfold same_int, to_int. split.
  - intros H.
    assert ((a + 2147483648) mod 4294967296 = (b + 2147483648) mod 4294967296)
      as Hm by lia.
    replace (a - b) with ((a + 2147483648) - (b + 2147483648)) by lia.
    rewrite Zminus_mod, Hm, Z.sub_diag. done.
  - intros H. f_equal.
    replace (a + 2147483648) with ((a - b) + (b + 2147483648)) by lia.
    by rewrite Zplus_mod, H, Z.add_0_l, Z.mod_mod.
Qed.

Lemma same_int_to_int a : same_int (to_int a) a.
Proof. apply to_int_idem. Qed.

Lemma same_int_shift a b k : same_int a b → same_int (a + k) (b + k).
Proof.
  rewrite !same_int_mod. by replace (a + k - (b + k)) with (a - b) by lia.
Qed.

Lemma same_int_trans a b c : same_int a b → same_int b c → same_int a c.
Proof. unfold same_int. congruence. Qed.

Lemma to_int_multiple e : ∃ k, to_int e = e + k * 4294967296.
Proof.
  exists (- ((e + 2147483648) / 4294967296)). unfold to_int.
  pose proof (Z.div_mod (e + 2147483648) 4294967296). lia.
Qed.

Lemma same_int_multiple a b k :
  same_int a b → same_int (a + k * 4294967296) b.
Proof.
  rewrite !same_int_mod.
  replace (a + k * 4294967296 - b) with (a - b + k * 4294967296) by lia.
  by rewrite Z_mod_plus_full.
Qed.

Lemma sums_cons_inv {A : Type} (R : A → Z → nat → Prop) a l z n :
  sums R (a :: l) z n →
  ∃ z1 n1 z2 n2, R a z1 n1 ∧ sums R l z2 n2 ∧ z = z1 + z2
                 ∧ n = (n1 + n2)%nat.
Proof. inversion 1; subst. by eexists _, _, _, _. Qed.

(** ** The counters count the workers at work *)

(** The workers of a pool that are at work for coordinator [c]. *)
Fixpoint in_flight (c : nat) (pool : list Worker) : nat :=
  match pool with
  | [] => 0
  | w :: pool' =>
      (if decide (worker_root w = Some c) then 1 else 0) + in_flight c pool'
  end.

Lemma in_flight_insert c pool i w w' :
  pool !! i = Some w →
  (in_flight c (<[i := w']> pool)
     + (if decide (worker_root w = Some c) then 1 else 0))%nat =
  (in_flight c pool
     + (if decide (worker_root w' = Some c) then 1 else 0))%nat.
Proof.
  revert i. induction pool as [|w0 pool IH]; intros i Hi; [done|].
  destruct i as [|i].
  - injection Hi as ->. change (<[0%nat := w']> (w :: pool)) with (w' :: pool).
    cbn [in_flight]. lia.
  - change (<[S i := w']> (w0 :: pool)) with (w0 :: <[i := w']> pool).
    cbn [in_flight]. specialize (IH i Hi). lia.
Qed.

Lemma in_flight_lt c pool i w :
  pool !! i = Some w → worker_root w ≠ Some c →
  (in_flight c pool < length pool)%nat.
Proof.
  revert i. induction pool as [|w0 pool IH]; intros i Hi Hw; [done|].
  cbn [in_flight length]. destruct i as [|i].
  - injection Hi as ->. rewrite decide_False by done.
    clear IH. induction pool as [|w1 pool IH]; [cbn; lia|].
    cbn [in_flight length]. case_decide; lia.
  - specialize (IH i Hi Hw). case_decide; lia.
Qed.

Lemma in_flight_pos c pool i w :
  pool !! i = Some w → worker_root w = Some c → (0 < in_flight c pool)%nat.
Proof.
  revert i. induction pool as [|w0 pool IH]; intros i Hi Hw; [done|].
  cbn [in_flight]. destruct i as [|i].
  - injection Hi as ->. rewrite decide_True by done. lia.
  - specialize (IH i Hi Hw). lia.
Qed.

Lemma in_flight_none c pool :
  in_flight c pool = 0%nat ↔ Forall (λ w, worker_root w ≠ Some c) pool.
Proof.
  induction pool as [|w0 pool IH].
  - split; [constructor|done].
  - cbn [in_flight]. rewrite Forall_cons. case_decide.
    + split; [lia|]. by intros [? _].
    + rewrite <- IH. split; [intros; split; [done|lia]|intros [_ ?]; lia].
Qed.

(** Each counter is the number of the workers at work for its coordinator,
    every worker at work is at work for a coordinator of the context, and the
    workers are no more than an [int] counts. *)
Record counted (p : Process) : Prop := MkCounted {
  counted_active : ∀ c C,
    coordinator (ctx p) !! c = Some C →
    active_threads C = Z.of_nat (in_flight c (pool p));
  counted_valid : ∀ i w c,
    pool p !! i = Some w → worker_root w = Some c →
    is_Some (coordinator (ctx p) !! c);
  counted_pool : Z.of_nat (length (pool p)) ≤ INT_MAX
}.

Lemma lookup_put_coordinator c X ctx c' C' :
  coordinator (put_coordinator c X ctx) !! c' = Some C' →
  (c' = c ∧ C' = X) ∨ (c' ≠ c ∧ coordinator ctx !! c' = Some C').
Proof.
  unfold put_coordinator, set_coordinator. cbn [coordinator].
  intros [[-> [<- _]]|[? ?]]%list_lookup_insert_Some; [by left|by right].
Qed.

Lemma lookup_on_coordinator c f ctx c' C' :
  coordinator (on_coordinator c f ctx) !! c' = Some C' →
  (c' = c ∧ ∃ C, coordinator ctx !! c = Some C ∧ C' = f C)
  ∨ (c' ≠ c ∧ coordinator ctx !! c' = Some C').
Proof.
  unfold on_coordinator, set_coordinator. cbn [coordinator].
  destruct (decide (c = c')) as [->|Hne].
  - rewrite list_lookup_alter_eq.
    destruct (coordinator ctx !! c') as [C|]; [|done].
    intros [= <-]. left. eauto.
  - rewrite list_lookup_alter_ne by done. right. eauto.
Qed.

Lemma is_Some_put_coordinator c X ctx c' :
  is_Some (coordinator ctx !! c') →
  is_Some (coordinator (put_coordinator c X ctx) !! c').
Proof.
  unfold put_coordinator, set_coordinator. cbn [coordinator].
  rewrite !lookup_lt_is_Some, length_insert. done.
Qed.

Lemma is_Some_on_coordinator c f ctx c' :
  is_Some (coordinator ctx !! c') →
  is_Some (coordinator (on_coordinator c f ctx) !! c').
Proof.
  unfold on_coordinator, set_coordinator. cbn [coordinator].
  rewrite !lookup_lt_is_Some, length_alter. done.
Qed.

Lemma lookup_pool_insert (pool : list Worker) i w' j w :
  <[i := w']> pool !! j = Some w →
  (j = i ∧ w = w') ∨ (j ≠ i ∧ pool !! j = Some w).
Proof.
  intros [[-> [<- _]]|[? ?]]%list_lookup_insert_Some; [by left|by right].
Qed.

Ltac flight c Hw :=
  match goal with
  | |- context [in_flight _ (<[_ := ?w']> _)] =>
      let Hif := fresh "Hif" in
      pose proof (in_flight_insert c _ _ _ w' Hw) as Hif;
      cbn [worker_root] in Hif
  end.

Lemma counted_transition sys p i p' :
  counted p → transition sys p i p' → counted p'.
Proof.
  intros [Hact Hval Hpool] Ht.
  destruct Ht as
    [errno c C path rest mem' Hw HC Hq Hbefore Hm
    |errno mem' Hw Hidle Hm
    |errno c dir_name e Hw Ho
    |errno c dir_name names Hw Ho
    |errno c dir_name d_name rest sum Hw Hdot
    |errno c dir_name d_name rest sum mem' st Hw Hdot Hm Hst Hdir
    |errno c dir_name d_name rest sum mem1 mem2 mem3 st C Hw Hdot Hm1 Hm2 Hm3 Hst Hdir HC
    |errno c dir_name sum Hw
    |errno c Hw];
    (split; cbn [ctx pool];
     [ intros c' C' HC'
     | intros j w c' Hj Hroot;
       first [apply is_Some_put_coordinator | apply is_Some_on_coordinator
             | idtac];
       apply lookup_pool_insert in Hj as [[-> ->]|[Hne Hj]];
       [|by eapply Hval];
       cbn [worker_root] in Hroot; try done;
       try (injection Hroot as <-; first [by eapply Hval | by eexists])
     | by rewrite length_insert ]).
  all: flight c' Hw.
  - (* acquire *)
    apply lookup_put_coordinator in HC' as [[-> ->]|[Hne HC']].
    + cbn [increment_counter with_queue active_threads].
      rewrite (Hact _ _ HC). rewrite decide_False, decide_True in Hif by done.
      pose proof (in_flight_lt c _ _ _ Hw ltac:(done)).
      rewrite to_int_small by (unfold INT_MIN, INT_MAX in *; lia). lia.
    + rewrite (Hact _ _ HC'). rewrite !decide_False in Hif by congruence. lia.
  - rewrite (Hact _ _ HC'). rewrite !decide_False in Hif by done. lia.
  - rewrite (Hact _ _ HC'). f_equal.
    destruct (decide (c = c')) as [->|Hne];
      [rewrite !decide_True in Hif by done
      |rewrite !decide_False in Hif by congruence]; lia.
  - rewrite (Hact _ _ HC'). f_equal.
    destruct (decide (c = c')) as [->|Hne];
      [rewrite !decide_True in Hif by done
      |rewrite !decide_False in Hif by congruence]; lia.
  - rewrite (Hact _ _ HC'). f_equal.
    destruct (decide (c = c')) as [->|Hne];
      [rewrite !decide_True in Hif by done
      |rewrite !decide_False in Hif by congruence]; lia.
  - rewrite (Hact _ _ HC'). f_equal.
    destruct (decide (c = c')) as [->|Hne];
      [rewrite !decide_True in Hif by done
      |rewrite !decide_False in Hif by congruence]; lia.
  - (* directory *)
    apply lookup_put_coordinator in HC' as [[-> ->]|[Hne HC']].
    + cbn [with_queue active_threads]. rewrite (Hact _ _ HC).
      rewrite !decide_True in Hif by done. lia.
    + rewrite (Hact _ _ HC'). rewrite !decide_False in Hif by congruence. lia.
  - (* total *)
    apply lookup_on_coordinator in HC' as [[-> (C & HC & ->)]|[Hne HC']].
    + cbn [update_total_sum active_threads]. rewrite (Hact _ _ HC).
      rewrite !decide_True in Hif by done. lia.
    + rewrite (Hact _ _ HC'). rewrite !decide_False in Hif by congruence. lia.
  - (* release *)
    apply lookup_on_coordinator in HC' as [[-> (C & HC & ->)]|[Hne HC']].
    + cbn [decrement_counter active_threads]. rewrite (Hact _ _ HC).
      rewrite decide_True, decide_False in Hif by done.
      pose proof (in_flight_pos c _ _ _ Hw eq_refl).
      destruct (0 <? _) eqn:Hpos; [lia|]. apply Z.ltb_ge in Hpos. lia.
    + rewrite (Hact _ _ HC'). rewrite !decide_False in Hif by congruence. lia.
Qed.

(** ** Once a worker has returned, nothing is left to do *)

Definition at_rest (C : Coordinator) : Prop :=
  active_threads C ≤ 0 ∧ dir_queue C = [].

Definition settled (p : Process) : Prop :=
  (∃ j status, pool p !! j = Some (Returned status)) →
  Forall at_rest (coordinator (ctx p)).

Lemma at_work_not_at_rest p i w c :
  counted p → pool p !! i = Some w → worker_root w = Some c →
  Forall at_rest (coordinator (ctx p)) → False.
Proof.
  intros Hc Hw Hroot Hrest.
  destruct (counted_valid _ Hc _ _ _ Hw Hroot) as [C HC].
  rewrite Forall_forall in Hrest.
  destruct (Hrest C (list_elem_of_lookup_2 _ _ _ HC)) as [Hle _].
  rewrite (counted_active _ Hc _ _ HC) in Hle.
  pose proof (in_flight_pos _ _ _ _ Hw Hroot). lia.
Qed.

Lemma settled_transition sys p i p' :
  counted p → settled p → transition sys p i p' → settled p'.
Proof.
  intros Hc Hs Ht (j & status & Hj).
  destruct Ht as
    [errno c C path rest mem' Hw HC Hq Hbefore Hm
    |errno mem' Hw Hidle Hm
    |errno c dir_name e Hw Ho
    |errno c dir_name names Hw Ho
    |errno c dir_name d_name rest sum Hw Hdot
    |errno c dir_name d_name rest sum mem' st Hw Hdot Hm Hst Hdir
    |errno c dir_name d_name rest sum mem1 mem2 mem3 st C Hw Hdot Hm1 Hm2 Hm3 Hst Hdir HC
    |errno c dir_name sum Hw
    |errno c Hw];
    cbn [ctx pool] in *; try done;
    (apply lookup_pool_insert in Hj as [[-> ?]|[Hne Hj]]; [done|]);
    (assert (Hrest : Forall at_rest (coordinator (ctx p)))
       by (apply Hs; eauto));
    exfalso.
  - rewrite Forall_forall in Hrest.
    destruct (Hrest C (list_elem_of_lookup_2 _ _ _ HC)) as [_ Hnil].
    congruence.
  - by eapply (at_work_not_at_rest p i); eauto.
  - by eapply (at_work_not_at_rest p i); eauto.
  - by eapply (at_work_not_at_rest p i); eauto.
  - by eapply (at_work_not_at_rest p i); eauto.
  - by eapply (at_work_not_at_rest p i); eauto.
  - by eapply (at_work_not_at_rest p i); eauto.
  - by eapply (at_work_not_at_rest p i); eauto.
Qed.

(** ** Every block is counted once *)

(** For the coordinator [c]: its total, what its queue holds and what the
    workers at work for it have still to add make up, as an [int], [T]. *)
Definition accounted (sys : System) (c : nat) (T : Z) (p : Process) : Prop :=
  ∃ C zq nq zw nw,
    coordinator (ctx p) !! c = Some C
    ∧ sums (pending sys) (dir_queue C) zq nq
    ∧ sums (working_for sys c) (pool p) zw nw
    ∧ same_int (tot_sum C + zq + zw) T.

Lemma working_for_other sys c w :
  worker_root w ≠ Some c → working_for sys c w 0 0.
Proof. intros H. split; [done|]. by rewrite decide_False. Qed.

Lemma working_for_own sys c w z n :
  worker_root w = Some c → working sys w z n → working_for sys c w z 0.
Proof. intros H Hw. split; [done|]. rewrite decide_True by done. eauto. Qed.

Lemma working_for_inv sys c w z n :
  working_for sys c w z n →
  (worker_root w = Some c ∧ ∃ n', working sys w z n')
  ∨ (worker_root w ≠ Some c ∧ z = 0).
Proof. intros [_ H]. case_decide; [left|right]; done. Qed.

Ltac own_or_other Hwa c0 c :=
  destruct (decide (c0 = c)) as [->|Hne];
  [ apply working_for_inv in Hwa as [[_ [n' Hwa]]|[Hwa _]]; [|done];
    inversion Hwa; subst; clear Hwa
  | apply working_for_inv in Hwa as [[Hwa _]|[_ ->]];
    [cbn [worker_root] in Hwa; congruence|] ].

Lemma accounted_transition sys c T p i p' :
  accounted sys c T p → transition sys p i p' → accounted sys c T p'.
Proof.
  intros (C & zq & nq & zw & nw & HC & Hq & Hw & Hsum) Ht.
  unfold accounted.
  destruct Ht as
    [errno c0 C0 path rest mem' Hwi HC0 Hq0 Hbefore Hm
    |errno mem' Hwi Hidle Hm
    |errno c0 dir_name e Hwi Ho
    |errno c0 dir_name names Hwi Ho
    |errno c0 dir_name d_name rest sum Hwi Hdot
    |errno c0 dir_name d_name rest sum mem' st Hwi Hdot Hm Hst Hdir
    |errno c0 dir_name d_name rest sum mem1 mem2 mem3 st C0 Hwi Hdot Hm1 Hm2 Hm3 Hst Hdir HC0
    |errno c0 dir_name sum Hwi
    |errno c0 Hwi];
    cbn [ctx pool];
    destruct (sums_lookup _ _ _ _ _ _ Hw Hwi)
      as (za & na & zr & nr & Hwa & -> & -> & Hins).
  - (* acquire *)
    apply working_for_inv in Hwa as [[Hwa _]|[_ ->]]; [done|].
    destruct (decide (c0 = c)) as [->|Hne].
    + assert (C0 = C) as -> by congruence. rewrite Hq0 in Hq.
      apply sums_cons_inv in Hq as (z1 & n1 & z2 & n2 & Hp & Hrest & -> & ->).
      eexists _, z2, n2, (z1 + zr), _. split_and!.
      * unfold put_coordinator, set_coordinator. cbn [coordinator].
        apply list_lookup_insert_eq. by eapply lookup_lt_Some.
      * done.
      * apply Hins. eapply working_for_own; [done|]. by constructor.
      * cbn. by replace (tot_sum C + z2 + (z1 + zr))
          with (tot_sum C + (z1 + z2) + (0 + zr)) by lia.
    + eexists C, zq, nq, (0 + zr), _. split_and!; try done.
      * unfold put_coordinator, set_coordinator. cbn [coordinator].
        by rewrite list_lookup_insert_ne.
      * apply Hins. apply working_for_other. cbn. congruence.
  - (* return *)
    apply working_for_inv in Hwa as [[Hwa _]|[_ ->]]; [done|].
    eexists C, zq, nq, (0 + zr), _. split_and!; try done.
    apply Hins. by apply working_for_other.
  - (* opendir fails *)
    own_or_other Hwa c0 c.
    + match goal with H : pending _ _ _ _ |- _ => inversion H; subst end;
        [|congruence].
      eexists C, zq, nq, (0 + zr), _. split_and!; try done.
      apply Hins. eapply working_for_own; [done|]. constructor.
    + eexists C, zq, nq, (0 + zr), _. split_and!; try done.
      apply Hins. apply working_for_other. cbn. congruence.
  - (* opendir *)
    own_or_other Hwa c0 c.
    + match goal with H : pending _ _ _ _ |- _ => inversion H; subst end;
        [congruence|].
      assert (names0 = names) as -> by congruence.
      eexists C, zq, nq, ((0 + za) + zr), _. split_and!; try done.
      apply Hins. eapply working_for_own; [done|]. by constructor.
    + eexists C, zq, nq, (0 + zr), _. split_and!; try done.
      apply Hins. apply working_for_other. cbn. congruence.
  - (* "." or ".." *)
    own_or_other Hwa c0 c.
    + match goal with H : unread _ _ _ _ _ |- _ => inversion H; subst end;
        try congruence.
      eexists C, zq, nq, ((sum + z) + zr), _. split_and!; try done.
      apply Hins. eapply working_for_own; [done|]. by constructor.
    + eexists C, zq, nq, (0 + zr), _. split_and!; try done.
      apply Hins. apply working_for_other. cbn. congruence.
  - (* an entry that is no directory *)
    own_or_other Hwa c0 c.
    + match goal with H : unread _ _ _ _ _ |- _ => inversion H; subst end;
        unfold entry_path in *; try congruence.
      assert (st0 = st) as -> by congruence.
      eexists C, zq, nq, ((to_int (sum + st_blocks st) + z0) + zr), _.
      split_and!; try done.
      * apply Hins. eapply working_for_own; [done|]. by constructor.
      * destruct (to_int_multiple (sum + st_blocks st)) as [k ->].
        replace (tot_sum C + zq + (sum + st_blocks st + k * 4294967296 + z0 + zr))
          with (tot_sum C + zq + (sum + (st_blocks st + z0) + zr)
                + k * 4294967296) by lia.
        by apply same_int_multiple.
    + eexists C, zq, nq, (0 + zr), _. split_and!; try done.
      apply Hins. apply working_for_other. cbn. congruence.
  - (* an entry that is a directory *)
    own_or_other Hwa c0 c.
    + assert (C0 = C) as -> by congruence.
      match goal with H : unread _ _ _ _ _ |- _ => inversion H; subst end;
        unfold entry_path in *; try congruence.
      assert (st0 = st) as -> by congruence.
      eexists _, (zq + z1), _, ((to_int (sum + st_blocks st) + z0) + zr), _.
      split_and!.
      * unfold put_coordinator, set_coordinator. cbn [coordinator].
        apply list_lookup_insert_eq. by eapply lookup_lt_Some.
      * cbn [with_queue dir_queue]. by eapply sums_snoc.
      * apply Hins. eapply working_for_own; [done|]. by constructor.
      * cbn [with_queue tot_sum].
        destruct (to_int_multiple (sum + st_blocks st)) as [k ->].
        replace (tot_sum C + (zq + z1)
                 + (sum + st_blocks st + k * 4294967296 + z0 + zr))
          with (tot_sum C + zq + (sum + (st_blocks st + z1 + z0) + zr)
                + k * 4294967296) by lia.
        by apply same_int_multiple.
    + eexists C, zq, nq, (0 + zr), _. split_and!; try done.
      * unfold put_coordinator, set_coordinator. cbn [coordinator].
        by rewrite list_lookup_insert_ne.
      * apply Hins. apply working_for_other. cbn. congruence.
  - (* the sum of a directory goes to the total *)
    own_or_other Hwa c0 c.
    + match goal with H : unread _ _ _ _ _ |- _ => inversion H; subst end.
      eexists _, zq, nq, (0 + zr), _. split_and!.
      * unfold on_coordinator, set_coordinator. cbn [coordinator].
        by rewrite list_lookup_alter_eq, HC.
      * done.
      * apply Hins. eapply working_for_own; [done|]. constructor.
      * cbn [update_total_sum tot_sum].
        destruct (to_int_multiple (tot_sum C + sum)) as [k ->].
        replace (tot_sum C + sum + k * 4294967296 + zq + (0 + zr))
          with (tot_sum C + zq + (sum + 0 + zr) + k * 4294967296) by lia.
        by apply same_int_multiple.
    + eexists C, zq, nq, (0 + zr), _. split_and!; try done.
      * unfold on_coordinator, set_coordinator. cbn [coordinator].
        by rewrite list_lookup_alter_ne.
      * apply Hins. apply working_for_other. cbn. congruence.
  - (* release *)
    destruct (decide (c0 = c)) as [->|Hne].
    + apply working_for_inv in Hwa as [[_ [n' Hwa]]|[Hwa _]]; [|done].
      inversion Hwa; subst.
      eexists _, zq, nq, (0 + zr), _. split_and!.
      * unfold on_coordinator, set_coordinator. cbn [coordinator].
        by rewrite list_lookup_alter_eq, HC.
      * done.
      * apply Hins. by apply working_for_other.
      * done.
    + apply working_for_inv in Hwa as [[Hwa _]|[_ ->]];
        [cbn in Hwa; congruence|].
      eexists C, zq, nq, (0 + zr), _. split_and!; try done.
      * unfold on_coordinator, set_coordinator. cbn [coordinator].
        by rewrite list_lookup_alter_ne.
      * apply Hins. by apply working_for_other.
Qed.

(** ** Trees and what is still to be counted below them *)

Definition is_directory_tree (t : fstree) : Prop :=
  match t with Leaf _ => False | Closed _ | Open _ _ _ => True end.

(** The blocks of the entries below the root of a tree. *)
Definition below (t : fstree) : Z := tree_blocks t - st_blocks (root_stat t).

Definition fits (dir_name d_name : string) : Prop :=
  strlen dir_name + strlen d_name + 2 ≤ INT_MAX.

Fixpoint fstree_all_ind (P : fstree → Prop)
  (HLeaf : ∀ st, P (Leaf st)) (HClosed : ∀ st, P (Closed st))
  (HOpen : ∀ st names kids, Forall P kids → P (Open st names kids))
  (t : fstree) {struct t} : P t :=
  match t with
  | Leaf st => HLeaf st
  | Closed st => HClosed st
  | Open st names kids =>
      HOpen st names kids
        ((fix all (ks : list fstree) : Forall P ks :=
            match ks with
            | [] => @List.Forall_nil _ P
            | k :: ks' =>
                @List.Forall_cons _ P k ks'
                  (fstree_all_ind P HLeaf HClosed HOpen k) (all ks')
            end) kids)
  end.

Lemma presents_open sys path st names kids :
  presents sys path (Open st names kids) ↔
  lstat sys path = Some st ∧ is_dictionary st = true
  ∧ opendir sys path = inr names
  ∧ Forall (fits path) names
  ∧ Forall2 (λ k n, presents sys (path +:+ "/" +:+ n) k)
      kids (entry_names names).
Proof.
  cbn [presents]. unfold fits.
  enough (∀ ks ns,
    (fix each (ks : list fstree) (ns : list string) {struct ks} : Prop :=
       match ks, ns with
       | [], [] => True
       | k :: ks', n :: ns' =>
           presents sys (path +:+ "/" +:+ n) k ∧ each ks' ns'
       | _, _ => False
       end) ks ns
    ↔ Forall2 (λ k n, presents sys (path +:+ "/" +:+ n) k) ks ns) as H
    by (rewrite H; tauto).
  induction ks as [|k ks IH]; intros [|n ns].
  - split; [constructor|done].
  - split; [done|]. inversion 1.
  - split; [done|]. inversion 1.
  - rewrite IH. split.
    + intros [? ?]. by constructor.
    + inversion 1; by subst.
Qed.

Lemma presents_lstat sys path t :
  presents sys path t →
  lstat sys path = Some (root_stat t)
  ∧ (is_dictionary (root_stat t) = true ↔ is_directory_tree t).
Proof.
  destruct t as [st|st|st names kids]; cbn [presents root_stat is_directory_tree].
  - intros [? ->]. split; [done|]. split; [done|tauto].
  - intros (? & -> & _). tauto.
  - intros (? & -> & _). tauto.
Qed.

Lemma entry_names_cons n names :
  entry_names (n :: names) =
  if is_dot_or_dot_dot n then entry_names names else n :: entry_names names.
Proof.
  unfold entry_names. rewrite filter_cons.
  destruct (is_dot_or_dot_dot n); by case_decide.
Qed.

Lemma presents_pending sys t : ∀ path,
  presents sys path t → is_directory_tree t →
  ∃ n, pending sys path (below t) n.
Proof.
  induction t as [st|st|st names kids IH] using fstree_all_ind;
    intros path Hp Hd; [done| |].
  - destruct Hp as (_ & _ & e & He). exists 3%nat.
    unfold below. cbn. rewrite Z.sub_diag. by eapply pending_closed.
  - apply presents_open in Hp as (_ & _ & Ho & Hfit & Hkids).
    enough (∃ n, unread sys path names
                   (foldr (λ k acc, tree_blocks k + acc) 0 kids) n)
      as [n Hn].
    { exists (4 + n)%nat. unfold below. cbn [tree_blocks root_stat].
      replace (st_blocks st + _ - st_blocks st)
        with (foldr (λ k acc, tree_blocks k + acc) 0 kids) by lia.
      by eapply pending_open. }
    clear Ho Hd. revert kids IH Hkids.
    induction Hfit as [|n names Hn Hfit IHnames]; intros kids IH Hkids.
    + inversion Hkids; subst. exists 0%nat. constructor.
    + rewrite entry_names_cons in Hkids.
      destruct (is_dot_or_dot_dot n) eqn:Hdot.
      * destruct (IHnames kids IH Hkids) as [m Hm].
        exists (S m). by constructor.
      * inversion Hkids as [|k n' kids' ns' Hk Hkids' E1 E2]; subst.
        apply Forall_cons in IH as [IHk IH].
        destruct (IHnames kids' IH Hkids') as [m Hm].
        apply presents_lstat in Hk as Hl. destruct Hl as [Hl Hkind].
        rewrite <- (entry_path_exact path n Hn) in Hl.
        cbn [foldr].
        destruct (is_dictionary (root_stat k)) eqn:Hdir.
        -- destruct (IHk _ Hk) as [n1 Hn1]; [by apply Hkind|].
           rewrite <- (entry_path_exact path n Hn) in Hn1.
           exists (S (n1 + m)).
           replace (tree_blocks k + _)
             with (st_blocks (root_stat k) + below k
                   + foldr (λ k acc, tree_blocks k + acc) 0 kids')
             by (unfold below; lia).
           by eapply unread_directory.
        -- exists (S m).
           assert (tree_blocks k = st_blocks (root_stat k)) as ->.
           { destruct k; [done| |]; exfalso;
               (assert (false = true) by (by apply Hkind); done). }
           by eapply unread_file.
Qed.

Lemma elem_of_directory_arguments sys optind args : ∀ i a st,
  (a, st) ∈ directory_arguments sys optind i args →
  lstat sys a = Some st ∧ is_dictionary st = true.
Proof.
  induction args as [|arg rest IH]; intros i a st; cbn [directory_arguments].
  - by intros ?%elem_of_nil.
  - destruct (is_flag_arg optind i); [apply IH|].
    destruct (lstat sys arg) as [st0|] eqn:Hl; [|apply IH].
    destruct (is_dictionary st0) eqn:Hd; [|apply IH].
    intros [[= -> ->]|Hin]%elem_of_cons; [done|]. by eapply IH.
Qed.

Lemma sums_zero {A : Type} (R : A → Z → nat → Prop) l :
  Forall (λ a, R a 0 0%nat) l → sums R l 0 0.
Proof.
  induction 1 as [|a l Ha _ IH]; [constructor|].
  change 0 with (0 + 0). change 0%nat with (0 + 0)%nat.
  by constructor.
Qed.

Lemma sums_at_boot {A : Type} (R : Worker → Z → nat → Prop) errno k :
  (∀ e, R (Seeking e) 0 0%nat) →
  sums R (Seeking errno :: replicate k (Seeking 0)) 0 0.
Proof.
  intros HR. apply sums_zero. constructor; [done|]. by apply Forall_replicate.
Qed.

(** Where [main] starts the workers, every block of the tree under a root is
    in the total of its coordinator or still to be counted. *)
Lemma accounted_boot sys arguments mem p0 d c a st t :
  boot sys arguments mem = Ok (p0, d) →
  roots sys d !! c = Some (a, st) → presents sys a t →
  accounted sys c (tree_blocks t) p0.
Proof.
  intros (_ & Hc & Hpool & _)%boot_Ok Hroot Hp.
  apply list_elem_of_lookup_2 in Hroot as Hin.
  apply elem_of_directory_arguments in Hin as [Hl Hd].
  destruct (presents_lstat _ _ _ Hp) as [Hl' Hkind].
  assert (root_stat t = st) as Hst by congruence.
  destruct (presents_pending _ _ _ Hp) as [n Hn];
    [apply Hkind; by rewrite Hst|].
  exists (seed (a, st)), (below t + 0), (n + 0)%nat, 0, 0%nat. split_and!.
  - by rewrite Hc, list_lookup_fmap, Hroot.
  - cbn [seed dir_queue fst]. repeat constructor. done.
  - rewrite Hpool. apply (sums_at_boot (A := Worker)). intros e.
    by apply working_for_other.
  - cbn [seed tot_sum snd]. unfold below. rewrite Hst.
    destruct (to_int_multiple (st_blocks st)) as [k ->].
    replace (st_blocks st + k * 4294967296 +
             (tree_blocks t - st_blocks st + 0) + 0)
      with (tree_blocks t + k * 4294967296) by lia.
    by apply same_int_multiple.
Qed.

Lemma sums_returned sys c pool z n :
  Forall (λ w, is_returned w = true) pool →
  sums (working_for sys c) pool z n → z = 0.
Proof.
  intros Hall Hs. induction Hs as [|w pool z0 n0 z1 n1 Hw Hs IH]; [done|].
  apply Forall_cons in Hall as [Hr Hall]. rewrite (IH Hall).
  destruct w; try done. apply working_for_inv in Hw as [[? _]|[_ ->]]; done.
Qed.

(** The totals are [int]s. *)
Definition totals_in_range (p : Process) : Prop :=
  Forall (λ C, INT_MIN ≤ tot_sum C ≤ INT_MAX) (coordinator (ctx p)).

Lemma totals_in_range_transition sys p i p' :
  totals_in_range p → transition sys p i p' → totals_in_range p'.
Proof.
  unfold totals_in_range. rewrite !Forall_forall.
  intros H Ht C' [c' HC']%list_elem_of_lookup_1.
  destruct Ht; cbn [ctx] in HC';
    try (apply H; by eapply list_elem_of_lookup_2).
  - apply lookup_put_coordinator in HC' as [[-> ->]|[Hne HC']];
      [|apply H; by eapply list_elem_of_lookup_2].
    cbn. apply H. by eapply list_elem_of_lookup_2.
  - apply lookup_put_coordinator in HC' as [[-> ->]|[Hne HC']];
      [|apply H; by eapply list_elem_of_lookup_2].
    cbn. apply H. by eapply list_elem_of_lookup_2.
  - apply lookup_on_coordinator in HC' as [[-> (C0 & HC0 & ->)]|[Hne HC']];
      [|apply H; by eapply list_elem_of_lookup_2].
    cbn. apply to_int_range.
  - apply lookup_on_coordinator in HC' as [[-> (C0 & HC0 & ->)]|[Hne HC']];
      [|apply H; by eapply list_elem_of_lookup_2].
    cbn. apply H. by eapply list_elem_of_lookup_2.
Qed.

(** ** Every run ends *)

Definition queued (sys : System) (C : Coordinator) (z : Z) (n : nat) : Prop :=
  sums (pending sys) (dir_queue C) z n.

(** [N] steps are left to the workers: those for the queues and those the
    workers have begun. *)
Definition cost (sys : System) (p : Process) (N : nat) : Prop :=
  ∃ zq nq zw nw,
    sums (queued sys) (coordinator (ctx p)) zq nq
    ∧ sums (working sys) (pool p) zw nw
    ∧ N = (nq + nw)%nat.

Lemma sums_alter_queue sys f c cs z n :
  (∀ C, dir_queue (f C) = dir_queue C) →
  sums (queued sys) cs z n → sums (queued sys) (alter f c cs) z n.
Proof.
  intros Hf H. revert c. induction H as [|C cs z0 n0 z1 n1 HC Hcs IH];
    intros c; [constructor|].
  destruct c as [|c].
  - change (alter f 0%nat (C :: cs)) with (f C :: cs).
    constructor; [|done]. unfold queued in *. by rewrite Hf.
  - change (alter f (S c) (C :: cs)) with (C :: alter f c cs).
    constructor; [done|apply IH].
Qed.

Lemma cost_transition sys p i p' N :
  cost sys p N → transition sys p i p' → ∃ N', cost sys p' N' ∧ N = S N'.
Proof.
  intros (zq & nq & zw & nw & Hq & Hw & ->) Ht. unfold cost.
  destruct Ht as
    [errno c0 C0 path rest mem' Hwi HC0 Hq0 Hbefore Hm
    |errno mem' Hwi Hidle Hm
    |errno c0 dir_name e Hwi Ho
    |errno c0 dir_name names Hwi Ho
    |errno c0 dir_name d_name rest sum Hwi Hdot
    |errno c0 dir_name d_name rest sum mem' st Hwi Hdot Hm Hst Hdir
    |errno c0 dir_name d_name rest sum mem1 mem2 mem3 st C0 Hwi Hdot Hm1 Hm2 Hm3 Hst Hdir HC0
    |errno c0 dir_name sum Hwi
    |errno c0 Hwi];
    cbn [ctx pool];
    destruct (sums_lookup _ _ _ _ _ _ Hw Hwi)
      as (za & na & zr & nr & Hwa & -> & -> & Hins);
    inversion Hwa; subst; clear Hwa.
  - (* acquire *)
    destruct (sums_lookup _ _ _ _ _ _ Hq HC0)
      as (zc & nc & zs & ns & HC & -> & -> & Hput).
    unfold queued in HC. rewrite Hq0 in HC.
    apply sums_cons_inv in HC as (z1 & n1 & z2 & n2 & Hp & Hrest & -> & ->).
    eexists. split.
    + eexists _, _, _, _. split_and!; [|apply Hins|done].
      * unfold put_coordinator, set_coordinator. cbn [coordinator].
        apply Hput. exact Hrest.
      * constructor. exact Hp.
    + lia.
  - eexists. split.
    + eexists _, _, _, _. split_and!; [done|apply Hins; constructor|done].
    + lia.
  - match goal with H : pending _ _ _ _ |- _ => inversion H; subst end;
      [|congruence].
    eexists. split.
    + eexists _, _, _, _. split_and!; [done|apply Hins; constructor|done].
    + lia.
  - match goal with H : pending _ _ _ _ |- _ => inversion H; subst end;
      [congruence|].
    assert (names0 = names) as -> by congruence.
    eexists. split.
    + eexists _, _, _, _.
      split_and!; [done|apply Hins; by constructor|done].
    + lia.
  - match goal with H : unread _ _ _ _ _ |- _ => inversion H; subst end;
      try congruence.
    eexists. split.
    + eexists _, _, _, _.
      split_and!; [done|apply Hins; by constructor|done].
    + lia.
  - match goal with H : unread _ _ _ _ _ |- _ => inversion H; subst end;
      unfold entry_path in *; try congruence.
    eexists. split.
    + eexists _, _, _, _.
      split_and!; [done|apply Hins; by constructor|done].
    + lia.
  - match goal with H : unread _ _ _ _ _ |- _ => inversion H; subst end;
      unfold entry_path in *; try congruence.
    destruct (sums_lookup _ _ _ _ _ _ Hq HC0)
      as (zc & nc & zs & ns & HC & -> & -> & Hput).
    eexists. split.
    + eexists _, _, _, _. split_and!; [|apply Hins; by constructor|done].
      unfold put_coordinator, set_coordinator. cbn [coordinator].
      apply Hput. unfold queued. cbn [with_queue dir_queue].
      by apply sums_snoc.
    + lia.
  - match goal with H : unread _ _ _ _ _ |- _ => inversion H; subst end.
    eexists. split.
    + eexists _, _, _, _. split_and!; [|apply Hins; constructor|done].
      unfold on_coordinator, set_coordinator. cbn [coordinator].
      by apply sums_alter_queue.
    + lia.
  - eexists. split.
    + eexists _, _, _, _. split_and!; [|apply Hins; constructor|done].
      unfold on_coordinator, set_coordinator. cbn [coordinator].
      by apply sums_alter_queue.
    + lia.
Qed.




Definition all_presented (sys : System) (d : getopt_data) : Prop :=
  Forall (λ a, ∃ t, presents sys a.1 t) (roots sys d).

Lemma cost_boot sys arguments mem p0 d :
  boot sys arguments mem = Ok (p0, d) → all_presented sys d →
  ∃ N, cost sys p0 N.
Proof.
  intros (_ & Hc & Hpool & _)%boot_Ok Hall. unfold cost. rewrite Hc, Hpool.
  assert (∃ z n, sums (queued sys) (seed <$> roots sys d) z n)
    as (z & n & Hq).
  { unfold all_presented in Hall.
    assert (Hdir : ∀ a, a ∈ roots sys d →
              lstat sys a.1 = Some a.2 ∧ is_dictionary a.2 = true).
    { intros [a st]. apply elem_of_directory_arguments. }
    revert Hall Hdir. generalize (roots sys d). intros l Hall.
    induction Hall as [|[a st] l [t Ht] Hall IH]; intros Hdir.
    - exists 0, 0%nat. constructor.
    - destruct IH as (z & n & IH); [intros; apply Hdir; by right|].
      destruct (Hdir (a, st)) as [Hl Hd]; [left|]. cbn in *.
      destruct (presents_lstat _ _ _ Ht) as [Hl' Hkind].
      destruct (presents_pending _ _ _ Ht) as [m Hm].
      { apply Hkind. congruence. }
      eexists _, _. cbn [fmap list_fmap]. constructor; [|exact IH].
      unfold queued, seed. cbn [dir_queue fst]. repeat constructor. exact Hm. }
  assert (∃ zw nw, sums (working sys)
            (Seeking (errno_at_boot arguments)
               :: replicate (spawned (get_thread_amount arguments).1)
                    (Seeking 0)) zw nw) as (zw & nw & Hw).
  { assert (∃ zw nw, sums (working sys)
              (replicate (spawned (get_thread_amount arguments).1)
                 (Seeking 0)) zw nw) as (zw & nw & Hw).
    { generalize (spawned (get_thread_amount arguments).1). intros k.
      induction k as [|k (zw & nw & IH)].
      - exists 0, 0%nat. constructor.
      - exists (0 + zw), (1 + nw)%nat. cbn [replicate].
        apply sums_cons; [apply working_seeking|exact IH]. }
    exists (0 + zw), (1 + nw)%nat.
    apply sums_cons; [apply working_seeking|exact Hw]. }
  eauto 10.
Qed.

(** ** No worker waits for ever *)

Lemma worker_at_work_steps sys p i w c :
  pool p !! i = Some w → worker_root w = Some c →
  ∃ m, worker_step sys p i = Some m.
Proof.
  intros Hw Hroot. unfold worker_step. rewrite Hw. cbn [mbind option_bind].
  destruct w as [|errno c0 d|errno c0 d [|d_name rest] sum|errno c0|];
    try done; try by eexists.
  - destruct (safe_opendir sys d errno) as [[[names|] ?] ?]; by eexists.
  - destruct (process_entry sys d d_name sum c0 (ctx p) (mem p))
      as [[[? ?] ?]| |]; by eexists.
Qed.

Lemma never_stuck sys p :
  counted p →
  (∃ i w, pool p !! i = Some w ∧ is_returned w = false) →
  ∃ i m, worker_step sys p i = Some m.
Proof.
  intros Hc (i & w & Hw & Hr).
  destruct (decide (Forall (λ w, worker_root w = None) (pool p)))
    as [Hnone|Hsome].
  - exists i. unfold worker_step. rewrite Hw. cbn [mbind option_bind].
    rewrite Forall_forall in Hnone.
    pose proof (Hnone w (list_elem_of_lookup_2 _ _ _ Hw)) as Hroot.
    destruct w as [errno| | | |]; try done.
    destruct (get_coordinator_with_work (ctx p) (mem p))
      as [[[[c path| |] ctx'] mem']| |] eqn:Hg; try by eexists.
    { exfalso. unfold get_coordinator_with_work, are_threads_active in Hg.
      destruct (are_threads_active_from (coordinator (ctx p))) eqn:Ha;
        [|done].
      apply bind_Ok in Hg as ([[found ctx1] mem1] & Hg & Hf).
      destruct found as [[? ?]|]; [done|].
      unfold get_non_empty_coordinator in Hg.
      apply bind_Ok in Hg as ([found mem2] & Hg & Hf').
      destruct found as [[[? ?] ?]|]; [done|].
      apply get_non_empty_from_None in Hg.
      assert (Hfalse : are_threads_active_from (coordinator (ctx p)) = false);
        [|congruence].
      apply are_threads_active_false. rewrite Forall_forall in *.
      intros C HC. split; [|by apply Hg].
      apply list_elem_of_lookup_1 in HC as [c HC].
      rewrite (counted_active _ Hc _ _ HC).
      assert (in_flight c (pool p) = 0%nat) as ->; [|done].
      apply in_flight_none. rewrite Forall_forall.
      intros w' Hw'. by rewrite (Hnone w' Hw'). }
    destruct (safe_malloc _ (mem p)); by eexists.
  - apply not_Forall_Exists in Hsome; [|apply _].
    apply Exists_exists in Hsome as (w' & Hin & Hroot).
    apply list_elem_of_lookup_1 in Hin as [j Hj].
    destruct (worker_root w') as [c|] eqn:Hc'; [|done].
    exists j. by eapply worker_at_work_steps.
Qed.

Lemma get_non_empty_from_unbounded cs : ∀ k,
  ∃ found, get_non_empty_from cs k None = Ok (found, None).
Proof.
  induction cs as [|C cs IH]; intros k; cbn [get_non_empty_from];
    [by eexists|].
  destruct (dir_queue C); cbn; [apply IH|by eexists].
Qed.

(** With memory that never runs out, below trees whose entries [lstat]
    knows, no step ends the process. *)
Lemma runs_on sys p i m N :
  counted p → cost sys p N → mem p = None →
  worker_step sys p i = Some m → ∃ p', m = Running p' ∧ mem p' = None.
Proof.
  intros Hc (zq & nq & zw & nw & _ & Hws & _) Hmem.
  unfold worker_step. destruct (pool p !! i) as [w|] eqn:Hw; [|done].
  cbn [mbind option_bind]. rewrite Hmem.
  destruct (sums_lookup _ _ _ _ _ _ Hws Hw)
    as (za & na & _ & _ & Hwa & _ & _ & _).
  destruct w as [errno|errno c d|errno c d [|d_name rest] sum|errno c|];
    try done.
  - unfold get_coordinator_with_work, get_non_empty_coordinator.
    destruct (are_threads_active (ctx p)); cbn.
    + destruct (get_non_empty_from_unbounded (coordinator (ctx p)) 0)
        as [found ->]. cbn.
      destruct found as [[[c path] C]|]; [|done].
      intros [= <-]. by eexists.
    + intros [= <-]. by eexists.
  - destruct (safe_opendir sys d errno) as [[[names|] ?] ?];
      intros [= <-]; by eexists.
  - intros [= <-]. by eexists.
  - inversion Hwa as [| |? ? ? ? ? ? ? Hu| |]; subst.
    unfold process_entry.
    inversion Hu as [|? ? ? ? ? Hdot|? ? ? st ? ? Hdot Hst Hdir
                    |? ? ? st ? ? ? ? Hdot Hst Hdir]; subst;
      rewrite Hdot; cbn [negb].
    + intros [= <-]. by eexists.
    + unfold entry_path in Hst. cbn. unfold process_directory_entry, safe_lstat.
      rewrite Hst. cbn. rewrite Hdir. cbn. intros [= <-]. by eexists.
    + unfold entry_path in Hst. cbn. unfold process_directory_entry, safe_lstat.
      rewrite Hst. cbn. rewrite Hdir. unfold enqueue_on.
      destruct (counted_valid _ Hc _ _ c Hw eq_refl) as [C ->]. cbn.
      intros [= <-]. by eexists.
  - intros [= <-]. by eexists.
Qed.

(** ** Where the workers start *)

Lemma in_flight_replicate c k errno :
  in_flight c (replicate k (Seeking errno)) = 0%nat.
Proof. induction k as [|k IH]; [done|]. cbn. by rewrite IH. Qed.

Lemma counted_boot sys arguments mem p0 d :
  boot sys arguments mem = Ok (p0, d) →
  (get_thread_amount arguments).1 < INT_MAX →
  counted p0 ∧ settled p0 ∧ totals_in_range p0 ∧ pool p0 ≠ [].
Proof.
  intros (_ & Hc & Hpool & _)%boot_Ok Hthreads. split_and!; [| | |by rewrite Hpool].
  - split.
    + intros c C. rewrite Hc, Hpool, list_lookup_fmap. cbn [in_flight].
      rewrite in_flight_replicate.
      destruct (roots sys d !! c); [|done]. by intros [= <-].
    + intros i w c. rewrite Hpool. by intros [e ->]%seeking_at_boot.
    + rewrite Hpool. cbn [length]. rewrite length_replicate.
      unfold spawned, INT_MAX in *. lia.
  - intros (j & status & Hj). rewrite Hpool in Hj.
    by apply seeking_at_boot in Hj as [e [=]].
  - unfold totals_in_range. rewrite Hc, Forall_fmap, Forall_forall.
    intros a _. cbn. apply to_int_range.
Qed.

(** What holds of every process that a run reaches. *)
Lemma reached sys arguments mem p0 d p :
  boot sys arguments mem = Ok (p0, d) →
  (get_thread_amount arguments).1 < INT_MAX →
  rtc (step sys) (Running p0) (Running p) →
  counted p ∧ settled p ∧ totals_in_range p ∧ pool p ≠ [].
Proof.
  intros Hboot Hthreads.
  apply (rtc_running_ind sys
           (λ p, counted p ∧ settled p ∧ totals_in_range p ∧ pool p ≠ [])).
  - by eapply counted_boot.
  - intros p1 i p2 (Hc & Hs & Ht & Hne) Hstep. split_and!.
    + by eapply counted_transition.
    + by eapply settled_transition.
    + by eapply totals_in_range_transition.
    + intros Hnil. apply Hne.
      assert (length (pool p2) = length (pool p1)) as Hlen
        by (destruct Hstep; cbn [pool]; apply length_insert).
      rewrite Hnil in Hlen. by destruct (pool p1).
Qed.

Lemma reached_cost sys p0 p N0 :
  cost sys p0 N0 → rtc (step sys) (Running p0) (Running p) →
  ∃ N, cost sys p N.
Proof.
  intros Hc. apply (rtc_running_ind sys (λ p, ∃ N, cost sys p N)); [eauto|].
  intros p1 i p2 [N HN] Hstep.
  destruct (cost_transition _ _ _ _ _ HN Hstep) as (N' & ? & _). eauto.
Qed.

Lemma expand_unbounded ctx ctx' mem' :
  expand_and_create_coordinator ctx None = Ok (ctx', mem') → mem' = None.
Proof.
  unfold expand_and_create_coordinator.
  destruct (size ctx <=? dir_num ctx); cbn;
    (destruct (andb _ _); [|done]); by intros [= _ <-].
Qed.

Lemma enqueue_on_unbounded c value ctx ctx' mem' :
  enqueue_on c value ctx None = Ok (ctx', mem') → mem' = None.
Proof.
  unfold enqueue_on. destruct (coordinator ctx !! c); [|done]. cbn.
  by intros [= _ <-].
Qed.

Lemma process_argument_unbounded sys optind i arg ctx ctx' mem' :
  process_argument sys optind i arg ctx None = Ok (ctx', mem') → mem' = None.
Proof.
  unfold process_argument. destruct (is_flag_arg optind i); cbn [negb];
    [by intros [= _ <-]|].
  destruct (safe_lstat sys arg _) as [st| |]; cbn [mbind outcome_bind];
    [|done..].
  destruct (is_dictionary st); [|by intros [= _ <-]].
  intros H. apply bind_Ok in H as ([ctx1 mem1] & H1 & H).
  apply expand_unbounded in H1 as ->.
  apply bind_Ok in H as ([ctx2 mem2] & H2 & H).
  apply enqueue_on_unbounded in H2 as ->. by injection H as _ <-.
Qed.

Lemma traverse_arguments_unbounded sys optind args : ∀ i ctx ctx' mem',
  traverse_arguments_from sys optind i args ctx None = Ok (ctx', mem') →
  mem' = None.
Proof.
  induction args as [|arg rest IH]; intros i ctx ctx' mem';
    cbn [traverse_arguments_from]; [by intros [= _ <-]|].
  intros H. apply bind_Ok in H as ([ctx1 mem1] & H1 & H).
  apply process_argument_unbounded in H1 as ->. by eapply IH.
Qed.

Lemma boot_unbounded sys arguments p0 d :
  boot sys arguments None = Ok (p0, d) → mem p0 = None.
Proof.
  unfold boot. intros H. apply bind_Ok in H as (_ & _ & H).
  destruct (get_thread_amount_run arguments) as [[[thread_num d'] e] wr].
  destruct (thread_num <? 0); [done|].
  cbn in H. apply bind_Ok in H as ([ctx1 m1] & Hseed & H).
  apply traverse_arguments_unbounded in Hseed as ->.
  apply bind_Ok in H as (m2 & Hthreads & H).
  injection H as <- <-. cbn. by eapply create_threads_Ok.
Qed.

(** ** The totals *)

Lemma nonempty_all_returned (pool : list Worker) :
  pool ≠ [] → Forall (λ w, is_returned w = true) pool →
  ∃ j status, pool !! j = Some (Returned status).
Proof.
  destruct pool as [|w pool]; [done|]. intros _ [Hw _]%Forall_cons.
  destruct w; try done. by exists 0%nat, exit_status.
Qed.


(** *** A small file system

    A directory [R] that holds a file [a] of 1 block and a directory [S],
    which holds a file [b] of 2 blocks; a file [f] of 16 blocks besides. The
    directories take 8 blocks each. *)

Definition directory_stat (blocks : Z) : stat :=
  {| st_mode := 16877; st_blocks := blocks |}.
Definition file_stat (blocks : Z) : stat :=
  {| st_mode := 33188; st_blocks := blocks |}.

Definition small_system : System :=
  {| lstat := λ path,
       if String.eqb path "R" then Some (directory_stat 8)
       else if String.eqb path "R/a" then Some (file_stat 1)
       else if String.eqb path "R/S" then Some (directory_stat 8)
       else if String.eqb path "R/S/b" then Some (file_stat 2)
       else if String.eqb path "f" then Some (file_stat 16)
       else None;
     opendir := λ path,
       if String.eqb path "R" then inr ["."; ".."; "a"; "S"]%string
       else if String.eqb path "R/S" then inr ["."; ".."; "b"]%string
       else inl 2%positive;
     strerror := λ _, "No such file or directory"%string |}.

Definition small_tree : fstree :=
  Open (directory_stat 8) ["."; ".."; "a"; "S"]%string
    [ Leaf (file_stat 1);
      Open (directory_stat 8) ["."; ".."; "b"]%string [Leaf (file_stat 2)] ].

Definition small_arguments : list string :=
  ["mdu"; "-j"; "3"; "f"; "R"]%string.

Definition small_start : Process * getopt_data :=
  match boot small_system small_arguments None with
  | Ok x => x
  | _ => ({| ctx := {| coordinator := []; capacity := 0; size := 0;
                       dir_num := 0 |};
             pool := []; stderr := []; mem := None |},
          getopt_initialize [])
  end.

(** Three workers taking turns. *)
Definition small_end : Machine :=
  run_schedule small_system (mjoin (replicate 15 [0; 1; 2]%nat))
    (Running small_start.1).

Lemma small_tree_presented : presents small_system "R" small_tree.
Proof.
  cbn. unfold strlen, INT_MAX. cbn.
  repeat split; try reflexivity; repeat constructor; by vm_compute.
Qed.


(** *** A tree of more than 2^31 blocks

    A directory [R] of 8 blocks that holds one file [big] of 2^31 blocks
    (one tebibyte). *)



(** ** The paths in the queues *)

(** Every name that [readdir] returns fits, with the path of its directory, a
    slash and the final zero, in an [int]: what [get_path_length] takes for
    granted. *)
Definition names_fit (sys : System) : Prop :=
  ∀ dir_name names,
    opendir sys dir_name = inr names → Forall (fits dir_name) names.

(** A path that [create_full_path] built for an entry that is neither "."
    nor "..", in a buffer long enough. *)
Definition entry_of (path : string) : Prop :=
  ∃ dir_name d_name,
    is_dot_or_dot_dot d_name = false ∧ fits dir_name d_name
    ∧ path = entry_path dir_name d_name.

(** Every queued path is the seed of its coordinator or the path of an
    entry. *)
Definition queues_hold (seeds : list string) (p : Process) : Prop :=
  ∀ c C path,
    coordinator (ctx p) !! c = Some C → path ∈ dir_queue C →
    seeds !! c = Some path ∨ entry_of path.

(** The names that a worker has still to read fit. *)
Definition reads_fit (p : Process) : Prop :=
  ∀ i errno c dir_name names sum,
    pool p !! i = Some (Reading errno c dir_name names sum) →
    Forall (fits dir_name) names.

Lemma reads_fit_transition sys p i p' :
  names_fit sys → reads_fit p → transition sys p i p' → reads_fit p'.
Proof.
  intros Hsys H Ht j errno' c' dir' names' sum' Hj.
  destruct Ht; cbn [pool] in Hj;
    (apply lookup_pool_insert in Hj as [[-> Hj]|[_ Hj]]; [|by eapply H]);
    try discriminate Hj; injection Hj as -> -> -> -> ->.
  - by eapply Hsys.
  - eapply Forall_inv_tail, H. eassumption.
  - eapply Forall_inv_tail, H. eassumption.
  - eapply Forall_inv_tail, H. eassumption.
Qed.

Lemma queues_hold_transition sys seeds p i p' :
  reads_fit p → queues_hold seeds p → transition sys p i p' →
  queues_hold seeds p'.
Proof.
  intros Hfit H Ht c' C' path HC' Hin.
  destruct Ht as
    [errno c0 C0 path0 rest mem' Hwi HC0 Hq0 Hbefore Hm
    |errno mem' Hwi Hidle Hm
    |errno c0 dir_name e Hwi Ho
    |errno c0 dir_name names Hwi Ho
    |errno c0 dir_name d_name rest sum Hwi Hdot
    |errno c0 dir_name d_name rest sum mem' st Hwi Hdot Hm Hst Hdir
    |errno c0 dir_name d_name rest sum mem1 mem2 mem3 st C0 Hwi Hdot Hm1 Hm2 Hm3 Hst Hdir HC0
    |errno c0 dir_name sum Hwi
    |errno c0 Hwi];
    cbn [ctx] in HC'; try by eapply H.
  - apply lookup_put_coordinator in HC' as [[-> ->]|[Hne HC']];
      [|by eapply H].
    cbn in Hin. apply (H c0 C0); [done|]. rewrite Hq0. by right.
  - apply lookup_put_coordinator in HC' as [[-> ->]|[Hne HC']];
      [|by eapply H].
    cbn in Hin. apply elem_of_app in Hin as [Hin|Hin]; [by eapply H|].
    apply list_elem_of_singleton in Hin as ->. right.
    exists dir_name, d_name. split_and!; [done| |done].
    by eapply Forall_inv, Hfit.
  - apply lookup_on_coordinator in HC' as [[-> (C0 & HC0 & ->)]|[Hne HC']];
      [|by eapply H].
    cbn in Hin. by eapply H.
  - apply lookup_on_coordinator in HC' as [[-> (C0 & HC0 & ->)]|[Hne HC']];
      [|by eapply H].
    cbn in Hin. by eapply H.
Qed.

Lemma slash_not_dot (dir_name d_name : string) :
  dir_name +:+ "/" +:+ d_name ≠ "."%string
  ∧ dir_name +:+ "/" +:+ d_name ≠ ".."%string.
Proof.
  assert (H0 : ∀ s : string, s +:+ "/" +:+ d_name ≠ ""%string)
    by (by intros [|? ?]).
  assert (H1 : ∀ s : string, s +:+ "/" +:+ d_name ≠ "."%string).
  { intros [|a s]; [done|]. cbn. intros [= _ H]. by apply (H0 s). }
  split; [apply H1|].
  destruct dir_name as [|a s]; [done|]. cbn. intros [= _ H]. by apply (H1 s).
Qed.

(** C6, as amended. Where every name that [readdir] returns fits, with the
    path of its directory, in an [int]: in every state that a run reaches, a
    queued path is either the seed of its coordinator, which is the
    command-line argument as it was given (so possibly "." or ".."), or the
    path that [create_full_path] built for an entry whose name is neither
    "." nor ".."; such a path is the directory, a slash and the name, and so
    never the string "." or "..". An entry named "." or ".." is passed over:
    nothing is looked up, nothing is enqueued, nothing is added. *)
Theorem queued_paths (sys : System) (arguments : list string) (mem : memory)
  (p0 : Process) (d : getopt_data) (p : Process) :
  boot sys arguments mem = Ok (p0, d) →
  names_fit sys →
  rtc (step sys) (Running p0) (Running p) →
  (∀ c C path,
     coordinator (ctx p) !! c = Some C → path ∈ dir_queue C →
     (∃ st, roots sys d !! c = Some (path, st))
     ∨ (∃ dir_name d_name,
          is_dot_or_dot_dot d_name = false
          ∧ path = entry_path dir_name d_name
          ∧ path = dir_name +:+ "/" +:+ d_name
          ∧ path ≠ "."%string ∧ path ≠ ".."%string))
  ∧ (∀ dir_name d_name sum c ctx mem,
       is_dot_or_dot_dot d_name = true →
       process_entry sys dir_name d_name sum c ctx mem = Ok (sum, ctx, mem)).
Proof.
  intros Hboot Hsys Hrun. split.
  - assert (Hq : queues_hold (fst <$> roots sys d) p ∧ reads_fit p).
    { revert Hrun.
      apply (rtc_running_ind sys
               (λ p, queues_hold (fst <$> roots sys d) p ∧ reads_fit p)).
      - apply boot_Ok in Hboot as (_ & Hc & Hpool & _). split.
        + intros c C path HC Hin. left.
          rewrite Hc, list_lookup_fmap in HC. rewrite list_lookup_fmap.
          destruct (roots sys d !! c) as [[a st]|]; [|done].
          injection HC as <-. cbn in Hin.
          by apply list_elem_of_singleton in Hin as ->.
        + intros i errno c dir_name names sum Hi. rewrite Hpool in Hi.
          by apply seeking_at_boot in Hi as [e [=]].
      - intros p1 i p2 [Hq Hr] Ht. split.
        + by eapply queues_hold_transition.
        + by eapply reads_fit_transition. }
    destruct Hq as [Hq _].
    intros c C path HC Hin. destruct (Hq c C path HC Hin) as [Hs|He].
    + left. rewrite list_lookup_fmap in Hs.
      destruct (roots sys d !! c) as [[a st]|]; [|done].
      injection Hs as ->. by exists st.
    + right. destruct He as (dir_name & d_name & Hdot & Hfit & ->).
      exists dir_name, d_name. split_and!; [done..| | |];
        rewrite (entry_path_exact _ _ Hfit); [done|apply slash_not_dot..].
  - intros dir_name d_name sum c ctx0 mem0 Hdot. unfold process_entry.
    by rewrite Hdot.
Qed.

Lemma small_names_fit : names_fit small_system.
Proof.
  intros dir_name names. unfold small_system. cbn [opendir].
  destruct (String.eqb dir_name "R") eqn:ER.
  { apply String.eqb_eq in ER as ->. intros [= <-].
    repeat constructor; by vm_compute. }
  destruct (String.eqb dir_name "R/S") eqn:ES; [|done].
  apply String.eqb_eq in ES as ->. intros [= <-].
  repeat constructor; by vm_compute.
Qed.

(** The small file system after its first worker has read the directory [R]:
    the queue of the one root holds the path of [S]. *)
Definition small_reading : Machine :=
  run_schedule small_system (replicate 6 0%nat) (Running small_start.1).

Lemma queued_paths_witness :
  boot small_system small_arguments None = Ok small_start
  ∧ names_fit small_system
  ∧ ∃ p, small_reading = Running p
         ∧ dir_queue <$> coordinator (ctx p) = [["R/S"%string]]
         ∧ ((∃ st, roots small_system small_start.2 !! 0%nat
                   = Some ("R/S"%string, st))
            ∨ ∃ dir_name d_name,
                is_dot_or_dot_dot d_name = false
                ∧ "R/S"%string = entry_path dir_name d_name
                ∧ "R/S"%string = dir_name +:+ "/" +:+ d_name
                ∧ "R/S"%string ≠ "."%string
                ∧ "R/S"%string ≠ ".."%string).
Proof.
  assert (Hboot : boot small_system small_arguments None = Ok small_start)
    by (vm_compute; reflexivity).
  split; [exact Hboot|]. split; [exact small_names_fit|].
  destruct small_reading as [p| |] eqn:Hend; [|by vm_compute in Hend..].
  exists p. split; [done|].
  assert (Hq : dir_queue <$> coordinator (ctx p) = [["R/S"%string]]).
  { vm_compute in Hend. by injection Hend as <-. }
  split; [exact Hq|].
  destruct (coordinator (ctx p)) as [|C [|? ?]] eqn:HC; try done.
  injection Hq as Hq.
  refine (proj1 (queued_paths small_system small_arguments None
                   small_start.1 small_start.2 p _ _ _) 0%nat C _ _ _).
  - by destruct small_start.
  - exact small_names_fit.
  - rewrite <- Hend. apply run_schedule_steps.
  - by rewrite HC.
  - rewrite Hq. by left.
Defined.

(** *** The current directory as the root

    [mdu .] in a directory that holds nothing. *)
Definition here_system : System :=
  {| lstat := λ path,
       if String.eqb path "." then Some (directory_stat 8) else None;
     opendir := λ path,
       if String.eqb path "." then inr ["."; ".."]%string
       else inl 2%positive;
     strerror := λ _, "No such file or directory"%string |}.

(** A seed may be ".": before the first step the queue of the root holds
    it. *)
Lemma dot_is_queued :
  ∃ p0 d,
    boot here_system ["mdu"; "."]%string None = Ok (p0, d)
    ∧ rtc (step here_system) (Running p0) (Running p0)
    ∧ dir_queue <$> coordinator (ctx p0) = [["."%string]].
Proof.
  destruct (boot here_system ["mdu"; "."]%string None) as [[p0 d]| |] eqn:Hboot;
    [|by vm_compute in Hboot..].
  exists p0, d. split; [done|]. split; [done|].
  vm_compute in Hboot. by injection Hboot as <- <-.
Qed.

(** ** A directory that cannot be opened *)

(** The line that [safe_opendir] writes to stderr. *)
Definition cannot_read (sys : System) (dir_name : string) (e : positive)
  : string :=
  "du: cannot read directory '" +:+ dir_name +:+ "': "
    +:+ strerror sys (Z.pos e).

(** The worker has seen a failure: its [errno] is not zero, or it has
    returned the status 1. *)
Definition saw_failure (w : Worker) : Prop :=
  match w with
  | Seeking errno | Opening errno _ _ | Reading errno _ _ _ _
  | Releasing errno _ => errno ≠ 0
  | Returned status => status = EXIT_FAILURE
  end.

Lemma saw_failure_transition sys p j p' i w :
  pool p !! i = Some w → saw_failure w → transition sys p j p' →
  ∃ w', pool p' !! i = Some w' ∧ saw_failure w'.
Proof.
  intros Hw Hf Ht. destruct (decide (j = i)) as [->|Hne].
  - assert (Hlt : (i < length (pool p))%nat) by (by eapply lookup_lt_Some).
    destruct Ht; cbn [pool]; eexists;
      (split; [by apply list_lookup_insert_eq|]);
      (match goal with
       | H : pool p !! i = Some _ |- _ => rewrite Hw in H; injection H as ->
       end);
      cbn in *; try done.
    by destruct (errno =? 0) eqn:E; [apply Z.eqb_eq in E|].
  - exists w. split; [|done].
    destruct Ht; cbn [pool]; by rewrite list_lookup_insert_ne.
Qed.

Lemma saw_failure_reached sys p q i w :
  pool p !! i = Some w → saw_failure w →
  rtc (step sys) (Running p) (Running q) →
  ∃ w', pool q !! i = Some w' ∧ saw_failure w'.
Proof.
  intros Hw Hf.
  apply (rtc_running_ind sys
           (λ q, ∃ w', pool q !! i = Some w' ∧ saw_failure w')); [eauto|].
  intros p1 j p2 (w1 & Hw1 & Hf1) Ht. by eapply saw_failure_transition.
Qed.

Lemma collect_failure values : ∀ exit_status,
  exit_status = EXIT_FAILURE ∨ EXIT_FAILURE ∈ values →
  collect_thread_exit_statuses values exit_status = EXIT_FAILURE.
Proof.
  unfold collect_thread_exit_statuses.
  induction values as [|value values IH]; intros exit_status.
  - intros [->|?%elem_of_nil]; done.
  - cbn [fold_left]. intros H. apply IH.
    destruct (value =? EXIT_FAILURE) eqn:E; [by left|].
    destruct H as [->|[Hv|Hin]%elem_of_cons]; [by left| |by right].
    rewrite <- Hv in E. by rewrite Z.eqb_refl in E.
Qed.

Lemma print_results_from_exit sys optind args ctx mem :
  ∀ i dir_num out status dg,
  print_results_from sys optind i args ctx mem dir_num
  = (out, Exit status dg) →
  status = EXIT_FAILURE.
Proof.
  induction args as [|arg rest IH]; intros i dir_num out status dg;
    cbn [print_results_from]; [done|].
  destruct (is_flag_arg optind i); cbn [negb]; [apply IH|].
  destruct (safe_lstat sys arg _) as [st|s0 dg0|] eqn:Hl; [| |done].
  - destruct (is_dictionary st).
    + destruct (coordinator ctx !! dir_num); [|done].
      destruct (print_results_from sys optind (i + 1) rest ctx mem
                  (S dir_num)) as [out' r] eqn:Hp.
      intros [= _ ->]. by eapply IH.
    + destruct (print_results_from sys optind (i + 1) rest ctx mem dir_num)
        as [out' r] eqn:Hp.
      intros [= _ ->]. by eapply IH.
  - intros [= _ -> _].
    eapply (exits_safe_lstat _ _ _ (exits_thread_context_destroy ctx mem)), Hl.
Qed.

Lemma finish_failure sys d q i w out m :
  pool q !! i = Some w → saw_failure w →
  finish sys d q = Some (out, m) → m ≠ Exited EXIT_SUCCESS.
Proof.
  unfold finish. intros Hw Hf.
  destruct (pool q) as [|w0 others]; [done|].
  destruct (exit_value w0) as [s0|] eqn:H0; [|done]. cbn [mbind option_bind].
  destruct (mapM exit_value others) as [values|] eqn:Hm; [|done].
  cbn [mbind option_bind].
  assert (Hfail : collect_thread_exit_statuses values s0 = EXIT_FAILURE).
  { apply collect_failure. destruct i as [|i].
    - injection Hw as ->. destruct w; try done. left.
      cbn in H0, Hf. congruence.
    - right. cbn in Hw. apply mapM_Some in Hm.
      destruct (Forall2_lookup_l _ _ _ _ _ Hm Hw) as (s & Hs & Hv).
      destruct w; try done. cbn in Hv, Hf. injection Hv as <-.
      rewrite Hf in Hs. by eapply list_elem_of_lookup_2. }
  rewrite Hfail.
  destruct (print_results sys _ _ _ _) as [out' r] eqn:Hp.
  intros [= _ <-]. destruct r as [[]|status dg|]; cbn; [| |done].
  - by destruct (thread_context_destroy (ctx q) (mem q)).
  - apply print_results_from_exit in Hp as ->. done.
Qed.

Lemma exited_with_failure sys m status :
  rtc (step sys) m (Exited status) →
  m = Exited status ∨ status = EXIT_FAILURE.
Proof.
  intros [->|(m' & _ & (p & i & -> & Hs))]%rtc_inv_r; [by left|right].
  by eapply worker_step_exited.
Qed.

(** ** Destroying the context *)

Lemma queue_destroy_unbounded q : queue_destroy q None = Ok None.
Proof. induction q as [|value q IH]; [done|]. cbn. exact IH. Qed.

Lemma destroy_coordinators_unbounded cs :
  destroy_coordinators cs None = Ok None.
Proof.
  induction cs as [|C cs IH]; [done|]. cbn [destroy_coordinators].
  unfold destroy_coordinator. rewrite queue_destroy_unbounded. exact IH.
Qed.

Lemma destroy_coordinators_empty cs mem :
  Forall (λ C, dir_queue C = []) cs → destroy_coordinators cs mem = Ok mem.
Proof.
  induction 1 as [|C cs HC _ IH]; [done|]. cbn [destroy_coordinators].
  unfold destroy_coordinator. by rewrite HC.
Qed.

(** With memory that never runs out, or with nothing queued,
    [thread_context_destroy] returns from a context whose slots below
    [dir_num] hold coordinators. *)
Lemma thread_context_destroy_Ok ctx mem :
  dir_num ctx ≤ Z.of_nat (length (coordinator ctx)) →
  mem = None ∨ Forall (λ C, dir_queue C = []) (coordinator ctx) →
  thread_context_destroy ctx mem = Ok ().
Proof.
  intros Hn Hcase. unfold thread_context_destroy.
  destruct (dir_num ctx <=? _) eqn:E; [|apply Z.leb_gt in E; lia].
  destruct Hcase as [->|Hempty].
  - by rewrite destroy_coordinators_unbounded.
  - rewrite destroy_coordinators_empty; [done|]. by apply Forall_take.
Qed.

(** The fields of the array stay as [main] left them. *)
Lemma transition_array sys p i p' :
  transition sys p i p' →
  dir_num (ctx p') = dir_num (ctx p)
  ∧ length (coordinator (ctx p')) = length (coordinator (ctx p)).
Proof.
  intros Ht. destruct Ht; cbn [ctx]; try done;
    unfold put_coordinator, on_coordinator, set_coordinator;
    cbn [dir_num coordinator];
    by rewrite ?length_insert, ?length_alter.
Qed.

Lemma boot_seeded sys arguments mem p0 d :
  boot sys arguments mem = Ok (p0, d) → seeded (ctx p0).
Proof.
  unfold boot. intros H. apply bind_Ok in H as (_ & _ & H).
  destruct (get_thread_amount_run arguments) as [[[thread_num d'] e] wr].
  destruct (thread_num <? 0); [done|].
  apply bind_Ok in H as ([ctx0 m0] & Hctx & H).
  apply bind_Ok in H as ([ctx1 m1] & Hseed & H).
  apply bind_Ok in H as (m2 & _ & H). injection H as <- <-. cbn [ctx].
  unfold create_thread_context in Hctx.
  apply bind_Ok in Hctx as (? & _ & Hctx).
  apply bind_Ok in Hctx as (? & _ & Hctx). injection Hctx as <- <-.
  apply traverse_arguments_from_Ok in Hseed as [_ Hs];
    [done|split; cbn; unfold INT_MAX; lia].
Qed.

Lemma reached_array sys arguments mem p0 d p :
  boot sys arguments mem = Ok (p0, d) →
  rtc (step sys) (Running p0) (Running p) →
  dir_num (ctx p) = Z.of_nat (length (coordinator (ctx p))).
Proof.
  intros Hboot.
  apply (rtc_running_ind sys
           (λ p, dir_num (ctx p) = Z.of_nat (length (coordinator (ctx p))))).
  - by apply boot_seeded in Hboot as [? _].
  - intros p1 i p2 H1 [Hd Hl]%transition_array. by rewrite Hd, Hl.
Qed.

(** When all workers have returned nothing is queued, and
    [thread_context_destroy] returns. *)
Lemma destroy_at_end sys arguments mem0 p0 d p :
  boot sys arguments mem0 = Ok (p0, d) →
  (get_thread_amount arguments).1 < INT_MAX →
  rtc (step sys) (Running p0) (Running p) →
  Forall (λ w, is_returned w = true) (pool p) →
  thread_context_destroy (ctx p) (mem p) = Ok ().
Proof.
  intros Hboot Hthreads Hrun Hret.
  destruct (reached _ _ _ _ _ _ Hboot Hthreads Hrun) as (_ & Hs & _ & Hne).
  apply thread_context_destroy_Ok.
  - rewrite (reached_array _ _ _ _ _ _ Hboot Hrun). lia.
  - right. pose proof (Hs (nonempty_all_returned _ Hne Hret)) as Hrest.
    eapply Forall_impl; [exact Hrest|]. by intros C [_ ?].
Qed.

Lemma joined_all_returned (w : Worker) (others : list Worker) s0 values :
  exit_value w = Some s0 → mapM exit_value others = Some values →
  Forall (λ w, is_returned w = true) (w :: others).
Proof.
  intros Hw Hv. constructor; [by destruct w|].
  apply mapM_Some in Hv. rewrite Forall_forall.
  intros w' [k Hk]%list_elem_of_lookup_1.
  destruct (Forall2_lookup_l _ _ _ _ _ Hv Hk) as (s & _ & Hs).
  by destruct w'.
Qed.

(** ** An entry that [lstat] refuses *)

Lemma process_entry_refused sys dir_name d_name sum c ctx mem :
  is_dot_or_dot_dot d_name = false →
  lstat sys (entry_path dir_name d_name) = None →
  ∀ r, process_entry sys dir_name d_name sum c ctx mem ≠ Ok r.
Proof.
  intros Hdot Hl r. unfold process_entry, create_full_path, safe_calloc.
  rewrite Hdot. cbn [negb].
  destruct (alloc mem); cbn [mbind outcome_bind];
    [|unfold destroy_and_exit;
      by destruct (thread_context_destroy ctx mem) as [[]| |]].
  unfold process_directory_entry, safe_lstat. unfold entry_path in Hl.
  rewrite Hl. by intros ?%destroy_and_exit_bind.
Qed.

(** The call exits when memory for the path is there and
    [thread_context_destroy] returns. *)
Lemma process_entry_exits sys dir_name d_name sum c ctx mem mem1 :
  is_dot_or_dot_dot d_name = false →
  lstat sys (entry_path dir_name d_name) = None →
  alloc mem = Some mem1 → thread_context_destroy ctx mem1 = Ok () →
  process_entry sys dir_name d_name sum c ctx mem = Exit EXIT_FAILURE "lstat".
Proof.
  intros Hdot Hl Hm Hd. unfold process_entry, create_full_path, safe_calloc.
  rewrite Hdot, Hm. cbn [negb mbind outcome_bind].
  unfold process_directory_entry, safe_lstat. unfold entry_path in Hl.
  rewrite Hl. unfold destroy_and_exit. by rewrite Hd.
Qed.

Lemma entries_refused sys dir_name d_name c after before : ∀ sum ctx mem r,
  is_dot_or_dot_dot d_name = false →
  lstat sys (entry_path dir_name d_name) = None →
  process_directory_entries sys dir_name (before ++ d_name :: after)
    sum c ctx mem ≠ Ok r.
Proof.
  induction before as [|n before IH]; intros sum ctx mem r Hdot Hl;
    cbn [app process_directory_entries].
  - destruct (process_entry sys dir_name d_name sum c ctx mem)
      as [r0| |] eqn:He; cbn; [|done..].
    by apply process_entry_refused in He.
  - destruct (process_entry sys dir_name n sum c ctx mem)
      as [[[sum' ctx'] mem']| |]; cbn; [by apply IH|done..].
Qed.

(** *** An entry that cannot be looked up

    The directory [R] may be read but not searched: [readdir] returns the
    name [x], and [lstat] fails on [R/x]. A worker is about to read [x]. *)
Definition unsearchable_system : System :=
  {| lstat := λ path,
       if String.eqb path "R" then Some (directory_stat 8) else None;
     opendir := λ path,
       if String.eqb path "R" then inr ["."; ".."; "x"]%string
       else inl 2%positive;
     strerror := λ _, "No such file or directory"%string |}.

Definition unsearchable_process : Process :=
  {| ctx := {| coordinator :=
                 [{| active_threads := 1; tot_sum := 8; dir_queue := [] |}];
               capacity := 2; size := 2; dir_num := 1 |};
     pool := [Reading 0 0 "R" ["x"%string] 0; Seeking 0];
     stderr := []; mem := None |}.

(** The command line [mdu -j 2 R]: the invoking thread and one more. *)
Definition unsearchable_arguments : list string :=
  ["mdu"; "-j"; "2"; "R"]%string.

Definition unsearchable_start : Process * getopt_data :=
  match boot unsearchable_system unsearchable_arguments None with
  | Ok x => x
  | _ => ({| ctx := {| coordinator := []; capacity := 0; size := 0;
                       dir_num := 0 |};
             pool := []; stderr := []; mem := None |},
          getopt_initialize [])
  end.

(** C10. [mdu -j 2 R] where [R] can be read but not searched. The first
    worker takes [R]; the second then finds the counter of [R] positive and
    every queue empty, and waits on [cond_work]; the first reads on and
    comes to the entry [x]. [lstat] fails on [R/x]: taken alone the call of
    [process_directory_entry] writes its diagnostic, destroys the context and
    exits with [EXIT_FAILURE], and so does the process when the worker is the
    only one; but here [thread_context_destroy] destroys [mutex_work] and
    [cond_work] under the worker that waits, which is undefined: the process
    is not known to terminate, with a non-zero status or any other. *)
Theorem lstat_failure_beside_a_waiter :
  boot unsearchable_system unsearchable_arguments None = Ok unsearchable_start
  ∧ run_schedule unsearchable_system [0; 1; 0; 0; 0]%nat
      (Running unsearchable_start.1)
    = Running unsearchable_process
  ∧ others_at_work (pool unsearchable_process) 0 = true
  ∧ lstat unsearchable_system (entry_path "R" "x") = None
  ∧ get_coordinator_with_work (ctx unsearchable_process)
      (mem unsearchable_process)
    = Ok (Wait, ctx unsearchable_process, mem unsearchable_process)
  ∧ worker_step unsearchable_system unsearchable_process 1 = None
  ∧ process_directory_entry unsearchable_system (entry_path "R" "x") 0 0
      (ctx unsearchable_process) (mem unsearchable_process)
    = Exit EXIT_FAILURE "lstat"
  ∧ worker_step unsearchable_system unsearchable_process 0 = Some Crashed
  ∧ main_run unsearchable_system unsearchable_system
      unsearchable_arguments None [] Crashed
  ∧ worker_step unsearchable_system
      {| ctx := ctx unsearchable_process;
         pool := [Reading 0 0 "R" ["x"%string] 0];
         stderr := []; mem := None |} 0
    = Some (Exited EXIT_FAILURE).
Proof.
  assert (Hboot : boot unsearchable_system unsearchable_arguments None
                  = Ok (unsearchable_start.1, unsearchable_start.2))
    by (vm_compute; reflexivity).
  assert (Hrun : run_schedule unsearchable_system [0; 1; 0; 0; 0]%nat
                   (Running unsearchable_start.1)
                 = Running unsearchable_process)
    by (vm_compute; reflexivity).
  assert (Hstep : worker_step unsearchable_system unsearchable_process 0
                  = Some Crashed) by (vm_compute; reflexivity).
  split_and!.
  - vm_compute. reflexivity.
  - exact Hrun.
  - vm_compute. reflexivity.
  - vm_compute. reflexivity.
  - vm_compute. reflexivity.
  - vm_compute. reflexivity.
  - vm_compute. reflexivity.
  - exact Hstep.
  - eapply (run_aborted _ _ _ _ _ _ _ Hboot); [|done].
    apply (rtc_r _ (Running unsearchable_process)).
    + rewrite <- Hrun. apply run_schedule_steps.
    + by exists unsearchable_process, 0%nat.
  - vm_compute. reflexivity.
Qed.

(** X18. When [lstat] fails on an entry that a worker has read from a
    directory, the failure is never taken as one of that subtree alone: the
    step of the worker leaves no process running, and
    [process_directory_entries] and [traverse_directory] never return from a
    directory that holds such an entry, unlike from a directory that cannot
    be opened. While another worker is at work what becomes of the process
    is undefined; when the worker is the only one left, memory for the path
    is there and [thread_context_destroy] returns, the process exits with
    [EXIT_FAILURE], which is not zero. *)
Theorem lstat_failure_alone (sys : System) (p : Process) (i : nat)
  (errno : Z) (c : nat) (dir_name d_name : string) (rest : list string)
  (sum : Z) :
  pool p !! i = Some (Reading errno c dir_name (d_name :: rest) sum) →
  is_dot_or_dot_dot d_name = false →
  lstat sys (entry_path dir_name d_name) = None →
  (worker_step sys p i = Some (Exited EXIT_FAILURE)
   ∨ worker_step sys p i = Some Crashed)
  ∧ (others_at_work (pool p) i = true → worker_step sys p i = Some Crashed)
  ∧ (others_at_work (pool p) i = false →
     ∀ mem1, alloc (mem p) = Some mem1 →
             thread_context_destroy (ctx p) mem1 = Ok () →
             worker_step sys p i = Some (Exited EXIT_FAILURE))
  ∧ (others_at_work (pool p) i = false → mem p = None →
     dir_num (ctx p) ≤ Z.of_nat (length (coordinator (ctx p))) →
     worker_step sys p i = Some (Exited EXIT_FAILURE))
  ∧ EXIT_FAILURE ≠ 0
  ∧ (∀ before sum0 ctx0 mem0 r,
       process_directory_entries sys dir_name (before ++ d_name :: rest)
         sum0 c ctx0 mem0 ≠ Ok r)
  ∧ (∀ before ctx0 mem0 errno0 r,
       opendir sys dir_name = inr (before ++ d_name :: rest) →
       traverse_directory sys dir_name c ctx0 mem0 errno0 ≠ Ok r).
Proof.
  intros Hw Hdot Hl.
  assert (Hstep : ∃ r, (∀ x, r ≠ Ok x)
            ∧ r = process_entry sys dir_name d_name sum c (ctx p) (mem p)
            ∧ worker_step sys p i = Some (ended_among (pool p) i r)).
  { exists (process_entry sys dir_name d_name sum c (ctx p) (mem p)).
    split; [intros x; by apply process_entry_refused|]. split; [done|].
    unfold worker_step. rewrite Hw. cbn [mbind option_bind].
    destruct (process_entry sys dir_name d_name sum c (ctx p) (mem p))
      as [x| |] eqn:He; [|done..].
    by apply process_entry_refused in He. }
  destruct Hstep as (r & Hr & Hre & Hstep).
  assert (Hexit : ∀ mem1, others_at_work (pool p) i = false →
            alloc (mem p) = Some mem1 →
            thread_context_destroy (ctx p) mem1 = Ok () →
            worker_step sys p i = Some (Exited EXIT_FAILURE)).
  { intros mem1 Ho Hm Hd. rewrite Hstep, Hre.
    rewrite (process_entry_exits _ _ _ _ _ _ _ mem1) by done.
    unfold ended_among. by rewrite Ho. }
  split_and!.
  - rewrite Hstep. unfold ended_among.
    destruct (others_at_work (pool p) i); [by right|].
    destruct r as [x|status dg|] eqn:Er; [by destruct (Hr x)| |by right].
    left. cbn. do 2 f_equal. symmetry in Hre.
    eapply exits_process_entry, Hre.
  - intros Ho. rewrite Hstep. unfold ended_among. by rewrite Ho.
  - intros Ho mem1. by apply Hexit.
  - intros Ho Hmem Hn. apply (Hexit None Ho); [by rewrite Hmem|].
    apply thread_context_destroy_Ok; [done|by left].
  - done.
  - intros before sum0 ctx0 mem0 r0. by apply entries_refused.
  - intros before ctx0 mem0 errno0 r0 Ho.
    unfold traverse_directory, safe_opendir. rewrite Ho.
    destruct (process_directory_entries sys dir_name
                (before ++ d_name :: rest) 0 c ctx0 mem0)
      as [[[sum' ctx'] mem']| |] eqn:He; cbn; [|done..].
    by apply entries_refused in He.
Qed.

(** The last worker at work in [R], the other one has returned. *)
Definition unsearchable_alone : Process :=
  {| ctx := ctx unsearchable_process;
     pool := [Reading 0 0 "R" ["x"%string] 0; Returned 0];
     stderr := []; mem := None |}.

Lemma lstat_failure_alone_witness :
  pool unsearchable_alone !! 0%nat = Some (Reading 0 0 "R" ["x"%string] 0)
  ∧ is_dot_or_dot_dot "x" = false
  ∧ lstat unsearchable_system (entry_path "R" "x") = None
  ∧ others_at_work (pool unsearchable_alone) 0 = false
  ∧ worker_step unsearchable_system unsearchable_alone 0
    = Some (Exited EXIT_FAILURE).
Proof.
  split; [reflexivity|]. split; [reflexivity|]. split; [reflexivity|].
  split; [reflexivity|].
  refine (proj1 (proj2 (proj2 (proj2
            (lstat_failure_alone unsearchable_system unsearchable_alone
               0 0 0 "R" "x" [] 0 eq_refl eq_refl eq_refl)))) _ _ _).
  - reflexivity.
  - reflexivity.
  - cbn. lia.
Defined.

(** ** The number of threads *)

(** C3. For the command line [mdu -j 0 dir], and for [mdu -j0 dir],
    [get_thread_amount] returns -1 and not 0: the test [*optarg < 1] looks at
    the first character of the argument, '0', whose code is 48, so the value
    is [atoi("0") - 1]. With no option it returns 0. The loop of [main] that
    creates the threads runs no round for -1, as for 0. *)
Theorem thread_amount_of_zero :
  (get_thread_amount ["mdu"; "-j"; "0"; "dir"]%string).1 = -1
  ∧ (get_thread_amount ["mdu"; "-j0"; "dir"]%string).1 = -1
  ∧ first_char "0" = 48
  ∧ (get_thread_amount ["mdu"; "dir"]%string).1 = 0
  ∧ (get_thread_amount ["mdu"; "-j"; "1"; "dir"]%string).1 = 0
  ∧ (get_thread_amount ["mdu"; "-j"; "4"; "dir"]%string).1 = 3
  ∧ spawned (-1) = 0%nat ∧ spawned 0 = 0%nat ∧ spawned 3 = 3%nat.
Proof. vm_compute. by repeat split. Qed.

(** ** The array of coordinators *)

(** A file system in which every path is an empty directory. *)
Definition directories_only : System :=
  {| lstat := λ _, Some (directory_stat 8);
     opendir := λ _, inr ["."; ".."]%string;
     strerror := λ _, ""%string |}.

Definition fresh_context : ThreadContext :=
  {| coordinator := []; capacity := 2; size := 2; dir_num := 0 |}.

(** The fields of a context that tell of the array. *)
Definition array_fields (r : outcome (ThreadContext * memory))
  : option (Z * Z * Z) :=
  match r with
  | Ok (ctx, _) => Some (capacity ctx, size ctx, dir_num ctx)
  | _ => None
  end.

(** C9. With seven directory arguments the seventh coordinator is stored
    outside the array. After four calls the array has been reallocated to
    [4 + 2 = 6] slots while [size] has been doubled to 8; the sixth call
    fills the last slot; in the seventh, [size <= dir_num] is [8 <= 7], so
    nothing is reallocated, and the store goes to [coordinator[6]]. *)
Theorem seventh_directory_overflows :
  array_fields
    (traverse_input_arguments directories_only 1
       ("mdu"%string :: replicate 4 "d"%string) fresh_context None)
  = Some (6, 8, 4)
  ∧ array_fields
      (traverse_input_arguments directories_only 1
         ("mdu"%string :: replicate 6 "d"%string) fresh_context None)
    = Some (6, 8, 6)
  ∧ expand_and_create_coordinator
      {| coordinator := replicate 6 (seed ("d"%string, directory_stat 8));
         capacity := 6; size := 8; dir_num := 7 |} None
    = Fault
  ∧ traverse_input_arguments directories_only 1
      ("mdu"%string :: replicate 7 "d"%string) fresh_context None
    = Fault
  ∧ boot directories_only ("mdu"%string :: replicate 7 "d"%string) None
    = Fault.
Proof. vm_compute. by repeat split. Qed.

(** ** The results *)

(** The arguments of index [i] on that [is_flag_arg] does not reject. *)
Fixpoint path_arguments (optind i : Z) (args : list string) : list string :=
  match args with
  | [] => []
  | arg :: rest =>
      if is_flag_arg optind i then path_arguments optind (i + 1) rest
      else arg :: path_arguments optind (i + 1) rest
  end.

(** The context of the small file system when its workers have returned. *)
Definition small_context : ThreadContext :=
  {| coordinator :=
       [{| active_threads := 0; tot_sum := 19; dir_queue := [] |}];
     capacity := 2; size := 2; dir_num := 1 |}.

(** C8. For [mdu f -j1 R], with the file [f] of 16 blocks and the directory
    [R] of the small file system, the path arguments are [f] and [R], and one
    line is written, the one of [R]. [getopt] takes [-j1] as the option with
    its value and leaves [optind] at 3; [is_flag_arg] holds the arguments at
    [optind - 2] and [optind - 1] for the option and its value, so it
    rejects [f], at index 1, together with [-j1]: neither
    [process_argument] nor [print_results] looks at [f]. With the value
    apart, [mdu f -j 1 R], there is a line for each of them. *)
Theorem attached_option_loses_a_line :
  (get_thread_amount ["mdu"; "f"; "-j1"; "R"]%string).1 = 0
  ∧ optind (get_thread_amount ["mdu"; "f"; "-j1"; "R"]%string).2 = 3%nat
  ∧ argv (get_thread_amount ["mdu"; "f"; "-j1"; "R"]%string).2
    = ["mdu"; "f"; "-j1"; "R"]%string
  ∧ is_flag_arg 3 1 = true ∧ is_flag_arg 3 2 = true
  ∧ is_flag_arg 3 3 = false
  ∧ lstat small_system "f" = Some (file_stat 16)
  ∧ lstat small_system "R" = Some (directory_stat 8)
  ∧ print_results small_system 3 ["mdu"; "f"; "-j1"; "R"]%string
      small_context None
    = ([result_line 19 "R"], Ok ())
  ∧ main_run small_system small_system ["mdu"; "f"; "-j1"; "R"]%string None
      [result_line 19 "R"] (Exited EXIT_SUCCESS)
  ∧ main_run small_system small_system ["mdu"; "f"; "-j"; "1"; "R"]%string
      None [result_line 16 "f"; result_line 19 "R"] (Exited EXIT_SUCCESS).
Proof.
  assert (Hmain : ∀ arguments out,
            (∃ x, boot small_system arguments None = Ok x
                  ∧ ∃ p, run_schedule small_system (replicate 20 0%nat)
                           (Running x.1) = Running p
                         ∧ finish small_system x.2 p
                           = Some (out, Exited EXIT_SUCCESS)) →
            main_run small_system small_system arguments None out
              (Exited EXIT_SUCCESS)).
  { intros arguments out ([p0 d] & Hboot & p & Hrun & Hfin).
    eapply run_finished; [exact Hboot| |exact Hfin].
    cbn [fst] in Hrun. rewrite <- Hrun. apply run_schedule_steps. }
  split_and!; try (vm_compute; reflexivity).
  - apply Hmain. eexists. split; [vm_compute; reflexivity|].
    eexists. split; vm_compute; reflexivity.
  - apply Hmain. eexists. split; [vm_compute; reflexivity|].
    eexists. split; vm_compute; reflexivity.
Qed.

(** *** A file of 2^31 blocks

    For a file of one tebibyte the line holds -2147483648, not the
    2147483648 blocks of the file. *)
Definition big_file_system : System :=
  {| lstat := λ path,
       if String.eqb path "big" then Some (file_stat 2147483648) else None;
     opendir := λ _, inl 20%positive;
     strerror := λ _, "Not a directory"%string |}.

(** X19. [print_results] keeps the blocks of a file in an [int]: for a file
    of 2^31 blocks, one tebibyte, the line holds -2147483648. *)
Theorem big_file_line :
  lstat big_file_system "big" = Some (file_stat 2147483648)
  ∧ is_dictionary (file_stat 2147483648) = false
  ∧ print_results big_file_system 1 ["mdu"; "big"]%string fresh_context None
    = ([result_line (-2147483648) "big"], Ok ())
  ∧ result_line (-2147483648) "big" ≠ result_line 2147483648 "big".
Proof. vm_compute. by repeat split. Qed.

(** ** A fatal error while the results are printed *)

(** Two files, [a] of 1 block and [b] of 2 blocks; by the time the results
    are printed, [b] is gone. *)
Definition two_files : System :=
  {| lstat := λ path,
       if String.eqb path "a" then Some (file_stat 1)
       else if String.eqb path "b" then Some (file_stat 2)
       else None;
     opendir := λ _, inl 20%positive;
     strerror := λ _, "Not a directory"%string |}.

Definition one_file_left : System :=
  {| lstat := λ path,
       if String.eqb path "a" then Some (file_stat 1) else None;
     opendir := λ _, inl 20%positive;
     strerror := λ _, "Not a directory"%string |}.

(** C5. [print_results] calls [safe_lstat] on every path argument again,
    between the lines it prints. For [mdu a b], when [b] is removed after the
    arguments were traversed, the line of [a] is written and then the
    process ends with [EXIT_FAILURE]: one of the two result lines is
    printed. *)
Theorem partial_results_are_printed :
  print_results one_file_left 1 ["mdu"; "a"; "b"]%string fresh_context None
  = ([result_line 1 "a"], Exit EXIT_FAILURE "lstat")
  ∧ main_run two_files one_file_left ["mdu"; "a"; "b"]%string None
      [result_line 1 "a"] (Exited EXIT_FAILURE)
  ∧ main_run two_files two_files ["mdu"; "a"; "b"]%string None
      [result_line 1 "a"; result_line 2 "b"] (Exited EXIT_SUCCESS).
Proof.
  split; [by vm_compute|].
  destruct (boot two_files ["mdu"; "a"; "b"]%string None)
    as [[p0 d]| |] eqn:Hboot; [|by vm_compute in Hboot..].
  destruct (run_schedule two_files [0%nat] (Running p0)) as [p| |] eqn:Hend;
    [|vm_compute in Hboot; injection Hboot as <- <-; by vm_compute in Hend..].
  assert (Hrun : rtc (step two_files) (Running p0) (Running p))
    by (rewrite <- Hend; apply run_schedule_steps).
  vm_compute in Hboot. injection Hboot as <- <-.
  vm_compute in Hend. injection Hend as <-.
  split; (eapply run_finished; [by vm_compute|exact Hrun|by vm_compute]).
Qed.

(** ** The scan for activity while other workers go on

    The rounds of [get_coordinator_with_work] are taken above as single
    steps. A worker holds [mutex_work] during a round, and the counters are
    changed, and paths dequeued, under that lock only; but a worker at work
    for a coordinator enqueues on it, and adds to its total, without the
    lock. [others_may] is what may so happen to a coordinator between two
    reads of the scan of [are_threads_active]: nothing, unless its counter is
    positive. *)
Definition others_may (C C' : Coordinator) : Prop :=
  active_threads C' = active_threads C
  ∧ (active_threads C ≤ 0 → C' = C)
  ∧ ∃ more, dir_queue C' = dir_queue C ++ more.

(** [scanning i cs r cs']: the loop of [are_threads_active], from index [i]
    on and from the coordinators [cs], returns [r] and leaves [cs'], the
    other workers going on between its rounds. *)
Inductive scanning : nat → list Coordinator → bool → list Coordinator → Prop :=
| scanning_end i cs :
    cs !! i = None → scanning i cs false cs
| scanning_found i cs C :
    cs !! i = Some C →
    (0 <? get_counter_value C) || negb (queue_is_empty (dir_queue C)) = true →
    scanning i cs true cs
| scanning_next i cs C cs1 r cs' :
    cs !! i = Some C →
    (0 <? get_counter_value C) || negb (queue_is_empty (dir_queue C)) = false →
    Forall2 others_may cs cs1 →
    scanning (S i) cs1 r cs' →
    scanning i cs r cs'.

Lemma scanning_alone cs : ∀ i,
  scanning i cs (are_threads_active_from (drop i cs)) cs.
Proof.
  intros i. remember (length cs - i)%nat as k eqn:Hk. revert i Hk.
  induction k as [|k IH]; intros i Hk.
  - rewrite drop_ge by lia. apply scanning_end. apply lookup_ge_None. lia.
  - destruct (lookup_lt_is_Some_2 cs i) as [C HC]; [lia|].
    rewrite (drop_S _ _ _ HC). cbn [are_threads_active_from].
    destruct ((0 <? get_counter_value C)
              || negb (queue_is_empty (dir_queue C))) eqn:E.
    + by eapply scanning_found.
    + eapply scanning_next; [done|done| |apply IH; lia].
      apply Forall2_same_length_lookup. split; [done|].
      intros j C1 C2 H1 H2. assert (C1 = C2) as -> by congruence.
      split_and!; [done|done|]. exists []. by rewrite app_nil_r.
Qed.

(** X1. When the scan finds no activity, no coordinator was changed while it
    ran, and at its end every counter is at most zero and every queue empty:
    the null result of [get_coordinator_with_work] is decided on a state
    that the context had at one instant. *)
Theorem scan_is_a_snapshot (cs cs' : list Coordinator) :
  scanning 0 cs false cs' →
  cs' = cs ∧ Forall at_rest cs'
  ∧ are_threads_active_from cs' = false.
Proof.
  enough (∀ i r cs cs', scanning i cs r cs' → r = false →
            Forall at_rest (take i cs) →
            cs' = cs ∧ Forall at_rest cs') as H.
  { intros Hs. destruct (H _ _ _ _ Hs eq_refl) as [-> Hr]; [constructor|].
    split_and!; [done|done|]. by apply are_threads_active_false. }
  clear. intros i r cs cs' Hs.
  induction Hs as [i cs Hi|i cs C Hi Hc|i cs C cs1 r cs' Hi Hc Hothers Hs IH];
    intros Hr Hbefore; [|done|].
  - split; [done|]. rewrite take_ge in Hbefore; [done|].
    by apply lookup_ge_None.
  - apply orb_false_iff in Hc as [Hact Hq]. apply Z.ltb_ge in Hact.
    assert (Hrest : at_rest C).
    { split; [done|]. by destruct (dir_queue C). }
    assert (Hsame : ∀ j Cj, (j < S i)%nat → cs !! j = Some Cj →
              cs1 !! j = Some Cj).
    { intros j Cj Hj HCj.
      destruct (Forall2_lookup_l _ _ _ _ _ Hothers HCj) as (Cj' & -> & Ho).
      destruct Ho as (_ & Hkeep & _). f_equal. apply Hkeep.
      destruct (decide (j = i)) as [->|Hne].
      - assert (Cj = C) as -> by congruence. apply Hrest.
      - rewrite Forall_forall in Hbefore.
        apply (Hbefore Cj). apply list_elem_of_lookup. exists j.
        rewrite lookup_take_lt by lia. done. }
    destruct IH as [-> Hall]; [done| |].
    + rewrite Forall_forall. intros Cj [j Hj]%list_elem_of_lookup.
      apply lookup_take_Some in Hj as [Hj Hlt].
      destruct (Forall2_lookup_r _ _ _ _ _ Hothers Hj) as (Cj0 & Hj0 & _).
      pose proof (Hsame j Cj0 Hlt Hj0) as Hj1.
      assert (Cj0 = Cj) as -> by congruence.
      destruct (decide (j = i)) as [->|Hne].
      * by assert (Cj = C) as -> by congruence.
      * rewrite Forall_forall in Hbefore. apply Hbefore.
        apply list_elem_of_lookup. exists j.
        rewrite lookup_take_lt by lia. done.
    + split; [|done].
      apply list_eq. intros j.
      destruct (cs !! j) as [C0|] eqn:Hj.
      * destruct (Forall2_lookup_l _ _ _ _ _ Hothers Hj)
          as (C1 & Hj1 & Hact' & Hkeep & _).
        rewrite Hj1. f_equal. apply Hkeep. rewrite <- Hact'.
        rewrite Forall_forall in Hall.
        apply (Hall C1). by eapply list_elem_of_lookup_2.
      * apply lookup_ge_None. apply lookup_ge_None in Hj.
        by rewrite <- (Forall2_length _ _ _ Hothers).
Qed.

Definition resting : Coordinator :=
  {| active_threads := 0; tot_sum := 19; dir_queue := [] |}.

Lemma scan_is_a_snapshot_witness :
  scanning 0 [resting; resting] false [resting; resting]
  ∧ Forall at_rest [resting; resting].
Proof.
  assert (H : scanning 0 [resting; resting] false [resting; resting])
    by exact (scanning_alone [resting; resting] 0).
  split; [exact H|].
  exact (proj1 (proj2 (scan_is_a_snapshot _ _ H))).
Defined.

(** When a worker is in [get_coordinator_with_work], no counter is at the
    largest [int]. *)
Lemma counted_in_range p i errno :
  counted p → pool p !! i = Some (Seeking errno) →
  counters_in_range (ctx p).
Proof.
  intros Hc Hw. unfold counters_in_range. rewrite Forall_forall.
  intros C [c HC]%list_elem_of_lookup_1.
  rewrite (counted_active _ Hc _ _ HC).
  pose proof (in_flight_lt c _ _ _ Hw ltac:(done)).
  pose proof (counted_pool _ Hc). lia.
Qed.

(** ** The counters of active threads in the states the workers reach *)

Lemma in_flight_le c pool : (in_flight c pool ≤ length pool)%nat.
Proof.
  induction pool as [|w pool IH]; [done|]. cbn [in_flight length].
  destruct (decide (worker_root w = Some c)); lia.
Qed.

(** X3. In every state that the workers reach from the start of [main], with
    fewer than 2^31 workers: the counter of a coordinator is the number of
    workers that have dequeued a path of it in [get_non_empty_coordinator]
    and not yet called [decrement_counter], so it lies between 0 and the
    number of workers; a worker that comes to [decrement_counter] finds its
    counter positive, so that the counter is lowered by one and the guard of
    [decrement_counter] never holds it back; and while a worker is in
    [get_coordinator_with_work], [increment_counter] raises any counter by
    one without wrapping around. *)
Theorem counters_count_workers (sys : System) (arguments : list string)
  (mem : memory) (p0 : Process) (d : getopt_data) (p : Process) :
  boot sys arguments mem = Ok (p0, d) →
  (get_thread_amount arguments).1 < INT_MAX →
  rtc (step sys) (Running p0) (Running p) →
  (∀ c C, coordinator (ctx p) !! c = Some C →
     get_counter_value C = Z.of_nat (in_flight c (pool p))
     ∧ 0 ≤ get_counter_value C ≤ Z.of_nat (length (pool p)))
  ∧ (∀ i errno c, pool p !! i = Some (Releasing errno c) →
       ∃ C, coordinator (ctx p) !! c = Some C
            ∧ 0 < get_counter_value C
            ∧ get_counter_value (decrement_counter C)
              = get_counter_value C - 1)
  ∧ (∀ i errno C, pool p !! i = Some (Seeking errno) →
       C ∈ coordinator (ctx p) →
       get_counter_value (increment_counter C) = get_counter_value C + 1).
Proof.
  intros Hboot Hthreads Hrun.
  destruct (reached _ _ _ _ _ _ Hboot Hthreads Hrun) as (Hc & _).
  unfold get_counter_value. split_and!.
  - intros c C HC. rewrite (counted_active _ Hc _ _ HC).
    pose proof (in_flight_le c (pool p)). lia.
  - intros i errno c Hw.
    destruct (counted_valid _ Hc i _ c Hw eq_refl) as [C HC].
    pose proof (in_flight_pos c _ _ _ Hw eq_refl) as Hpos.
    pose proof (counted_active _ Hc _ _ HC) as Hact.
    exists C. split; [done|]. split; [lia|].
    cbn [decrement_counter active_threads].
    destruct (0 <? active_threads C) eqn:E; [done|].
    apply Z.ltb_ge in E. lia.
  - intros i errno C Hw [c HC]%list_elem_of_lookup_1.
    pose proof (counted_active _ Hc _ _ HC) as Hact.
    pose proof (in_flight_lt c _ _ _ Hw ltac:(done)) as Hlt.
    pose proof (counted_pool _ Hc) as Hpool.
    cbn [increment_counter active_threads]. apply to_int_small.
    unfold INT_MIN, INT_MAX in *. lia.
Qed.

(** The small file system after eleven steps: the first worker has read [R]
    and added its entries to the total, and is about to call
    [decrement_counter]; the directory [R/S] waits in the queue. *)
Definition small_midway : Machine :=
  run_schedule small_system [0; 1; 2; 0; 1; 2; 0; 0; 0; 0; 0]%nat
    (Running small_start.1).

Lemma counters_count_workers_witness :
  boot small_system small_arguments None = Ok small_start
  ∧ (get_thread_amount small_arguments).1 < INT_MAX
  ∧ ∃ p, small_midway = Running p
         ∧ pool p = [Releasing 0 0; Seeking 0; Seeking 0]
         ∧ ∃ C, coordinator (ctx p) !! 0%nat = Some C
                ∧ 0 < get_counter_value C
                ∧ get_counter_value (decrement_counter C)
                  = get_counter_value C - 1.
Proof.
  assert (Hboot : boot small_system small_arguments None = Ok small_start)
    by (vm_compute; reflexivity).
  assert (Hthreads : (get_thread_amount small_arguments).1 < INT_MAX)
    by (vm_compute; reflexivity).
  split_and!; [exact Hboot|exact Hthreads|].
  destruct small_midway as [p| |] eqn:Hmid; [|by vm_compute in Hmid..].
  exists p. split; [done|].
  assert (Hpool : pool p = [Releasing 0 0; Seeking 0; Seeking 0]).
  { vm_compute in Hmid. by injection Hmid as <-. }
  split; [exact Hpool|].
  refine (proj1 (proj2
            (counters_count_workers small_system small_arguments None
               small_start.1 small_start.2 p _ Hthreads _)) 0%nat 0 0%nat _).
  - by destruct small_start.
  - rewrite <- Hmid. apply run_schedule_steps.
  - by rewrite Hpool.
Defined.

(** ** After the first return *)

(** No worker is between a dequeue and its [decrement_counter], and every
    coordinator is at rest. *)
Definition all_done (p : Process) : Prop :=
  Forall at_rest (coordinator (ctx p))
  ∧ ∀ i w, pool p !! i = Some w → worker_root w = None.

Lemma all_done_transition sys p i p' :
  all_done p → transition sys p i p' →
  all_done p' ∧ ctx p' = ctx p ∧ stderr p' = stderr p.
Proof.
  intros [Hrest Hidle] Ht.
  destruct Ht as
    [errno c C path rest mem' Hw HC Hq Hbefore Hm
    |errno mem' Hw Hall Hm
    |errno c dir_name e Hw Ho
    |errno c dir_name names Hw Ho
    |errno c dir_name d_name rest sum Hw Hdot
    |errno c dir_name d_name rest sum mem' st Hw Hdot Hm Hl Hdir
    |errno c dir_name d_name rest sum mem1 mem2 mem3 st C Hw Hdot H1 H2 H3
       Hl Hdir HC
    |errno c dir_name sum Hw
    |errno c Hw];
    try (by pose proof (Hidle _ _ Hw)).
  - rewrite Forall_forall in Hrest.
    destruct (Hrest C (list_elem_of_lookup_2 _ _ _ HC)) as [_ Hnil].
    congruence.
  - split; [|done]. split; [done|]. cbn [pool].
    intros k w [[-> ->]|[_ Hk]]%lookup_pool_insert; [done|by eapply Hidle].
Qed.

(** X4. Once a worker has returned from [thread_handler], in a run from the
    start of [main] with fewer than 2^31 workers, the work is over for all:
    every counter is zero and every queue empty; every other worker is in
    [get_coordinator_with_work] or has returned; a round of
    [get_coordinator_with_work] gives the null result and changes nothing;
    and whatever the workers still do, the coordinators with their totals
    stay as they are, and nothing more is written to stderr. *)
Theorem returned_means_done (sys : System) (arguments : list string)
  (mem0 : memory) (p0 : Process) (d : getopt_data) (p : Process) (j : nat)
  (status : Z) :
  boot sys arguments mem0 = Ok (p0, d) →
  (get_thread_amount arguments).1 < INT_MAX →
  rtc (step sys) (Running p0) (Running p) →
  pool p !! j = Some (Returned status) →
  Forall (λ C, get_counter_value C = 0 ∧ queue_is_empty (dir_queue C) = true)
    (coordinator (ctx p))
  ∧ (∀ i w, pool p !! i = Some w →
       (∃ errno, w = Seeking errno) ∨ (∃ exit_status, w = Returned exit_status))
  ∧ get_coordinator_with_work (ctx p) (mem p) = Ok (NoWork, ctx p, mem p)
  ∧ (∀ q, rtc (step sys) (Running p) (Running q) →
       ctx q = ctx p ∧ stderr q = stderr p).
Proof.
  intros Hboot Hthreads Hrun Hret.
  destruct (reached _ _ _ _ _ _ Hboot Hthreads Hrun) as (Hc & Hs & _).
  assert (Hrest : Forall at_rest (coordinator (ctx p))) by (apply Hs; eauto).
  assert (Hdone : all_done p).
  { split; [done|]. intros i w Hw.
    destruct (worker_root w) as [c|] eqn:Hroot; [|done].
    destruct (at_work_not_at_rest p i w c Hc Hw Hroot Hrest). }
  split_and!.
  - rewrite Forall_forall in Hrest |- *.
    intros C HC. destruct (Hrest C HC) as [Hle Hnil].
    apply list_elem_of_lookup_1 in HC as [c HC].
    unfold get_counter_value. rewrite Hnil. split; [|done].
    rewrite (counted_active _ Hc _ _ HC) in Hle |- *. lia.
  - intros i w Hw. pose proof (proj2 Hdone i w Hw) as Hroot.
    destruct w; try done; eauto.
  - unfold get_coordinator_with_work, are_threads_active.
    by rewrite (proj2 (are_threads_active_false _) Hrest).
  - intros q Hq.
    enough (all_done q ∧ ctx q = ctx p ∧ stderr q = stderr p) as (_ & ? & ?);
      [done|].
    revert Hq.
    apply (rtc_running_ind sys
             (λ q, all_done q ∧ ctx q = ctx p ∧ stderr q = stderr p));
      [done|].
    intros p1 i p2 (Hd1 & Hctx & Herr) Ht.
    destruct (all_done_transition _ _ _ _ Hd1 Ht) as (Hd2 & Hctx2 & Herr2).
    split_and!; [done|congruence|congruence].
Qed.

Lemma returned_means_done_witness :
  boot small_system small_arguments None = Ok small_start
  ∧ (get_thread_amount small_arguments).1 < INT_MAX
  ∧ ∃ p, small_end = Running p
         ∧ pool p !! 0%nat = Some (Returned 0)
         ∧ get_coordinator_with_work (ctx p) (mem p)
           = Ok (NoWork, ctx p, mem p).
Proof.
  assert (Hboot : boot small_system small_arguments None = Ok small_start)
    by (vm_compute; reflexivity).
  assert (Hthreads : (get_thread_amount small_arguments).1 < INT_MAX)
    by (vm_compute; reflexivity).
  split_and!; [exact Hboot|exact Hthreads|].
  destruct small_end as [p| |] eqn:Hend; [|by vm_compute in Hend..].
  exists p.
  assert (Hret : pool p !! 0%nat = Some (Returned 0)).
  { vm_compute in Hend. by injection Hend as <-. }
  split; [done|]. split; [exact Hret|].
  refine (proj1 (proj2 (proj2
            (returned_means_done small_system small_arguments None
               small_start.1 small_start.2 p 0 0 _ Hthreads _ Hret)))).
  - by destruct small_start.
  - rewrite <- Hend. apply run_schedule_steps.
Defined.

(** ** The option among the path arguments *)

Lemma skip_nonoptions_app pre a rest : ∀ k,
  Forall (λ a, nonoption_p a = true) pre → nonoption_p a = false →
  skip_nonoptions (pre ++ a :: rest) k = (k + length pre)%nat.
Proof.
  induction pre as [|b pre IH]; intros k Hpre Ha; cbn [app skip_nonoptions].
  - rewrite Ha. cbn [length]. lia.
  - apply Forall_cons in Hpre as [-> Hpre]. rewrite IH by done.
    cbn [length]. lia.
Qed.

Lemma skip_nonoptions_all l : ∀ k,
  Forall (λ a, nonoption_p a = true) l →
  skip_nonoptions l k = (k + length l)%nat.
Proof.
  induction l as [|b l IH]; intros k Hl; cbn [skip_nonoptions length]; [lia|].
  apply Forall_cons in Hl as [-> Hl]. rewrite IH by done. lia.
Qed.

(** The first call of [getopt] comes to the element [a] of [argv], the
    first one that is an option. *)
Lemma getopt_advance_option prog pre a rest :
  Forall (λ a, nonoption_p a = true) pre → nonoption_p a = false →
  a ≠ "--"%string →
  getopt_advance (getopt_initialize (prog :: pre ++ a :: rest))
  = inr {| argv := prog :: pre ++ a :: rest; optind := S (length pre);
           first_nonopt := 1; last_nonopt := S (length pre);
           nextchar := match a with String _ s => s | _ => ""%string end;
           optarg := "" |}.
Proof.
  intros Hpre Ha Hdash. unfold getopt_advance, getopt_initialize.
  cbn [argv optind first_nonopt last_nonopt length].
  change (Nat.min 1 1) with 1%nat. change (1 =? 1)%nat with true.
  cbn [negb andb drop]. rewrite drop_0, skip_nonoptions_app by done.
  change (1 + length pre)%nat with (S (length pre)).
  assert (Hlook : (prog :: pre ++ a :: rest) !! S (length pre) = Some a).
  { change ((pre ++ a :: rest) !! length pre = Some a).
    by apply list_lookup_middle. }
  rewrite Hlook.
  rewrite (bool_decide_eq_false_2 (Some a = Some "--"%string))
    by congruence.
  rewrite andb_false_r.
  assert ((S (length pre) =? S (length (pre ++ a :: rest)))%nat = false)
    as ->.
  { apply Nat.eqb_neq. rewrite length_app. cbn [length]. lia. }
  by rewrite Hlook.
Qed.

Lemma path_arguments_app optind l1 l2 : ∀ i,
  path_arguments optind i (l1 ++ l2)
  = path_arguments optind i l1
    ++ path_arguments optind (i + Z.of_nat (length l1)) l2.
Proof.
  induction l1 as [|a l1 IH]; intros i; cbn [app path_arguments length].
  - by rewrite Z.add_0_r.
  - rewrite IH. replace (i + 1 + Z.of_nat (length l1))
      with (i + Z.of_nat (S (length l1))) by lia.
    by destruct (is_flag_arg optind i).
Qed.

Lemma path_arguments_all optind l : ∀ i,
  (optind - 1 < i ∨ i + Z.of_nat (length l) ≤ optind - 2) →
  path_arguments optind i l = l.
Proof.
  induction l as [|a l IH]; intros i Hi; cbn [path_arguments length] in *;
    [done|].
  rewrite IH by lia. unfold is_flag_arg.
  destruct (i =? optind - 2) eqn:E2; [apply Z.eqb_eq in E2; lia|].
  destruct (i =? optind - 1) eqn:E1; [apply Z.eqb_eq in E1; lia|]. done.
Qed.

Lemma path_arguments_flagged optind i a l :
  i = optind - 2 ∨ i = optind - 1 →
  path_arguments optind i (a :: l) = path_arguments optind (i + 1) l.
Proof.
  intros Hi. cbn [path_arguments]. unfold is_flag_arg.
  destruct Hi as [->| ->]; rewrite Z.eqb_refl; [done|by rewrite orb_true_r].
Qed.

(** What [get_thread_amount] comes to when no argument is an option, and
    when the first one that is an option is [-j] with its value in the next
    argument, or with its value attached. *)
Lemma get_thread_amount_run_plain prog pre :
  Forall (λ a, nonoption_p a = true) pre →
  get_thread_amount_run (prog :: pre)
  = (0, {| argv := prog :: pre; optind := 1; first_nonopt := 1;
           last_nonopt := S (length pre); nextchar := ""; optarg := "" |},
     0, []).
Proof.
  intros Hpre.
  assert (Hadv : getopt_advance (getopt_initialize (prog :: pre))
            = inl {| argv := prog :: pre; optind := 1; first_nonopt := 1;
                     last_nonopt := S (length pre); nextchar := "";
                     optarg := "" |}).
  { unfold getopt_advance, getopt_initialize.
    cbn [argv optind first_nonopt last_nonopt length].
    change (Nat.min 1 1) with 1%nat. change (1 =? 1)%nat with true.
    cbn [negb andb drop]. rewrite drop_0, skip_nonoptions_all by done.
    change (1 + length pre)%nat with (S (length pre)).
    rewrite Nat.eqb_refl. cbn [negb andb]. rewrite Nat.eqb_refl.
    by destruct pre. }
  unfold get_thread_amount_run. cbn [get_thread_amount_loop].
  unfold getopt. cbn [nextchar getopt_initialize].
  fold (getopt_initialize (prog :: pre)). by rewrite Hadv.
Qed.

Lemma get_thread_amount_run_apart prog pre n post :
  Forall (λ a, nonoption_p a = true) pre →
  get_thread_amount_run (prog :: pre ++ "-j"%string :: n :: post)
  = (if first_char n <? 1 then 0 else to_int (atoi n - 1),
     {| argv := prog :: pre ++ "-j"%string :: n :: post;
        optind := S (S (S (length pre)));
        first_nonopt := 1; last_nonopt := S (length pre);
        nextchar := ""; optarg := n |},
     if first_char n <? 1 then 0 else strtol_errno n 0, []).
Proof.
  intros Hpre.
  unfold get_thread_amount_run. cbn [get_thread_amount_loop].
  unfold getopt at 1. cbn [nextchar getopt_initialize].
  fold (getopt_initialize (prog :: pre ++ "-j"%string :: n :: post)).
  rewrite getopt_advance_option by done.
  cbn [nextchar optind argv first_nonopt last_nonopt].
  change (char_code "j" =? 106) with true. cbn iota.
  assert ((prog :: pre ++ "-j"%string :: n :: post)
            !! S (S (length pre)) = Some n) as ->.
  { change ((pre ++ "-j"%string :: n :: post) !! S (length pre)
            = Some n).
    rewrite (lookup_app_r pre) by lia.
    by replace (S (length pre) - length pre)%nat with 1%nat by lia. }
  cbn [optarg app]. change (-1 =? -1) with true.
  change (106 =? -1) with false. change (106 =? 106) with true. cbn iota.
  by destruct (first_char n <? 1).
Qed.

Lemma get_thread_amount_run_attached prog pre c value post :
  Forall (λ a, nonoption_p a = true) pre →
  get_thread_amount_run
    (prog :: pre ++ String "-" (String "j" (String c value)) :: post)
  = (if first_char (String c value) <? 1 then 0
     else to_int (atoi (String c value) - 1),
     {| argv := prog :: pre ++ String "-" (String "j" (String c value))
                  :: post;
        optind := S (S (length pre));
        first_nonopt := 1; last_nonopt := S (length pre);
        nextchar := ""; optarg := String c value |},
     if first_char (String c value) <? 1 then 0
     else strtol_errno (String c value) 0, []).
Proof.
  intros Hpre.
  set (option := String "-" (String "j" (String c value))).
  unfold get_thread_amount_run. cbn [get_thread_amount_loop].
  unfold getopt at 1. cbn [nextchar getopt_initialize].
  fold (getopt_initialize (prog :: pre ++ option :: post)).
  rewrite getopt_advance_option by done.
  unfold option. cbn [nextchar optind argv first_nonopt last_nonopt].
  change (char_code "j" =? 106) with true. cbn iota.
  cbn [optarg app]. change (106 =? -1) with false.
  change (106 =? 106) with true. cbn iota.
  by destruct (first_char (String c value) <? 1).
Qed.

(** A command line on which the option [-j], when there is one, comes with
    its value in the next argument, behind arguments that do not begin with
    a dash: [paths] are all the other arguments behind the name of the
    program. *)
Inductive command_line (arguments paths : list string) : Prop :=
| no_option prog :
    arguments = prog :: paths →
    Forall (λ a, nonoption_p a = true) paths →
    command_line arguments paths
| option_apart prog pre n post :
    arguments = prog :: pre ++ "-j"%string :: n :: post →
    paths = pre ++ post →
    Forall (λ a, nonoption_p a = true) pre →
    command_line arguments paths.

(** On such a command line [is_flag_arg] rejects the option and its value
    and nothing else, [argv] stays as it was and [getopt] writes nothing. *)
Lemma command_line_paths arguments paths :
  command_line arguments paths →
  path_arguments (Z.of_nat (optind (get_thread_amount arguments).2)) 1
    (drop 1 (argv (get_thread_amount arguments).2))
  = paths
  ∧ argv (get_thread_amount arguments).2 = arguments
  ∧ (get_thread_amount_run arguments).2 = [].
Proof.
  unfold get_thread_amount.
  intros [prog -> Hpre|prog pre n post -> -> Hpre].
  - rewrite get_thread_amount_run_plain by done.
    cbn [fst snd optind argv drop]. rewrite drop_0. split_and!; [|done..].
    apply path_arguments_all. left. lia.
  - rewrite get_thread_amount_run_apart by done.
    cbn [fst snd optind argv drop]. rewrite drop_0. split_and!; [|done..].
    rewrite path_arguments_app, path_arguments_all by lia.
    rewrite !path_arguments_flagged by lia.
    by rewrite path_arguments_all by lia.
Qed.

(** The directories among paths, each with what [lstat] answers for it. *)
Fixpoint directories (sys : System) (paths : list string)
  : list (string * stat) :=
  match paths with
  | [] => []
  | path :: rest =>
      match lstat sys path with
      | Some st =>
          if is_dictionary st then (path, st) :: directories sys rest
          else directories sys rest
      | None => directories sys rest
      end
  end.

Lemma directory_arguments_paths sys optind args : ∀ i,
  directory_arguments sys optind i args
  = directories sys (path_arguments optind i args).
Proof.
  induction args as [|arg rest IH]; intros i;
    cbn [directory_arguments path_arguments]; [done|].
  destruct (is_flag_arg optind i); [apply IH|]. cbn [directories].
  by rewrite IH.
Qed.

(** X10. The option [-j] with its value in the next argument may stand among
    the path arguments, behind any number of them: [get_thread_amount]
    returns on it, with [argv] as it was and [optind] behind the value, so
    that [is_flag_arg] rejects the option and its value, and all the other
    arguments, whatever they are, are path arguments. With no option at all
    [get_thread_amount] returns 0 and every argument is a path argument. *)
Theorem option_among_paths (prog : string) (pre post : list string)
  (n : string) :
  Forall (λ a, nonoption_p a = true) pre →
  ((get_thread_amount (prog :: pre)).1 = 0
   ∧ path_arguments
       (Z.of_nat (optind (get_thread_amount (prog :: pre)).2)) 1
       (drop 1 (argv (get_thread_amount (prog :: pre)).2))
     = pre)
  ∧ (get_thread_amount (prog :: pre ++ "-j"%string :: n :: post)).1
    = (if first_char n <? 1 then 0 else to_int (atoi n - 1))
  ∧ argv (get_thread_amount (prog :: pre ++ "-j"%string :: n :: post)).2
    = prog :: pre ++ "-j"%string :: n :: post
  ∧ optind (get_thread_amount (prog :: pre ++ "-j"%string :: n :: post)).2
    = (length pre + 3)%nat
  ∧ path_arguments
      (Z.of_nat
         (optind
            (get_thread_amount (prog :: pre ++ "-j"%string :: n :: post)).2))
      1
      (drop 1
         (argv
            (get_thread_amount (prog :: pre ++ "-j"%string :: n :: post)).2))
    = pre ++ post.
Proof.
  intros Hpre. split.
  - destruct (command_line_paths (prog :: pre) pre) as (Hp & _);
      [by eapply no_option|].
    split; [|exact Hp]. unfold get_thread_amount.
    by rewrite get_thread_amount_run_plain.
  - destruct (command_line_paths (prog :: pre ++ "-j"%string :: n :: post)
                (pre ++ post)) as (Hp & Ha & _);
      [by eapply option_apart|].
    split_and!; [| |  |exact Hp]; unfold get_thread_amount;
      rewrite get_thread_amount_run_apart by done;
      cbn [fst snd argv optind]; [done|done|lia].
Qed.

Lemma option_among_paths_witness :
  (get_thread_amount ["mdu"; "a"; "-j"; "4"; "b"]%string).1 = 3
  ∧ path_arguments 4 1 ["a"; "-j"; "4"; "b"]%string = ["a"; "b"]%string.
Proof.
  destruct (option_among_paths "mdu" ["a"%string] ["b"%string] "4")
    as (_ & Hnum & Hargv & Hind & Hpaths).
  - by repeat constructor.
  - split; [exact Hnum|]. rewrite Hargv, Hind in Hpaths. exact Hpaths.
Defined.

(** X11. With the value attached to the option ([-j4]), [optind] is one less
    behind the option than [is_flag_arg] takes it to be: [is_flag_arg]
    rejects the option and the argument before it, so that the last path
    before the option is no path argument any more; it is neither counted
    nor printed. *)
Theorem attached_option_hides_a_path (prog : string) (pre post : list string)
  (c : ascii) (value : string) :
  Forall (λ a, nonoption_p a = true) pre →
  (get_thread_amount
     (prog :: pre ++ String "-" (String "j" (String c value)) :: post)).1
  = (if first_char (String c value) <? 1 then 0
     else to_int (atoi (String c value) - 1))
  ∧ optind
      (get_thread_amount
         (prog :: pre ++ String "-" (String "j" (String c value)) :: post)).2
    = (length pre + 2)%nat
  ∧ path_arguments
      (Z.of_nat
         (optind
            (get_thread_amount
               (prog :: pre ++ String "-" (String "j" (String c value))
                  :: post)).2))
      1
      (drop 1
         (argv
            (get_thread_amount
               (prog :: pre ++ String "-" (String "j" (String c value))
                  :: post)).2))
    = take (length pre - 1) pre ++ post.
Proof.
  intros Hpre. unfold get_thread_amount.
  rewrite get_thread_amount_run_attached by done.
  set (option := String "-" (String "j" (String c value))).
  cbn [fst snd argv optind drop]. rewrite drop_0.
  split_and!; [done|lia|].
  clear Hpre. generalize option. clear option. intros option.
  destruct pre as [|b pre _] using rev_ind.
  - cbn [drop app length take]. rewrite path_arguments_flagged by (cbn; lia).
    apply path_arguments_all. cbn. lia.
  - rewrite length_app. cbn [length].
    replace (length pre + 1 - 1)%nat with (length pre) by lia.
    rewrite take_app_length, <- app_assoc, path_arguments_app.
    rewrite path_arguments_all by lia. f_equal.
    cbn [app]. rewrite !path_arguments_flagged by lia.
    apply path_arguments_all. lia.
Qed.

Lemma attached_option_hides_a_path_witness :
  (get_thread_amount ["mdu"; "a"; "-j4"; "b"]%string).1 = 3
  ∧ path_arguments 3 1 ["a"; "-j4"; "b"]%string = ["b"%string].
Proof.
  destruct (attached_option_hides_a_path "mdu" ["a"%string] ["b"%string]
              "4" "") as (Hnum & Hind & Hpaths).
  - by repeat constructor.
  - split; [exact Hnum|]. rewrite Hind in Hpaths. exact Hpaths.
Defined.

(** ** The start of [main] *)

(** The array of coordinators as [create_thread_context] and the calls of
    [expand_and_create_coordinator] leave it: [dir_num] coordinators, at
    most six, in a block of 2, 4 or 6 slots, with [size] at 2, 4 or 8. *)
Definition array_sound (ctx : ThreadContext) : Prop :=
  dir_num ctx = Z.of_nat (length (coordinator ctx))
  ∧ dir_num ctx ≤ 6
  ∧ (capacity ctx, size ctx)
    = (if dir_num ctx <? 2 then (2, 2)
       else if dir_num ctx <? 4 then (4, 4) else (6, 8)).

Lemma expand_and_create_coordinator_Ok ctx mem ctx' mem' :
  expand_and_create_coordinator ctx mem = Ok (ctx', mem') →
  dir_num ctx' = dir_num ctx
  ∧ (capacity ctx', size ctx')
    = (if size ctx <=? dir_num ctx
       then (size ctx + 2, to_int (size ctx * 2))
       else (capacity ctx, size ctx))
  ∧ 0 ≤ dir_num ctx - 1 < capacity ctx'.
Proof.
  unfold expand_and_create_coordinator. intros H.
  apply bind_Ok in H as ([[cap1 size1] mem1] & Hfirst & H).
  apply bind_Ok in H as ([c mem2] & _ & H).
  destruct (0 <=? dir_num ctx - 1) eqn:H0; [|done].
  destruct (dir_num ctx - 1 <? cap1) eqn:H1; [|done].
  cbn [andb] in H. injection H as <- <-. cbn [dir_num capacity size].
  apply Z.leb_le in H0. apply Z.ltb_lt in H1.
  split; [done|]. split; [|done].
  destruct (size ctx <=? dir_num ctx).
  - apply bind_Ok in Hfirst as (m & _ & Hfirst). by injection Hfirst as <- <- _.
  - by injection Hfirst as <- <- _.
Qed.

Lemma enqueue_on_fields c value ctx mem ctx' mem' :
  enqueue_on c value ctx mem = Ok (ctx', mem') →
  dir_num ctx' = dir_num ctx ∧ capacity ctx' = capacity ctx
  ∧ size ctx' = size ctx.
Proof.
  unfold enqueue_on. destruct (coordinator ctx !! c); [|done]. intros H.
  apply bind_Ok in H as ([q m] & _ & H). by injection H as <- <-.
Qed.

Lemma process_argument_array sys optind i arg ctx mem ctx' mem' :
  process_argument sys optind i arg ctx mem = Ok (ctx', mem') →
  array_sound ctx →
  array_sound ctx' ∧ (is_flag_arg optind i = false → is_Some (lstat sys arg)).
Proof.
  intros H (Hn & Hsix & Harray).
  assert (Hs : seeded ctx) by (split; [done|unfold INT_MAX; lia]).
  destruct (process_argument_Ok _ _ _ _ _ _ _ _ H Hs) as [Hcs [Hn' _]].
  revert H Hcs. unfold process_argument. cbn [directory_arguments].
  destruct (is_flag_arg optind i); cbn [negb].
  { intros [= <- <-] _. by split. }
  unfold safe_lstat. destruct (lstat sys arg) as [st|];
    [|by intros ?%destroy_and_exit_bind].
  cbn [mbind outcome_bind].
  destruct (is_dictionary st); [|intros [= <- <-] _; by split].
  intros H Hcs. split; [|by eauto].
  apply bind_Ok in H as ([ctx1 mem1] & Hexp & H).
  apply bind_Ok in H as ([ctx2 mem2] & Henq & H).
  injection H as <- <-.
  apply expand_and_create_coordinator_Ok in Hexp as (Hd1 & Ha1 & Hin).
  apply enqueue_on_fields in Henq as (Hd2 & Hc2 & Hs2).
  cbn [dir_num capacity size] in Hd1, Ha1, Hin.
  unfold array_sound, on_coordinator, set_coordinator in *.
  cbn [dir_num capacity size coordinator] in *.
  rewrite Hd2, Hd1 in Hn'. rewrite Hd2, Hc2, Hs2, Hd1.
  clear Hd2 Hc2 Hs2 Hd1.
  assert (Hinc : to_int (dir_num ctx + 1) = dir_num ctx + 1)
    by (apply to_int_small; unfold INT_MIN, INT_MAX; lia).
  rewrite Hinc in *. split; [done|].
  assert (Hcases : dir_num ctx = 0 ∨ dir_num ctx = 1 ∨ dir_num ctx = 2
                   ∨ dir_num ctx = 3 ∨ dir_num ctx = 4 ∨ dir_num ctx = 5
                   ∨ dir_num ctx = 6) by lia.
  clear Hn Hn' Hcs Hinc Hs.
  destruct Hcases as [E|[E|[E|[E|[E|[E|E]]]]]]; rewrite E in *;
    cbn in Harray; injection Harray as Hcap Hsize;
    rewrite Hcap, Hsize in Ha1; cbn [Z.leb Z.add Z.compare Pos.compare
      Pos.compare_cont Pos.add Pos.succ] in Ha1;
    try rewrite to_int_small in Ha1 by (unfold INT_MIN, INT_MAX; lia);
    injection Ha1 as Hc1 Hs1; rewrite Hc1 in Hin;
    try lia; (split; [lia|]); by rewrite Hc1, Hs1.
Qed.

Lemma traverse_arguments_array sys optind args : ∀ i ctx mem ctx' mem',
  traverse_arguments_from sys optind i args ctx mem = Ok (ctx', mem') →
  array_sound ctx →
  array_sound ctx'
  ∧ Forall (λ a, is_Some (lstat sys a)) (path_arguments optind i args).
Proof.
  induction args as [|arg rest IH]; intros i ctx mem ctx' mem' H Ha.
  - injection H as <- <-. by split.
  - cbn [traverse_arguments_from path_arguments] in *.
    apply bind_Ok in H as ([ctx1 mem1] & H1 & H).
    destruct (process_argument_array _ _ _ _ _ _ _ _ H1 Ha) as [Ha1 Hknown].
    destruct (IH _ _ _ _ _ H Ha1) as [Ha' Hrest]. split; [done|].
    destruct (is_flag_arg optind i); [done|]. constructor; auto.
Qed.

(** The start of [main] leaves a sound array, and [lstat] knew every path
    argument. *)
Lemma boot_array sys arguments mem p0 d :
  boot sys arguments mem = Ok (p0, d) →
  (2 ≤ length arguments)%nat
  ∧ array_sound (ctx p0)
  ∧ Forall (λ a, is_Some (lstat sys a))
      (path_arguments (Z.of_nat (optind d)) 1 (drop 1 (argv d))).
Proof.
  unfold boot, check_arguments.
  destruct (Z.of_nat (length arguments) <? 2) eqn:Hargc; [done|].
  apply Z.ltb_ge in Hargc. cbn [mbind outcome_bind].
  destruct (get_thread_amount_run arguments) as [[[thread_num d'] e] wr].
  destruct (thread_num <? 0); [done|].
  intros H. apply bind_Ok in H as ([ctx0 m0] & Hctx & H).
  apply bind_Ok in H as ([ctx1 m1] & Hseed & H).
  apply bind_Ok in H as (m2 & _ & H). injection H as <- <-.
  unfold create_thread_context in Hctx.
  apply bind_Ok in Hctx as (? & _ & Hctx).
  apply bind_Ok in Hctx as (? & _ & Hctx). injection Hctx as <- <-.
  apply traverse_arguments_array in Hseed as [Harray Hknown];
    [|by split_and!].
  cbn [ctx]. split_and!; [lia|done|done].
Qed.

(** X5. On a command line that has the option [-j] apart from its value, or
    no option, when [main] comes to start its workers: there are at least
    two arguments; [lstat] knew every path; the context holds one
    coordinator for every directory among the paths, in their order, each
    with its counter at zero, the blocks of the directory itself as its
    total and the path of the directory alone in its queue; [dir_num] is
    their number, which is at most six, the array having been reallocated to
    six slots at most; the number that [get_thread_amount] returned is not
    negative, and the workers, one more than that number, are all about to
    look for work, the invoking thread with the [errno] that [atoi] left;
    and nothing was written to stderr. *)
Theorem boot_seeds (sys : System) (arguments paths : list string)
  (mem : memory) (p0 : Process) (d : getopt_data) :
  boot sys arguments mem = Ok (p0, d) →
  command_line arguments paths →
  (2 ≤ length arguments)%nat
  ∧ Forall (λ a, is_Some (lstat sys a)) paths
  ∧ coordinator (ctx p0)
    = (λ a, {| active_threads := 0; tot_sum := to_int (st_blocks a.2);
               dir_queue := [a.1] |})
      <$> directories sys paths
  ∧ dir_num (ctx p0) = Z.of_nat (length (coordinator (ctx p0)))
  ∧ (length (coordinator (ctx p0)) ≤ 6)%nat
  ∧ 0 ≤ (get_thread_amount arguments).1
  ∧ pool p0
    = Seeking (errno_at_boot arguments)
        :: replicate (Z.to_nat (get_thread_amount arguments).1) (Seeking 0)
  ∧ stderr p0 = [].
Proof.
  intros Hboot Hline.
  destruct (boot_Ok _ _ _ _ _ Hboot) as (Hd & Hcs & Hpool & Herr & Hnum).
  destruct (boot_array _ _ _ _ _ Hboot) as (Hargc & (Hn & Hsix & _) & Hknown).
  destruct (command_line_paths _ _ Hline) as (Hpaths & _ & Hwritten).
  unfold roots in Hcs. rewrite directory_arguments_paths in Hcs.
  rewrite Hd, Hpaths in Hcs, Hknown.
  split_and!; [done|done|done|done|lia|done|done|].
  by rewrite Herr.
Qed.

Lemma boot_seeds_witness :
  boot small_system small_arguments None = Ok (small_start.1, small_start.2)
  ∧ command_line small_arguments ["f"; "R"]%string
  ∧ coordinator (ctx small_start.1)
    = (λ a, {| active_threads := 0; tot_sum := to_int (st_blocks a.2);
               dir_queue := [a.1] |})
      <$> [("R"%string, directory_stat 8)]
  ∧ (length (coordinator (ctx small_start.1)) ≤ 6)%nat
  ∧ pool small_start.1 = [Seeking 0; Seeking 0; Seeking 0]
  ∧ stderr small_start.1 = [].
Proof.
  assert (Hboot : boot small_system small_arguments None
                  = Ok (small_start.1, small_start.2))
    by (vm_compute; reflexivity).
  assert (Hline : command_line small_arguments ["f"; "R"]%string)
    by (by apply (option_apart _ _ "mdu" [] "3" ["f"; "R"]%string)).
  split; [exact Hboot|]. split; [exact Hline|].
  destruct (boot_seeds _ _ _ _ _ _ Hboot Hline)
    as (_ & _ & Hcs & _ & Hsix & _ & Hpool & Herr).
  split_and!; [exact Hcs|exact Hsix|exact Hpool|exact Herr].
Defined.

Lemma process_argument_runs sys optind i arg ctx :
  array_sound ctx →
  (is_flag_arg optind i = false → is_Some (lstat sys arg)) →
  dir_num ctx + Z.of_nat (length (directory_arguments sys optind i [arg])) ≤ 6 →
  ∃ ctx', process_argument sys optind i arg ctx None = Ok (ctx', None).
Proof.
  intros (Hn & Hsix & Harray) Hknown. unfold process_argument.
  cbn [directory_arguments].
  destruct (is_flag_arg optind i); cbn [negb]; [by eexists|].
  destruct Hknown as [st Hl]; [done|]. unfold safe_lstat. rewrite Hl.
  cbn [mbind outcome_bind].
  destruct (is_dictionary st); [|by eexists]. cbn [length]. intros Hroom.
  assert (Hinc : to_int (dir_num ctx + 1) = dir_num ctx + 1)
    by (apply to_int_small; unfold INT_MIN, INT_MAX; lia).
  rewrite Hinc. clear Hinc.
  unfold expand_and_create_coordinator. cbn [dir_num capacity size coordinator].
  destruct ctx as [cs cap sz n]. cbn [dir_num capacity size coordinator] in *.
  subst n.
  destruct cs as [|c1 [|c2 [|c3 [|c4 [|c5 [|c6 cs]]]]]];
    cbn [length] in *; try lia;
    cbn in Harray; injection Harray as -> ->;
    cbn -[to_int]; by eexists.
Qed.

Lemma traverse_arguments_runs sys optind args : ∀ i ctx,
  array_sound ctx →
  Forall (λ a, is_Some (lstat sys a)) (path_arguments optind i args) →
  dir_num ctx + Z.of_nat (length (directory_arguments sys optind i args)) ≤ 6 →
  ∃ ctx', traverse_arguments_from sys optind i args ctx None = Ok (ctx', None).
Proof.
  induction args as [|arg rest IH]; intros i ctx Ha Hknown Hroom;
    [by eexists|].
  rewrite directory_arguments_cons, length_app in Hroom.
  cbn [traverse_arguments_from path_arguments] in *.
  destruct (process_argument_runs sys optind i arg ctx Ha) as [ctx1 H1].
  { intros Hflag. rewrite Hflag in Hknown. by apply Forall_cons in Hknown as [? _]. }
  { lia. }
  rewrite H1. cbn [mbind outcome_bind].
  destruct (process_argument_array _ _ _ _ _ _ _ _ H1 Ha) as [Ha1 _].
  assert (Hs : seeded ctx).
  { destruct Ha as (? & ? & _). split; [done|unfold INT_MAX; lia]. }
  destruct (process_argument_Ok _ _ _ _ _ _ _ _ H1 Hs) as [Hcs _].
  apply IH; [done| |].
  - destruct (is_flag_arg optind i); [done|].
    by apply Forall_cons in Hknown as [_ ?].
  - destruct Ha as (Hn & _), Ha1 as (Hn1 & _).
    rewrite Hn1, Hcs, length_app, length_fmap. lia.
Qed.

(** X6. With memory that never runs out, on a command line that has the
    option [-j] apart from its value, or no option, [main] comes to start
    its workers whenever there are at least two arguments, the number that
    [get_thread_amount] returns is not negative, [lstat] knows every path,
    and at most six of the paths are directories. *)
Theorem boot_succeeds (sys : System) (arguments paths : list string) :
  command_line arguments paths →
  (2 ≤ length arguments)%nat →
  0 ≤ (get_thread_amount arguments).1 →
  Forall (λ a, is_Some (lstat sys a)) paths →
  (length (directories sys paths) ≤ 6)%nat →
  ∃ p0, boot sys arguments None = Ok (p0, (get_thread_amount arguments).2).
Proof.
  intros Hline Hargc Hnum Hknown Hsix.
  destruct (command_line_paths _ _ Hline) as (Hpaths & _ & _).
  revert Hnum Hpaths. unfold boot, check_arguments, get_thread_amount.
  destruct (Z.of_nat (length arguments) <? 2) eqn:E;
    [apply Z.ltb_lt in E; lia|].
  cbn [mbind outcome_bind].
  destruct (get_thread_amount_run arguments) as [[[thread_num d] e] wr].
  cbn [fst snd]. intros Hnum Hpaths.
  destruct (thread_num <? 0) eqn:Hneg; [apply Z.ltb_lt in Hneg; lia|].
  unfold create_thread_context. cbn.
  destruct (traverse_arguments_runs sys (Z.of_nat (optind d))
              (drop 1 (argv d)) 1
              {| coordinator := []; capacity := 2; size := 2; dir_num := 0 |})
    as [ctx' Hrun]; [by split_and!|by rewrite Hpaths| |].
  { rewrite directory_arguments_paths, Hpaths. cbn [dir_num]. lia. }
  unfold traverse_input_arguments. rewrite Hrun. cbn [mbind outcome_bind].
  assert (Hthreads : ∀ k, create_threads k None = Ok None)
    by (induction k; [done|by cbn]).
  rewrite Hthreads. cbn. by eexists.
Qed.

Lemma boot_succeeds_witness :
  command_line small_arguments ["f"; "R"]%string
  ∧ ∃ p0, boot small_system small_arguments None
          = Ok (p0, (get_thread_amount small_arguments).2).
Proof.
  assert (Hline : command_line small_arguments ["f"; "R"]%string)
    by (by apply (option_apart _ _ "mdu" [] "3" ["f"; "R"]%string)).
  split; [exact Hline|].
  apply (boot_succeeds small_system small_arguments ["f"; "R"]%string Hline).
  - vm_compute. lia.
  - vm_compute. discriminate.
  - repeat constructor; by eexists.
  - vm_compute. lia.
Defined.

(** X20. What the start of [main] makes of four command lines. For
    [mdu -x R], [getopt] writes its diagnostic to stderr and returns ['?'],
    the loop of [get_thread_amount] goes on, and [main] starts its one
    worker with the diagnostic on stderr and a coordinator for [R]. For
    [mdu -j -5 R], [get_thread_amount] returns -6, the size of the array of
    threads: undefined. For [mdu -j 99999999999999999999 R], [strtol]
    saturates and sets [errno] to [ERANGE], [atoi] gives -1 and
    [get_thread_amount] -2. For [mdu R -j], [getopt] finds no value and
    writes its diagnostic. *)
Theorem options_at_boot :
  (∃ p0 d,
     boot small_system ["mdu"; "-x"; "R"]%string None = Ok (p0, d)
     ∧ stderr p0 = ["mdu: invalid option -- 'x'"%string]
     ∧ pool p0 = [Seeking 0]
     ∧ dir_queue <$> coordinator (ctx p0) = [["R"%string]])
  ∧ (get_thread_amount ["mdu"; "-j"; "-5"; "R"]%string).1 = -6
  ∧ boot small_system ["mdu"; "-j"; "-5"; "R"]%string None = Fault
  ∧ (get_thread_amount ["mdu"; "-j"; "99999999999999999999"; "R"]%string).1
    = -2
  ∧ errno_at_boot ["mdu"; "-j"; "99999999999999999999"; "R"]%string = ERANGE
  ∧ boot small_system ["mdu"; "-j"; "99999999999999999999"; "R"]%string None
    = Fault
  ∧ written_at_boot ["mdu"; "R"; "-j"]%string
    = ["mdu: option requires an argument -- 'j'"%string].
Proof.
  split; [|vm_compute; by repeat split].
  eexists _, _. split; [vm_compute; reflexivity|]. by vm_compute.
Qed.

(** ** The exit status *)

(** X7. [collect_thread_exit_statuses] leaves [EXIT_FAILURE] in
    [*exit_status] when one of the joined threads returned [EXIT_FAILURE],
    and otherwise leaves it as the invoking thread's [thread_handler] set
    it. *)
Theorem collect_thread_exit_statuses_spec (values : list Z) (exit_status : Z) :
  collect_thread_exit_statuses values exit_status
  = if bool_decide (EXIT_FAILURE ∈ values) then EXIT_FAILURE else exit_status.
Proof.
  unfold collect_thread_exit_statuses. revert exit_status.
  induction values as [|value values IH]; intros exit_status; [done|].
  cbn [fold_left]. rewrite IH.
  destruct (value =? EXIT_FAILURE) eqn:E.
  - apply Z.eqb_eq in E as ->.
    rewrite (bool_decide_eq_true_2 (EXIT_FAILURE ∈ EXIT_FAILURE :: values))
      by (by left).
    by destruct (bool_decide (EXIT_FAILURE ∈ values)).
  - apply Z.eqb_neq in E.
    destruct (decide (EXIT_FAILURE ∈ values)) as [Hin|Hnin].
    + rewrite !bool_decide_eq_true_2; [done|by right|done].
    + rewrite !bool_decide_eq_false_2; [done| |done].
      intros [?|?]%elem_of_cons; [congruence|done].
Qed.

Lemma collect_success values : ∀ exit_status,
  EXIT_FAILURE ∉ values →
  collect_thread_exit_statuses values exit_status = exit_status.
Proof.
  unfold collect_thread_exit_statuses.
  induction values as [|value values IH]; intros exit_status Hnin; [done|].
  apply not_elem_of_cons in Hnin as [Hne Hnin]. cbn [fold_left].
  rewrite IH by done.
  destruct (value =? EXIT_FAILURE) eqn:E; [|done].
  apply Z.eqb_eq in E. congruence.
Qed.

(** The worker has met no failure: its [errno] is zero, or it has returned
    the status 0. *)
Definition unfailed (w : Worker) : Prop :=
  match w with
  | Seeking errno | Opening errno _ _ | Reading errno _ _ _ _
  | Releasing errno _ => errno = 0
  | Returned status => status = EXIT_SUCCESS
  end.

(** While nothing is written to stderr, no worker has met a failure. *)
Definition quiet (p : Process) : Prop :=
  stderr p = [] → ∀ i w, pool p !! i = Some w → unfailed w.

Lemma quiet_transition sys p i p' :
  quiet p → transition sys p i p' → quiet p'.
Proof.
  intros Hq Ht Herr k w.
  assert (Hbefore : stderr p = []).
  { destruct Ht; cbn [stderr] in Herr; try done;
      by apply app_eq_nil in Herr as [? _]. }
  specialize (Hq Hbefore).
  destruct Ht; cbn [pool stderr] in *;
    try (by apply app_eq_nil in Herr as [_ ?]);
    (intros [[-> ->]|[_ Hk]]%lookup_pool_insert; [|by eapply Hq]);
    match goal with
    | H : pool p !! i = Some _ |- _ => pose proof (Hq _ _ H) as Hw
    end; cbn in Hw |- *; try done.
  by rewrite Hw.
Qed.

(** X8. A run of the workers from the start of [main] that wrote nothing to
    stderr, the invoking thread having come with its [errno] at zero: no
    worker has met a failure, and when all have returned and [print_results]
    comes to its end, [main] exits with [EXIT_SUCCESS], having written the
    lines of [print_results]. The number of workers is below 2^31. *)
Theorem quiet_run_succeeds (sys sys_end : System) (arguments : list string)
  (mem0 : memory) (p0 : Process) (d : getopt_data) (p : Process)
  (out : list string) (m : Machine) :
  boot sys arguments mem0 = Ok (p0, d) →
  (get_thread_amount arguments).1 < INT_MAX →
  errno_at_boot arguments = 0 →
  rtc (step sys) (Running p0) (Running p) →
  stderr p = [] →
  finish sys_end d p = Some (out, m) →
  (∀ i w, pool p !! i = Some w → w = Returned EXIT_SUCCESS)
  ∧ out
    = (print_results sys_end (Z.of_nat (optind d)) (argv d) (ctx p)
         (mem p)).1
  ∧ ((∃ u, (print_results sys_end (Z.of_nat (optind d)) (argv d) (ctx p)
              (mem p)).2
           = Ok u) →
     m = Exited EXIT_SUCCESS).
Proof.
  intros Hboot Hthreads Herrno Hrun Herr Hfin.
  assert (Hq : quiet p).
  { revert Hrun. apply (rtc_running_ind sys quiet).
    - destruct (boot_Ok _ _ _ _ _ Hboot) as (_ & _ & Hpool & _).
      intros _ i w. rewrite Hpool, Herrno.
      destruct i as [|i]; cbn; [by intros [= <-]|].
      by intros [-> _]%lookup_replicate.
    - intros p1 i p2. apply quiet_transition. }
  specialize (Hq Herr). revert Hfin. unfold finish.
  destruct (pool p) as [|w others] eqn:Hpool; [done|].
  destruct (exit_value w) as [s0|] eqn:Hw; [|done]. cbn [mbind option_bind].
  destruct (mapM exit_value others) as [values|] eqn:Hm; [|done].
  cbn [mbind option_bind].
  assert (Hdestroy : thread_context_destroy (ctx p) (mem p) = Ok ()).
  { eapply destroy_at_end; [done..|]. rewrite Hpool.
    by eapply joined_all_returned. }
  assert (Hall : ∀ i w', (w :: others) !! i = Some w' →
            w' = Returned EXIT_SUCCESS).
  { intros i w' Hi. pose proof (Hq i w' Hi) as Hu.
    destruct i as [|i].
    - injection Hi as <-. destruct w; try done. cbn in Hu. by rewrite Hu.
    - cbn in Hi. apply mapM_Some in Hm.
      destruct (Forall2_lookup_l _ _ _ _ _ Hm Hi) as (s & _ & Hs).
      destruct w'; try done. cbn in Hu. by rewrite Hu. }
  assert (s0 = EXIT_SUCCESS) as ->.
  { pose proof (Hall 0%nat w eq_refl) as ->. by injection Hw as <-. }
  assert (Hnone : EXIT_FAILURE ∉ values).
  { intros [k Hk]%list_elem_of_lookup_1. apply mapM_Some in Hm.
    destruct (Forall2_lookup_r _ _ _ _ _ Hm Hk) as (w' & Hw' & Hv).
    pose proof (Hall (S k) w' Hw') as ->. by vm_compute in Hv. }
  rewrite collect_success by done. rewrite Hdestroy.
  destruct (print_results sys_end _ _ _ _) as [out' r].
  intros [= <- <-]. split_and!; [done|done|].
  cbn [snd]. by intros [u ->].
Qed.

Lemma quiet_run_succeeds_witness :
  boot small_system small_arguments None = Ok (small_start.1, small_start.2)
  ∧ (get_thread_amount small_arguments).1 < INT_MAX
  ∧ errno_at_boot small_arguments = 0
  ∧ ∃ p, small_end = Running p ∧ stderr p = []
         ∧ finish small_system small_start.2 p
           = Some ([result_line 16 "f"; result_line 19 "R"],
                   Exited EXIT_SUCCESS).
Proof.
  assert (Hboot : boot small_system small_arguments None
                  = Ok (small_start.1, small_start.2))
    by (vm_compute; reflexivity).
  assert (Hthreads : (get_thread_amount small_arguments).1 < INT_MAX)
    by (vm_compute; reflexivity).
  assert (Herrno : errno_at_boot small_arguments = 0)
    by (vm_compute; reflexivity).
  split; [exact Hboot|]. split; [exact Hthreads|]. split; [exact Herrno|].
  destruct small_end as [p| |] eqn:Hend; [|by vm_compute in Hend..].
  exists p. split; [done|].
  assert (Hrun : rtc (step small_system) (Running small_start.1) (Running p))
    by (rewrite <- Hend; apply run_schedule_steps).
  assert (Herr : stderr p = []).
  { vm_compute in Hend. by injection Hend as <-. }
  split; [exact Herr|].
  destruct (finish small_system small_start.2 p) as [[out m]|] eqn:Hfin.
  - destruct (quiet_run_succeeds _ _ _ _ _ _ _ _ _ Hboot Hthreads Herrno
                Hrun Herr Hfin) as (_ & -> & Hm).
    vm_compute in Hend. injection Hend as <-.
    rewrite Hm; [vm_compute; reflexivity|]. by eexists.
  - exfalso. vm_compute in Hend. injection Hend as <-.
    by vm_compute in Hfin.
Defined.

(** ** A worker that runs alone through a directory *)

Lemma run_schedule_ended sys schedule m :
  (∀ p, m ≠ Running p) → run_schedule sys schedule m = m.
Proof. intros Hm. destruct schedule, m; try done. by destruct (Hm p). Qed.

Lemma others_at_work_insert (pool : list Worker) i w :
  others_at_work (<[i := w]> pool) i = others_at_work pool i.
Proof.
  unfold others_at_work. f_equal. revert i.
  induction pool as [|w0 pool IH]; intros [|i]; cbn; try done.
  by rewrite <- IH.
Qed.

Lemma others_at_work_insert_among {A : Type} (pool : list Worker) i w
  (r : outcome A) :
  ended_among (<[i := w]> pool) i r = ended_among pool i r.
Proof. unfold ended_among. by rewrite others_at_work_insert. Qed.

(** The rounds of the loop of [process_directory_entries], and the call of
    [update_total_sum] behind it, as steps of worker [i]. *)
Lemma reading_alone sys i errno c dir_name : ∀ directory p sum,
  pool p !! i = Some (Reading errno c dir_name directory sum) →
  run_schedule sys (replicate (S (length directory)) i) (Running p)
  = match process_directory_entries sys dir_name directory sum c (ctx p)
            (mem p) with
    | Ok (sum', ctx', mem') =>
        Running {| ctx := on_coordinator c (update_total_sum sum') ctx';
                   pool := <[i := Releasing errno c]> (pool p);
                   stderr := stderr p; mem := mem' |}
    | r => ended_among (pool p) i r
    end.
Proof.
  induction directory as [|d_name rest IH]; intros p sum Hw.
  - cbn [length replicate run_schedule process_directory_entries].
    unfold worker_step. rewrite Hw. done.
  - cbn [length process_directory_entries].
    change (replicate (S (S (length rest))) i)
      with (i :: replicate (S (length rest)) i).
    cbn [run_schedule]. unfold worker_step. rewrite Hw.
    cbn [mbind option_bind].
    destruct (process_entry sys dir_name d_name sum c (ctx p) (mem p))
      as [[[sum1 ctx1] mem1]|status dg|]; cbn [mbind outcome_bind];
      [|apply run_schedule_ended; intros q Hq;
        by apply ended_among_running in Hq..].
    rewrite (IH _ sum1); cbn [pool ctx mem stderr].
    + destruct (process_directory_entries sys dir_name rest sum1 c ctx1 mem1)
        as [[[sum2 ctx2] mem2]| |];
        [|by rewrite others_at_work_insert_among..].
      by rewrite list_insert_insert_eq.
    + apply list_lookup_insert_eq. by eapply lookup_lt_Some.
Qed.

(** The steps that a worker takes from [safe_opendir] to the end of
    [traverse_directory]. *)
Definition traverse_steps (sys : System) (dir_name : string) : nat :=
  match opendir sys dir_name with
  | inl _ => 1
  | inr directory => 2 + length directory
  end.

(** X9. The steps of a worker are the function [traverse_directory] cut at
    every access to the shared context: a worker that holds a path it has
    dequeued, and takes the steps of one [traverse_directory] with no other
    worker in between, leaves what the call of [traverse_directory] leaves
    (the context, the memory, its own [errno], the lines on stderr) and is
    about to call [decrement_counter]; and it ends the process as the call
    does, when [lstat] or an allocation fails and no other worker is at
    work: beside a worker at work the end is undefined. *)
Theorem traverse_directory_alone (sys : System) (p : Process) (i : nat)
  (errno : Z) (c : nat) (dir_name : string) :
  pool p !! i = Some (Opening errno c dir_name) →
  run_schedule sys (replicate (traverse_steps sys dir_name) i) (Running p)
  = match traverse_directory sys dir_name c (ctx p) (mem p) errno with
    | Ok (ctx', mem', errno', messages) =>
        Running {| ctx := ctx'; pool := <[i := Releasing errno' c]> (pool p);
                   stderr := stderr p ++ messages; mem := mem' |}
    | r => ended_among (pool p) i r
    end.
Proof.
  intros Hw. unfold traverse_steps, traverse_directory, safe_opendir.
  assert (Hlt : (i < length (pool p))%nat) by (by eapply lookup_lt_Some).
  destruct (opendir sys dir_name) as [e|directory] eqn:Ho.
  - cbn [replicate run_schedule]. unfold worker_step, safe_opendir.
    rewrite Hw. cbn [mbind option_bind]. by rewrite Ho.
  - change (replicate (2 + length directory) i)
      with (i :: replicate (S (length directory)) i).
    cbn [run_schedule]. unfold worker_step, safe_opendir.
    rewrite Hw. cbn [mbind option_bind]. rewrite Ho.
    rewrite (reading_alone sys i errno c dir_name directory _ 0)
      by (cbn [pool]; by apply list_lookup_insert_eq).
    cbn [pool ctx mem stderr].
    destruct (process_directory_entries sys dir_name directory 0 c (ctx p)
                (mem p)) as [[[sum ctx'] mem']| |]; cbn [mbind outcome_bind];
      [|by rewrite others_at_work_insert_among..].
    by rewrite list_insert_insert_eq.
Qed.

(** A worker of the small file system that has dequeued the path [R]. *)
Definition small_opening : Process :=
  {| ctx := {| coordinator :=
                 [{| active_threads := 1; tot_sum := 8; dir_queue := [] |}];
               capacity := 2; size := 2; dir_num := 1 |};
     pool := [Opening 0 0 "R"; Seeking 0; Seeking 0];
     stderr := []; mem := None |}.

Lemma traverse_directory_alone_witness :
  pool small_opening !! 0%nat = Some (Opening 0 0 "R")
  ∧ run_schedule small_system (replicate 6 0%nat) (Running small_opening)
    = Running {| ctx := {| coordinator :=
                             [{| active_threads := 1; tot_sum := 17;
                                 dir_queue := ["R/S"%string] |}];
                           capacity := 2; size := 2; dir_num := 1 |};
                 pool := [Releasing 0 0; Seeking 0; Seeking 0];
                 stderr := []; mem := None |}.
Proof.
  split; [reflexivity|].
  exact (traverse_directory_alone small_system small_opening 0 0 0 "R"
           eq_refl).
Defined.

(** ** The path of an entry *)

(** X12. When the lengths of the directory path and of the name of the entry,
    with the separator and the terminating null byte, fit in an [int]:
    [get_path_length] is the length of the path with its null byte, and
    [create_full_path], given the buffer it asks [calloc] for, returns the
    directory path, a slash and the name, cut nowhere. *)
Theorem create_full_path_exact (dir_name file_name : string)
  (ctx : ThreadContext) (mem mem' : memory) :
  strlen dir_name + strlen file_name + 2 ≤ INT_MAX →
  alloc mem = Some mem' →
  get_path_length file_name dir_name
  = strlen (dir_name +:+ "/" +:+ file_name) + 1
  ∧ create_full_path dir_name file_name ctx mem
    = Ok (dir_name +:+ "/" +:+ file_name, mem').
Proof.
  intros Hfit Hmem. split.
  - unfold get_path_length, strlen. rewrite !string_length_app.
    cbn [String.length]. unfold strlen in Hfit.
    rewrite to_int_small by (unfold INT_MIN, INT_MAX in *; lia). lia.
  - unfold create_full_path, safe_calloc. rewrite Hmem.
    cbn [mbind outcome_bind].
    by rewrite <- (entry_path_exact dir_name file_name Hfit).
Qed.

Lemma create_full_path_exact_witness :
  strlen "R/S" + strlen "b" + 2 ≤ INT_MAX
  ∧ create_full_path "R/S" "b" small_context (Some 1%nat)
    = Ok ("R/S/b"%string, Some 0%nat).
Proof.
  assert (H : strlen "R/S" + strlen "b" + 2 ≤ INT_MAX) by (by vm_compute).
  split; [exact H|].
  exact (proj2 (create_full_path_exact "R/S" "b" small_context (Some 1%nat)
                  (Some 0%nat) H eq_refl)).
Defined.

(** ** How [main] ends *)

Lemma exits_boot sys arguments mem :
  exits_with_failure (boot sys arguments mem).
Proof.
  unfold boot. apply exits_bind.
  { unfold check_arguments. destruct (_ <? 2); [|exits].
    by intros status dg [= <- _]. }
  intros _.
  destruct (get_thread_amount_run arguments) as [[[thread_num d] e] wr].
  destruct (thread_num <? 0); [exits|].
  apply exits_bind; [unfold create_thread_context, null_context; exits|].
  intros [ctx0 m0].
  apply exits_bind; [apply exits_traverse_arguments|]. intros [ctx1 m1].
  apply exits_bind; [|intros m2; exits].
  generalize (spawned thread_num). intros k. revert m1.
  induction k as [|k IH]; intros m1; cbn [create_threads]; [exits|].
  destruct (alloc m1); [apply IH|exits].
Qed.

(** X13. However [main] runs, the process ends with [EXIT_SUCCESS], with
    [EXIT_FAILURE], or in a fault; and it ends with [EXIT_SUCCESS] only
    when the start of [main] came to the workers, every worker has returned,
    and [print_results] came to its end, the lines on stdout being those of
    [print_results]. *)
Theorem main_exit_status (sys sys_end : System) (arguments : list string)
  (mem0 : memory) (out : list string) (m : Machine) :
  main_run sys sys_end arguments mem0 out m →
  m = Crashed ∨ m = Exited EXIT_FAILURE
  ∨ (m = Exited EXIT_SUCCESS
     ∧ ∃ p0 d p,
         boot sys arguments mem0 = Ok (p0, d)
         ∧ rtc (step sys) (Running p0) (Running p)
         ∧ Forall (λ w, is_returned w = true) (pool p)
         ∧ print_results sys_end (Z.of_nat (optind d)) (argv d) (ctx p)
             (mem p)
           = (out, Ok ())).
Proof.
  intros [r Hboot Hr|p0 d m' Hboot Hrun Hm|p0 d p out' m' Hboot Hrun Hfin].
  - destruct r as [x|status dg|]; [by destruct (Hr x)| |by left].
    right; left. cbn. f_equal. by eapply exits_boot.
  - destruct m' as [p|status|]; [by destruct (Hm p)| |by left].
    right; left. f_equal.
    by apply exited_with_failure in Hrun as [?| ->].
  - revert Hfin. unfold finish.
    destruct (pool p) as [|w others] eqn:Hpool; [done|].
    destruct (exit_value w) as [s0|] eqn:Hw; [|done].
    cbn [mbind option_bind].
    destruct (mapM exit_value others) as [values|] eqn:Hv; [|done].
    cbn [mbind option_bind].
    destruct (print_results sys_end _ _ _ _) as [out1 r] eqn:Hprint.
    intros [= <- <-]. destruct r as [[]|status dg|]; [| |by left].
    + destruct (thread_context_destroy (ctx p) (mem p)); [|by left..].
      destruct (collect_thread_exit_statuses values s0 =? EXIT_SUCCESS);
        cbn [negb]; [|by right; left].
      right; right. split; [done|]. exists p0, d, p.
      split_and!; [done|done| |done].
      rewrite Hpool. constructor; [by destruct w|].
      apply mapM_Some in Hv. rewrite Forall_forall.
      intros w' [k Hk]%list_elem_of_lookup_1.
      destruct (Forall2_lookup_l _ _ _ _ _ Hv Hk) as (s & _ & Hs).
      by destruct w'.
    + right; left. cbn. f_equal.
      by apply print_results_from_exit in Hprint.
Qed.

Lemma main_exit_status_witness :
  main_run small_system small_system small_arguments None
    [result_line 16 "f"; result_line 19 "R"] (Exited EXIT_SUCCESS)
  ∧ ∃ p0 d p,
      boot small_system small_arguments None = Ok (p0, d)
      ∧ rtc (step small_system) (Running p0) (Running p)
      ∧ Forall (λ w, is_returned w = true) (pool p)
      ∧ print_results small_system (Z.of_nat (optind d)) (argv d) (ctx p)
          (mem p)
        = ([result_line 16 "f"; result_line 19 "R"], Ok ()).
Proof.
  assert (Hboot : boot small_system small_arguments None
                  = Ok (small_start.1, small_start.2))
    by (vm_compute; reflexivity).
  destruct small_end as [p| |] eqn:Hend; [|by vm_compute in Hend..].
  assert (Hrun : rtc (step small_system) (Running small_start.1) (Running p))
    by (rewrite <- Hend; apply run_schedule_steps).
  assert (Hfin : finish small_system small_start.2 p
                 = Some ([result_line 16 "f"; result_line 19 "R"],
                         Exited EXIT_SUCCESS)).
  { vm_compute in Hend. injection Hend as <-. vm_compute. reflexivity. }
  pose proof (run_finished _ _ _ _ _ _ _ _ _ Hboot Hrun Hfin) as Hmain.
  split; [exact Hmain|].
  by destruct (main_exit_status _ _ _ _ _ _ Hmain) as [[=]|[[=]|[_ H]]].
Defined.

(** X15. With no argument behind the name of the program, [main] writes the
    usage line to stderr and exits with [EXIT_FAILURE] at once, in
    [check_arguments]: nothing is allocated, no system call is made, no
    worker runs and nothing is written to stdout. *)
Theorem no_argument (sys sys_end : System) (arguments : list string)
  (mem : memory) (out : list string) (m : Machine) :
  (length arguments < 2)%nat →
  main_run sys sys_end arguments mem out m →
  boot sys arguments mem
  = Exit EXIT_FAILURE "mdu -j {antal trådar} {fil} [filer ...]"
  ∧ out = [] ∧ m = Exited EXIT_FAILURE.
Proof.
  intros Hargc Hmain.
  assert (Hboot : boot sys arguments mem
            = Exit EXIT_FAILURE "mdu -j {antal trådar} {fil} [filer ...]").
  { unfold boot, check_arguments.
    destruct (Z.of_nat (length arguments) <? 2) eqn:E; [done|].
    apply Z.ltb_ge in E. lia. }
  split; [done|].
  destruct Hmain as [r Hr _|p0 d m' Hok _ _|p0 d p out' m' Hok _ _];
    [|congruence..].
  rewrite Hboot in Hr. by subst r.
Qed.

Lemma no_argument_witness :
  main_run directories_only directories_only ["mdu"%string] None []
    (Exited EXIT_FAILURE)
  ∧ boot directories_only ["mdu"%string] None
    = Exit EXIT_FAILURE "mdu -j {antal trådar} {fil} [filer ...]".
Proof.
  assert (Hmain : main_run directories_only directories_only ["mdu"%string]
                    None [] (Exited EXIT_FAILURE)).
  { by apply (run_refused directories_only directories_only ["mdu"%string]
                None (Exit EXIT_FAILURE
                        "mdu -j {antal trådar} {fil} [filer ...]")). }
  split; [exact Hmain|].
  refine (proj1 (no_argument _ _ _ _ _ _ _ Hmain)). cbn [length]. lia.
Defined.

(** ** From the command line to the lines on stdout *)

(** When all workers have returned, the total of every root is the sum over
    its tree, as an [int]. *)
Lemma totals_at_end sys arguments mem p0 d p c a st :
  boot sys arguments mem = Ok (p0, d) →
  (get_thread_amount arguments).1 < INT_MAX →
  rtc (step sys) (Running p0) (Running p) →
  Forall (λ w, is_returned w = true) (pool p) →
  roots sys d !! c = Some (a, st) →
  ∀ t, presents sys a t →
  ∃ C, coordinator (ctx p) !! c = Some C ∧ tot_sum C = to_int (tree_blocks t).
Proof.
  intros Hboot Hthreads Hrun Hret Hroot t Hpres.
  destruct (reached _ _ _ _ _ _ Hboot Hthreads Hrun) as (Hc & Hs & Ht & Hne).
  assert (Hacc : accounted sys c (tree_blocks t) p).
  { revert Hrun. apply rtc_running_ind.
    - by eapply accounted_boot.
    - intros p1 i p2. apply accounted_transition. }
  destruct Hacc as (C & zq & nq & zw & nw & HC & Hq & Hw & Hsum).
  pose proof (Hs (nonempty_all_returned _ Hne Hret)) as Hrest.
  rewrite Forall_forall in Hrest.
  destruct (Hrest C (list_elem_of_lookup_2 _ _ _ HC)) as [_ Hnil].
  rewrite Hnil in Hq. inversion Hq; subst.
  apply sums_returned in Hw as ->; [|done].
  unfold totals_in_range in Ht. rewrite Forall_forall in Ht.
  pose proof (Ht C (list_elem_of_lookup_2 _ _ _ HC)) as Hrange.
  exists C. split; [done|].
  rewrite <- (to_int_small (tot_sum C)) by done.
  unfold same_int in Hsum. rewrite <- Hsum. f_equal. lia.
Qed.

(** The line of [print_results] for the path [a]: the blocks of the tree
    that [a] presents, as an [int], a tab and the path. *)
Definition line_of (sys : System) (line a : string) : Prop :=
  ∀ t, presents sys a t → line = result_line (to_int (tree_blocks t)) a.

Lemma print_results_from_lines sys optind ctx mem args : ∀ i dir_num out r,
  print_results_from sys optind i args ctx mem dir_num = (out, r) →
  (∀ k a st, directory_arguments sys optind i args !! k = Some (a, st) →
     ∃ C, coordinator ctx !! (dir_num + k)%nat = Some C
          ∧ ∀ t, presents sys a t → tot_sum C = to_int (tree_blocks t)) →
  Forall (λ a, is_Some (lstat sys a)) (path_arguments optind i args) →
  r = Ok () ∧ Forall2 (line_of sys) out (path_arguments optind i args).
Proof.
  induction args as [|arg rest IH]; intros i dir_num out r;
    cbn [print_results_from directory_arguments path_arguments].
  { intros [= <- <-] _ _. split; [done|constructor]. }
  destruct (is_flag_arg optind i); cbn [negb]; [apply IH|].
  intros Hprint Htotals [[st Hl] Hknown]%Forall_cons.
  revert Hprint Htotals. unfold safe_lstat. rewrite Hl.
  destruct (is_dictionary st) eqn:Hdir.
  - intros Hprint Htotals.
    destruct (Htotals 0%nat arg st eq_refl) as (C & HC & Htot).
    rewrite Nat.add_0_r in HC. rewrite HC in Hprint.
    destruct (print_results_from sys optind (i + 1) rest ctx mem (S dir_num))
      as [out' r'] eqn:Hrest.
    injection Hprint as <- <-.
    destruct (IH _ _ _ _ Hrest) as [-> Hlines]; [|done|].
    { intros k a st' Hk. destruct (Htotals (S k) a st' Hk) as (C' & HC' & ?).
      exists C'. split; [|done]. rewrite Nat.add_succ_r in HC'. exact HC'. }
    split; [done|]. constructor; [|done].
    intros t Hpres. by rewrite (Htot t Hpres).
  - intros Hprint Htotals.
    destruct (print_results_from sys optind (i + 1) rest ctx mem dir_num)
      as [out' r'] eqn:Hrest.
    injection Hprint as <- <-.
    destruct (IH _ _ _ _ Hrest Htotals Hknown) as [-> Hlines].
    split; [done|]. constructor; [|done].
    intros t Hpres. destruct (presents_lstat _ _ _ Hpres) as [Hroot Hkind].
    assert (root_stat t = st) as Hst by congruence.
    destruct t as [st'|st'|st' names kids]; cbn in Hst, Hkind; subst st'.
    + done.
    + rewrite Hdir in Hkind. discriminate (proj2 Hkind I).
    + rewrite Hdir in Hkind. discriminate (proj2 Hkind I).
Qed.

(** When all workers have returned, in a file system that stays as it is,
    [print_results] comes to its end with a line for every argument that
    [is_flag_arg] does not reject, and [thread_context_destroy] returns. *)
Lemma lines_at_end sys arguments mem0 p0 d p out r :
  boot sys arguments mem0 = Ok (p0, d) →
  (get_thread_amount arguments).1 < INT_MAX →
  all_presented sys d →
  rtc (step sys) (Running p0) (Running p) →
  Forall (λ w, is_returned w = true) (pool p) →
  print_results sys (Z.of_nat (optind d)) (argv d) (ctx p) (mem p)
  = (out, r) →
  r = Ok ()
  ∧ Forall2 (line_of sys) out
      (path_arguments (Z.of_nat (optind d)) 1 (drop 1 (argv d))).
Proof.
  intros Hboot Hthreads Hall Hrun Hret Hprint.
  destruct (boot_array _ _ _ _ _ Hboot) as (_ & _ & Hknown).
  unfold print_results in Hprint.
  apply (print_results_from_lines _ _ _ _ _ _ _ _ _ Hprint); [|done].
  intros k a st Hk. cbn [Nat.add].
  unfold all_presented in Hall. rewrite Forall_forall in Hall.
  destruct (Hall (a, st) (list_elem_of_lookup_2 _ _ _ Hk)) as [t0 Ht0].
  destruct (totals_at_end _ _ _ _ _ _ _ _ _ Hboot Hthreads Hrun Hret Hk
              t0 Ht0) as (C & HC & _).
  exists C. split; [done|]. intros t Ht.
  destruct (totals_at_end _ _ _ _ _ _ _ _ _ Hboot Hthreads Hrun Hret Hk
              t Ht) as (C' & HC' & Htot).
  congruence.
Qed.

(** X14. From the command line to the lines on stdout, in a file system
    that stays as it is, on a command line that has the option [-j] apart
    from its value, or no option. When [main] came to start its workers,
    fewer than 2^31 of them, and every directory among the paths presents a
    tree: as soon as all workers have returned, however their steps were
    interleaved, the rest of [main] writes one line for every path, in the
    order of the paths; the line of a path holds the sum of [st_blocks] over
    the tree that the path presents, as an [int], a tab and the path; and
    [main] exits with [EXIT_SUCCESS] or [EXIT_FAILURE]. *)
Theorem main_prints_tree_sums (sys : System) (arguments paths : list string)
  (mem0 : memory) (p0 : Process) (d : getopt_data) (p : Process)
  (out : list string) (m : Machine) :
  boot sys arguments mem0 = Ok (p0, d) →
  command_line arguments paths →
  (get_thread_amount arguments).1 < INT_MAX →
  Forall (λ a, ∃ t, presents sys a.1 t) (directories sys paths) →
  rtc (step sys) (Running p0) (Running p) →
  finish sys d p = Some (out, m) →
  Forall2 (λ line a,
             ∀ t, presents sys a t →
                  line = result_line (to_int (tree_blocks t)) a)
    out paths
  ∧ (m = Exited EXIT_SUCCESS ∨ m = Exited EXIT_FAILURE).
Proof.
  intros Hboot Hline Hthreads Hall Hrun Hfin.
  destruct (boot_Ok _ _ _ _ _ Hboot) as (Hd & _).
  destruct (command_line_paths _ _ Hline) as (Hpaths & _ & _).
  rewrite <- Hd in Hpaths.
  assert (Hall' : all_presented sys d).
  { unfold all_presented, roots.
    by rewrite directory_arguments_paths, Hpaths. }
  revert Hfin. unfold finish.
  destruct (pool p) as [|w others] eqn:Hpool; [done|].
  destruct (exit_value w) as [s0|] eqn:Hw; [|done]. cbn [mbind option_bind].
  destruct (mapM exit_value others) as [values|] eqn:Hv; [|done].
  cbn [mbind option_bind].
  assert (Hret : Forall (λ w, is_returned w = true) (pool p))
    by (rewrite Hpool; by eapply joined_all_returned).
  rewrite (destroy_at_end _ _ _ _ _ _ Hboot Hthreads Hrun Hret).
  destruct (print_results sys _ _ _ _) as [out1 r] eqn:Hprint.
  intros [= <- <-].
  destruct (lines_at_end _ _ _ _ _ _ _ _ Hboot Hthreads Hall' Hrun Hret
              Hprint) as [-> Hlines].
  rewrite Hpaths in Hlines. split; [done|].
  destruct (collect_thread_exit_statuses values s0 =? EXIT_SUCCESS);
    [by left|by right].
Qed.

Lemma main_prints_tree_sums_witness :
  boot small_system small_arguments None = Ok (small_start.1, small_start.2)
  ∧ command_line small_arguments ["f"; "R"]%string
  ∧ (get_thread_amount small_arguments).1 < INT_MAX
  ∧ presents small_system "R" small_tree ∧ tree_blocks small_tree = 19
  ∧ ∃ p, small_end = Running p
         ∧ finish small_system small_start.2 p
           = Some ([result_line 16 "f"; result_line 19 "R"],
                   Exited EXIT_SUCCESS)
         ∧ Forall2 (λ line a,
                      ∀ t, presents small_system a t →
                           line = result_line (to_int (tree_blocks t)) a)
             [result_line 16 "f"; result_line 19 "R"] ["f"; "R"]%string.
Proof.
  assert (Hboot : boot small_system small_arguments None
                  = Ok (small_start.1, small_start.2))
    by (vm_compute; reflexivity).
  assert (Hline : command_line small_arguments ["f"; "R"]%string)
    by (by apply (option_apart _ _ "mdu" [] "3" ["f"; "R"]%string)).
  assert (Hthreads : (get_thread_amount small_arguments).1 < INT_MAX)
    by (vm_compute; reflexivity).
  assert (Hall : Forall (λ a, ∃ t, presents small_system a.1 t)
                   (directories small_system ["f"; "R"]%string)).
  { assert (directories small_system ["f"; "R"]%string
            = [("R"%string, directory_stat 8)]) as ->
      by (vm_compute; reflexivity).
    constructor; [|constructor]. exists small_tree.
    exact small_tree_presented. }
  split_and!; [exact Hboot|exact Hline|exact Hthreads
              |exact small_tree_presented|reflexivity|].
  destruct small_end as [p| |] eqn:Hend; [|by vm_compute in Hend..].
  assert (Hrun : rtc (step small_system) (Running small_start.1) (Running p))
    by (rewrite <- Hend; apply run_schedule_steps).
  assert (Hfin : finish small_system small_start.2 p
                 = Some ([result_line 16 "f"; result_line 19 "R"],
                         Exited EXIT_SUCCESS)).
  { vm_compute in Hend. injection Hend as <-. vm_compute. reflexivity. }
  exists p. split; [done|]. split; [exact Hfin|].
  exact (proj1 (main_prints_tree_sums _ _ _ _ _ _ _ _ _
                  Hboot Hline Hthreads Hall Hrun Hfin)).
Defined.

(** ** One directory *)

(** The paths of the entries of the directory [dir_name] that
    [process_directory_entries] looks at: those of the names that [readdir]
    returns, but for "." and "..". *)
Definition entry_paths (dir_name : string) (directory : list string)
  : list string :=
  (λ d_name, dir_name +:+ "/" +:+ d_name) <$> entry_names directory.

Definition blocks_at (sys : System) (path : string) : Z :=
  match lstat sys path with Some st => st_blocks st | None => 0 end.

Definition directory_at (sys : System) (path : string) : bool :=
  match lstat sys path with Some st => is_dictionary st | None => false end.

Lemma enqueue_on_Ok c value ctx mem ctx' mem' C :
  coordinator ctx !! c = Some C →
  enqueue_on c value ctx mem = Ok (ctx', mem') →
  ctx' = put_coordinator c (with_queue C (dir_queue C ++ [value])) ctx.
Proof.
  unfold enqueue_on. intros -> H.
  apply bind_Ok in H as ([q m] & Hq & H). injection H as <- <-.
  unfold queue_enqueue in Hq.
  apply bind_Ok in Hq as (m1 & _ & Hq). apply bind_Ok in Hq as (m2 & _ & Hq).
  by injection Hq as <- <-.
Qed.

Lemma put_coordinator_same c C ctx :
  coordinator ctx !! c = Some C →
  put_coordinator c (with_queue C (dir_queue C ++ [])) ctx = ctx.
Proof.
  intros HC. unfold put_coordinator, set_coordinator, with_queue.
  rewrite app_nil_r. destruct C as [a t q]. cbn.
  rewrite list_insert_id by done. by destruct ctx.
Qed.

Lemma put_coordinator_twice c C1 C2 ctx :
  put_coordinator c C2 (put_coordinator c C1 ctx) = put_coordinator c C2 ctx.
Proof.
  unfold put_coordinator, set_coordinator. cbn.
  by rewrite list_insert_insert_eq.
Qed.

(** X17. What [process_directory_entries] does with a directory, when it
    returns: [lstat] knew every entry but "." and ".."; to the sum it has
    added the blocks of each of them, in [int] arithmetic; on the queue of
    its coordinator it has put the paths of those that are directories, in
    the order in which [readdir] returned them, behind what the queue held;
    and it has changed nothing else in the context. *)
Theorem process_directory_entries_spec (sys : System) (dir_name : string)
  (directory : list string) (c : nat) :
  ∀ (sum : Z) (ctx : ThreadContext) (mem : memory) (C : Coordinator)
    (sum' : Z) (ctx' : ThreadContext) (mem' : memory),
  Forall (λ d_name, strlen dir_name + strlen d_name + 2 ≤ INT_MAX)
    directory →
  INT_MIN ≤ sum ≤ INT_MAX →
  coordinator ctx !! c = Some C →
  process_directory_entries sys dir_name directory sum c ctx mem
  = Ok (sum', ctx', mem') →
  Forall (λ path, is_Some (lstat sys path)) (entry_paths dir_name directory)
  ∧ sum'
    = to_int (sum + foldr (λ path acc, blocks_at sys path + acc) 0
                      (entry_paths dir_name directory))
  ∧ ctx'
    = put_coordinator c
        (with_queue C
           (dir_queue C
              ++ filter (λ path, directory_at sys path = true)
                   (entry_paths dir_name directory))) ctx.
Proof.
  unfold entry_paths.
  induction directory as [|d_name rest IH];
    intros sum ctx mem C sum' ctx' mem' Hfit Hsum HC;
    cbn [process_directory_entries].
  - intros [= <- <- <-]. cbn [entry_names filter list_filter fmap list_fmap foldr].
    split_and!; [constructor| |].
    + by rewrite Z.add_0_r, to_int_small.
    + by rewrite put_coordinator_same.
  - apply Forall_cons in Hfit as [Hfit1 Hfit].
    intros H. apply bind_Ok in H as ([[sum1 ctx1] mem1] & H1 & H).
    rewrite entry_names_cons. revert H1. unfold process_entry.
    destruct (is_dot_or_dot_dot d_name); cbn [negb].
    { intros [= <- <- <-]. by eapply IH. }
    intros H1. apply bind_Ok in H1 as ([full_path mem2] & Hpath & H1).
    unfold create_full_path in Hpath.
    apply bind_Ok in Hpath as (mem3 & _ & Hpath). injection Hpath as <- <-.
    fold (entry_path dir_name d_name) in H1.
    rewrite (entry_path_exact dir_name d_name Hfit1) in H1.
    unfold process_directory_entry, safe_lstat in H1.
    destruct (lstat sys (dir_name +:+ "/" +:+ d_name)) as [st|] eqn:Hl;
      [|by apply destroy_and_exit_bind in H1].
    cbn [mbind outcome_bind] in H1.
    apply bind_Ok in H1 as ([ctx2 mem4] & Henq & H1).
    injection H1 as <- <- <-.
    cbn [fmap list_fmap foldr].
    assert (Hb : blocks_at sys (dir_name +:+ "/" +:+ d_name) = st_blocks st)
      by (unfold blocks_at; by rewrite Hl).
    assert (Hd : directory_at sys (dir_name +:+ "/" +:+ d_name)
                 = is_dictionary st)
      by (unfold directory_at; by rewrite Hl).
    rewrite Hb.
    destruct (is_dictionary st) eqn:Hdir.
    + pose proof (enqueue_on_Ok _ _ _ _ _ _ _ HC Henq) as ->.
      assert (HC1 : coordinator
                      (put_coordinator c
                         (with_queue C
                            (dir_queue C ++ [dir_name +:+ "/" +:+ d_name]))
                         ctx) !! c
                    = Some (with_queue C
                              (dir_queue C
                                 ++ [dir_name +:+ "/" +:+ d_name]))).
      { unfold put_coordinator, set_coordinator. cbn [coordinator].
        apply list_lookup_insert_eq. by eapply lookup_lt_Some. }
      destruct (IH _ _ _ _ _ _ _ Hfit (to_int_range _) HC1 H)
        as (Hknown & -> & ->).
      split_and!.
      * constructor; [by rewrite Hl|done].
      * rewrite to_int_add_l. f_equal. lia.
      * rewrite put_coordinator_twice, filter_cons_True by done.
        unfold with_queue. cbn [dir_queue active_threads tot_sum].
        by rewrite <- app_assoc.
    + injection Henq as <- <-.
      destruct (IH _ _ _ C _ _ _ Hfit (to_int_range _) HC H)
        as (Hknown & -> & ->).
      split_and!.
      * constructor; [by rewrite Hl|done].
      * rewrite to_int_add_l. f_equal. lia.
      * rewrite filter_cons_False; [done|]. rewrite Hd. done.
Qed.

Lemma process_directory_entries_spec_witness :
  coordinator (ctx small_opening) !! 0%nat
  = Some {| active_threads := 1; tot_sum := 8; dir_queue := [] |}
  ∧ process_directory_entries small_system "R" ["."; ".."; "a"; "S"]%string
      0 0 (ctx small_opening) None
    = Ok (9,
          put_coordinator 0
            {| active_threads := 1; tot_sum := 8;
               dir_queue := ["R/S"%string] |} (ctx small_opening),
          None)
  ∧ entry_paths "R" ["."; ".."; "a"; "S"]%string = ["R/a"; "R/S"]%string
  ∧ 9 = to_int (0 + foldr (λ path acc, blocks_at small_system path + acc) 0
                      (entry_paths "R" ["."; ".."; "a"; "S"]%string)).
Proof.
  assert (H : process_directory_entries small_system "R"
                ["."; ".."; "a"; "S"]%string 0 0 (ctx small_opening) None
              = Ok (9,
                    put_coordinator 0
                      {| active_threads := 1; tot_sum := 8;
                         dir_queue := ["R/S"%string] |} (ctx small_opening),
                    None)) by (vm_compute; reflexivity).
  split; [reflexivity|]. split; [exact H|]. split; [reflexivity|].
  refine (proj1 (proj2
            (process_directory_entries_spec small_system "R"
               ["."; ".."; "a"; "S"]%string 0 0 (ctx small_opening) None
               {| active_threads := 1; tot_sum := 8; dir_queue := [] |}
               _ _ _ _ _ eq_refl H))).
  - repeat constructor; by vm_compute.
  - by vm_compute.
Defined.

(** ** A directory that cannot be opened, in a run of [main] *)

(** With memory that never runs out the workers never lack it. *)
Lemma transition_unbounded sys p i p' :
  transition sys p i p' → mem p = None → mem p' = None.
Proof.
  assert (Ha : ∀ m m', alloc m = Some m' → m = None → m' = None)
    by (intros ? ? H ->; by injection H).
  intros Ht Hm. destruct Ht; cbn [mem]; eauto 6.
Qed.

Lemma reached_unbounded sys arguments p0 d p :
  boot sys arguments None = Ok (p0, d) →
  rtc (step sys) (Running p0) (Running p) → mem p = None.
Proof.
  intros Hboot. apply (rtc_running_ind sys (λ p, mem p = None)).
  - by eapply boot_unbounded.
  - intros p1 i p2 Hm Ht. by eapply transition_unbounded.
Qed.

(** Below trees whose entries [lstat] knows, with memory that never runs
    out, the workers come to the end: all of them return. *)
Lemma step_to_the_end sys p N :
  counted p → cost sys p N → mem p = None →
  Forall (λ w, is_returned w = true) (pool p)
  ∨ ∃ j p' N', worker_step sys p j = Some (Running p') ∧ counted p'
               ∧ cost sys p' N' ∧ mem p' = None ∧ N = S N'.
Proof.
  intros Hc Hcost Hmem.
  destruct (decide (Forall (λ w, is_returned w = true) (pool p)))
    as [Hret|Hnot]; [by left|right].
  apply not_Forall_Exists in Hnot; [|apply _].
  apply Exists_exists in Hnot as (w & Hin & Hw).
  apply list_elem_of_lookup_1 in Hin as [i Hi].
  destruct (never_stuck sys p Hc) as (j & m & Hstep).
  { exists i, w. split; [done|]. by apply not_true_is_false. }
  destruct (runs_on _ _ _ _ _ Hc Hcost Hmem Hstep) as (p' & -> & Hmem').
  pose proof (worker_step_running _ _ _ _ Hstep) as Ht.
  destruct (cost_transition _ _ _ _ _ Hcost Ht) as (N' & Hcost' & HN).
  exists j, p', N'. split_and!; try done. by eapply counted_transition.
Qed.

Lemma runs_to_the_end sys N : ∀ p,
  counted p → cost sys p N → mem p = None →
  ∃ q, rtc (step sys) (Running p) (Running q)
       ∧ Forall (λ w, is_returned w = true) (pool q).
Proof.
  induction N as [|N IH]; intros p Hc Hcost Hmem;
    destruct (step_to_the_end sys p _ Hc Hcost Hmem)
      as [Hret|(j & p' & N' & Hstep & Hc' & Hcost' & Hmem' & HN)];
    try (by exists p).
  injection HN as ->.
  destruct (IH p' Hc' Hcost' Hmem') as (q & Hrun & Hret).
  exists q. split; [|done]. eapply rtc_l; [|exact Hrun]. by exists p, j.
Qed.

(** When all workers have returned, [main] goes on to its end. *)
Lemma finish_returned sys d q :
  pool q ≠ [] → Forall (λ w, is_returned w = true) (pool q) →
  ∃ out m, finish sys d q = Some (out, m).
Proof.
  intros Hne Hret. unfold finish.
  destruct (pool q) as [|w others]; [done|].
  apply Forall_cons in Hret as [Hw Hothers].
  destruct w as [| | | |s0]; try done. cbn [exit_value mbind option_bind].
  assert (is_Some (mapM exit_value others)) as [values ->].
  { apply mapM_is_Some. eapply Forall_impl; [exact Hothers|].
    intros w' Hw'. destruct w'; try done. cbn. by eexists. }
  cbn [mbind option_bind].
  destruct (print_results sys _ _ _ _) as [out r]. by eexists _, _.
Qed.

(** In a file system that stays as it is, [main] ends with an exit. *)
Lemma finish_exits sys arguments mem0 p0 d q out m :
  boot sys arguments mem0 = Ok (p0, d) →
  (get_thread_amount arguments).1 < INT_MAX →
  all_presented sys d →
  rtc (step sys) (Running p0) (Running q) →
  finish sys d q = Some (out, m) →
  m = Exited EXIT_SUCCESS ∨ m = Exited EXIT_FAILURE.
Proof.
  intros Hboot Hthreads Hall Hrun. unfold finish.
  destruct (pool q) as [|w others] eqn:Hpool; [done|].
  destruct (exit_value w) as [s0|] eqn:Hw; [|done]. cbn [mbind option_bind].
  destruct (mapM exit_value others) as [values|] eqn:Hv; [|done].
  cbn [mbind option_bind].
  assert (Hret : Forall (λ w, is_returned w = true) (pool q))
    by (rewrite Hpool; by eapply joined_all_returned).
  rewrite (destroy_at_end _ _ _ _ _ _ Hboot Hthreads Hrun Hret).
  destruct (print_results sys _ _ _ _) as [out1 r] eqn:Hprint.
  intros [= <- <-].
  destruct (lines_at_end _ _ _ _ _ _ _ _ Hboot Hthreads Hall Hrun Hret
              Hprint) as [-> _].
  destruct (collect_thread_exit_statuses values s0 =? EXIT_SUCCESS);
    [by left|by right].
Qed.

(** A worker that looks for work while a queue holds a path takes one. *)
Lemma seeking_takes_work sys q j errno k C path rest :
  mem q = None →
  pool q !! j = Some (Seeking errno) →
  coordinator (ctx q) !! k = Some C → dir_queue C = path :: rest →
  ∃ k' path' q',
    worker_step sys q j = Some (Running q')
    ∧ pool q' !! j = Some (Opening errno k' path').
Proof.
  intros Hmem Hj HC Hq. unfold worker_step. rewrite Hj, Hmem.
  cbn [mbind option_bind].
  unfold get_coordinator_with_work, are_threads_active,
    get_non_empty_coordinator.
  assert (are_threads_active_from (coordinator (ctx q)) = true) as ->.
  { apply not_false_iff_true. intros Ha.
    apply are_threads_active_false in Ha. rewrite Forall_forall in Ha.
    destruct (Ha C (list_elem_of_lookup_2 _ _ _ HC)) as [_ Hnil].
    congruence. }
  destruct (get_non_empty_from_unbounded (coordinator (ctx q)) 0)
    as [found Hfound].
  rewrite Hfound. cbn [mbind outcome_bind].
  destruct found as [[[k' path'] C']|].
  - eexists k', path', _. split; [done|]. cbn [pool].
    apply list_lookup_insert_eq. by eapply lookup_lt_Some.
  - exfalso. apply get_non_empty_from_None in Hfound.
    rewrite Forall_forall in Hfound.
    pose proof (Hfound C (list_elem_of_lookup_2 _ _ _ HC)). congruence.
Qed.

(** C4. When [opendir] fails on a directory that a worker has taken from a
    queue:
    - [safe_opendir] writes one line to stderr and returns null;
      [traverse_directory] leaves the context as it was, so nothing is added
      to a total and nothing is enqueued;
    - the step of the worker changes nothing but that worker and stderr, and
      the worker goes on to the release and to look for work;
    - from then on the worker keeps a non-zero [errno] until it returns the
      status 1, so that however the run goes on the process does not end
      with [EXIT_SUCCESS];
    - in a run of [main] with memory that never runs out, below trees that
      the root arguments present, the run goes on and comes to its end: the
      process keeps running, some worker can take a step as long as one has
      not returned, a worker that looks for work while a queue holds a path
      takes one, and the workers come to return, all of them; when they
      have, the worker has returned the status 1, the total of every root is
      the sum over its tree, in which the directory that was not opened
      counts for its own blocks alone, and [main] prints its lines and exits
      with [EXIT_FAILURE]. *)
Theorem opendir_failure (sys sys_end : System) (p : Process) (i : nat)
  (errno : Z) (c : nat) (dir_name : string) (e : positive) :
  pool p !! i = Some (Opening errno c dir_name) →
  opendir sys dir_name = inl e →
  safe_opendir sys dir_name errno
    = (None, [cannot_read sys dir_name e], Z.pos e)
  ∧ traverse_directory sys dir_name c (ctx p) (mem p) errno
    = Ok (ctx p, mem p, Z.pos e, [cannot_read sys dir_name e])
  ∧ ∃ p',
      p' = {| ctx := ctx p;
              pool := <[i := Releasing (Z.pos e) c]> (pool p);
              stderr := stderr p ++ [cannot_read sys dir_name e];
              mem := mem p |}
      ∧ worker_step sys p i = Some (Running p')
      ∧ worker_step sys p' i
        = Some (Running
                  {| ctx := on_coordinator c decrement_counter (ctx p);
                     pool := <[i := Seeking (Z.pos e)]> (pool p');
                     stderr := stderr p'; mem := mem p |})
      ∧ (∀ q, rtc (step sys) (Running p') (Running q) →
           (∃ w, pool q !! i = Some w ∧ saw_failure w)
           ∧ ∀ d out m, finish sys_end d q = Some (out, m) →
                        m ≠ Exited EXIT_SUCCESS)
      ∧ (∀ status, rtc (step sys) (Running p') (Exited status) →
           status ≠ EXIT_SUCCESS)
      ∧ (∀ arguments p0 d,
           boot sys arguments None = Ok (p0, d) →
           (get_thread_amount arguments).1 < INT_MAX →
           all_presented sys d →
           rtc (step sys) (Running p0) (Running p) →
           (∀ m, rtc (step sys) (Running p') m → ∃ q, m = Running q)
           ∧ (∀ q, rtc (step sys) (Running p') (Running q) →
                (Forall (λ w, is_returned w = true) (pool q)
                 ∨ ∃ j q', worker_step sys q j = Some (Running q'))
                ∧ (∀ j errno' k C path rest,
                     pool q !! j = Some (Seeking errno') →
                     coordinator (ctx q) !! k = Some C →
                     dir_queue C = path :: rest →
                     ∃ k' path' q',
                       worker_step sys q j = Some (Running q')
                       ∧ pool q' !! j = Some (Opening errno' k' path')))
           ∧ (∃ q, rtc (step sys) (Running p') (Running q)
                   ∧ Forall (λ w, is_returned w = true) (pool q))
           ∧ (∀ q, rtc (step sys) (Running p') (Running q) →
                Forall (λ w, is_returned w = true) (pool q) →
                pool q !! i = Some (Returned EXIT_FAILURE)
                ∧ (∀ k a st t,
                     roots sys d !! k = Some (a, st) → presents sys a t →
                     ∃ C, coordinator (ctx q) !! k = Some C
                          ∧ tot_sum C = to_int (tree_blocks t))
                ∧ ∃ out, finish sys d q = Some (out, Exited EXIT_FAILURE))).
Proof.
  intros Hw Ho.
  assert (Hopen : safe_opendir sys dir_name errno
                  = (None, [cannot_read sys dir_name e], Z.pos e))
    by (unfold safe_opendir; by rewrite Ho).
  split; [done|]. split; [unfold traverse_directory; by rewrite Hopen|].
  eexists. split; [reflexivity|].
  assert (Hlt : (i < length (pool p))%nat) by (by eapply lookup_lt_Some).
  set (p' := {| ctx := ctx p;
                pool := <[i := Releasing (Z.pos e) c]> (pool p);
                stderr := stderr p ++ [cannot_read sys dir_name e];
                mem := mem p |}).
  assert (Hstep : worker_step sys p i = Some (Running p')).
  { unfold worker_step. rewrite Hw. cbn [mbind option_bind].
    by rewrite Hopen. }
  assert (Hseen : ∀ q, rtc (step sys) (Running p') (Running q) →
            ∃ w, pool q !! i = Some w ∧ saw_failure w).
  { intros q Hq.
    eapply (saw_failure_reached sys p' q i (Releasing (Z.pos e) c));
      [|done|exact Hq]. cbn [pool]. by apply list_lookup_insert_eq. }
  split_and!.
  - exact Hstep.
  - unfold worker_step, p'. cbn [pool ctx mem stderr].
    by rewrite list_lookup_insert_eq.
  - intros q Hq. destruct (Hseen q Hq) as (w & Hqi & Hf).
    split; [eauto|]. intros d out m. by eapply finish_failure.
  - intros status Hq.
    apply exited_with_failure in Hq as [Heq| ->]; [discriminate Heq|done].
  - intros arguments p0 d Hboot Hthreads Hall Hrun.
    assert (Hrun' : rtc (step sys) (Running p0) (Running p')).
    { eapply rtc_r; [exact Hrun|]. by exists p, i. }
    assert (Hfrom : ∀ m, rtc (step sys) (Running p') m →
              rtc (step sys) (Running p0) m).
    { intros m Hm. by etrans. }
    destruct (cost_boot _ _ _ _ _ Hboot Hall) as [N0 Hcost0].
    assert (Hon : ∀ m, rtc (step sys) (Running p0) m →
              ∃ q, m = Running q ∧ mem q = None
                   ∧ rtc (step sys) (Running p0) (Running q)).
    { apply (rtc_ind_r (λ m, ∃ q, m = Running q ∧ mem q = None
                            ∧ rtc (step sys) (Running p0) (Running q))).
      - exists p0. split_and!; [done|by eapply boot_unbounded|done].
      - intros m1 m2 Hrun1 Hstep1 (p1 & -> & Hmem1 & Hrun1').
        destruct Hstep1 as (p1' & j & [= <-] & Hstep1).
        destruct (reached _ _ _ _ _ _ Hboot Hthreads Hrun1') as (Hc1 & _).
        destruct (reached_cost _ _ _ _ Hcost0 Hrun1') as [N1 Hcost1].
        destruct (runs_on _ _ _ _ _ Hc1 Hcost1 Hmem1 Hstep1)
          as (p2 & -> & Hmem2).
        exists p2. split_and!; [done|done|].
        eapply rtc_r; [exact Hrun1'|]. by exists p1, j. }
    split_and!.
    + intros m Hm. destruct (Hon m (Hfrom m Hm)) as (q & -> & _).
      by exists q.
    + intros q Hq. pose proof (Hfrom _ Hq) as Hq0.
      destruct (reached _ _ _ _ _ _ Hboot Hthreads Hq0) as (Hc & _).
      split.
      * destruct (decide (Forall (λ w, is_returned w = true) (pool q)))
          as [Hret|Hnot]; [by left|right].
        apply not_Forall_Exists in Hnot; [|apply _].
        apply Exists_exists in Hnot as (w & Hin & Hnw).
        apply list_elem_of_lookup_1 in Hin as [j Hj].
        destruct (never_stuck sys q Hc) as (j' & m & Hm).
        { exists j, w. split; [done|]. by apply not_true_is_false. }
        destruct (Hon m) as (q' & -> & _).
        { eapply rtc_r; [exact Hq0|]. by exists q, j'. }
        by exists j', q'.
      * intros j errno' k C path rest. apply seeking_takes_work.
        by eapply reached_unbounded.
    + destruct (reached _ _ _ _ _ _ Hboot Hthreads Hrun') as (Hc & _).
      destruct (reached_cost _ _ _ _ Hcost0 Hrun') as [N Hcost].
      apply (runs_to_the_end sys N p' Hc Hcost).
      by eapply reached_unbounded.
    + intros q Hq Hret. pose proof (Hfrom _ Hq) as Hq0.
      destruct (reached _ _ _ _ _ _ Hboot Hthreads Hq0)
        as (_ & _ & _ & Hne).
      destruct (Hseen q Hq) as (w & Hqi & Hf).
      split_and!.
      * rewrite Forall_forall in Hret.
        pose proof (Hret w (list_elem_of_lookup_2 _ _ _ Hqi)) as Hr.
        destruct w; try done. cbn in Hf. by rewrite Hf in Hqi.
      * intros k a st t Hroot Hpres.
        by eapply (totals_at_end sys arguments None p0 d q).
      * destruct (finish_returned sys d q Hne Hret) as (out & m & Hfin).
        exists out. rewrite Hfin. do 2 f_equal.
        destruct (finish_exits _ _ _ _ _ _ _ _ Hboot Hthreads Hall Hq0 Hfin)
          as [->| ->]; [|done].
        by destruct (finish_failure _ _ _ _ _ _ _ Hqi Hf Hfin).
Qed.

(** *** A directory that is locked

    The directory [R] holds a directory [L] that [opendir] refuses with
    [EACCES]; a worker has taken its path from the queue. *)
Definition locked_system : System :=
  {| lstat := λ path,
       if String.eqb path "R" then Some (directory_stat 8)
       else if String.eqb path "R/L" then Some (directory_stat 8)
       else None;
     opendir := λ path,
       if String.eqb path "R" then inr ["."; ".."; "L"]%string
       else inl 13%positive;
     strerror := λ _, "Permission denied"%string |}.

(** [mdu R]; the one worker has read [R] and taken the path of [L] from the
    queue. *)
Definition locked_arguments : list string := ["mdu"; "R"]%string.

Definition locked_start : Process * getopt_data :=
  match boot locked_system locked_arguments None with
  | Ok x => x
  | _ => ({| ctx := {| coordinator := []; capacity := 0; size := 0;
                       dir_num := 0 |};
             pool := []; stderr := []; mem := None |},
          getopt_initialize [])
  end.

Definition locked_process : Process :=
  {| ctx := {| coordinator :=
                 [{| active_threads := 1; tot_sum := 16; dir_queue := [] |}];
               capacity := 2; size := 2; dir_num := 1 |};
     pool := [Opening 0 0 "R/L"];
     stderr := []; mem := None |}.

Definition locked_tree : fstree :=
  Open (directory_stat 8) ["."; ".."; "L"]%string [Closed (directory_stat 8)].

Lemma opendir_failure_witness :
  pool locked_process !! 0%nat = Some (Opening 0 0 "R/L")
  ∧ opendir locked_system "R/L" = inl 13%positive
  ∧ boot locked_system locked_arguments None
    = Ok (locked_start.1, locked_start.2)
  ∧ (get_thread_amount locked_arguments).1 < INT_MAX
  ∧ all_presented locked_system locked_start.2
  ∧ run_schedule locked_system (replicate 8 0%nat) (Running locked_start.1)
    = Running locked_process
  ∧ traverse_directory locked_system "R/L" 0 (ctx locked_process) None 0
    = Ok (ctx locked_process, None, 13,
          ["du: cannot read directory 'R/L': Permission denied"%string])
  ∧ ∃ q, run_schedule locked_system (replicate 4 0%nat)
           (Running locked_process) = Running q
         ∧ pool q = [Returned EXIT_FAILURE]
         ∧ finish locked_system locked_start.2 q
           = Some ([result_line 16 "R"], Exited EXIT_FAILURE).
Proof.
  assert (Hboot : boot locked_system locked_arguments None
                  = Ok (locked_start.1, locked_start.2))
    by (vm_compute; reflexivity).
  assert (Hthreads : (get_thread_amount locked_arguments).1 < INT_MAX)
    by (vm_compute; reflexivity).
  assert (Hall : all_presented locked_system locked_start.2).
  { unfold all_presented, roots.
    assert (directory_arguments locked_system
              (Z.of_nat (optind locked_start.2)) 1
              (drop 1 (argv locked_start.2))
            = [("R"%string, directory_stat 8)]) as ->
      by (vm_compute; reflexivity).
    constructor; [|constructor]. exists locked_tree.
    cbn. unfold strlen, INT_MAX. cbn.
    repeat split; try reflexivity; try (by eexists);
      repeat constructor; by vm_compute. }
  assert (Hsched : run_schedule locked_system (replicate 8 0%nat)
                     (Running locked_start.1) = Running locked_process)
    by (vm_compute; reflexivity).
  assert (Hrun : rtc (step locked_system) (Running locked_start.1)
                   (Running locked_process))
    by (rewrite <- Hsched; apply run_schedule_steps).
  destruct (opendir_failure locked_system locked_system locked_process
              0 0 0 "R/L" 13 eq_refl eq_refl)
    as (_ & Htraverse & p' & Hp' & Hstep & _ & _ & _ & Hmain).
  destruct (Hmain locked_arguments locked_start.1 locked_start.2
              Hboot Hthreads Hall Hrun) as (_ & _ & _ & Hend).
  split_and!; [reflexivity|reflexivity|exact Hboot|exact Hthreads|exact Hall
              |exact Hsched|exact Htraverse|].
  destruct (run_schedule locked_system (replicate 4 0%nat)
              (Running locked_process)) as [q| |] eqn:Hq;
    [|by vm_compute in Hq..].
  exists q. split; [done|].
  assert (Hrunq : rtc (step locked_system) (Running p') (Running q)).
  { rewrite <- Hq. change (replicate 4 0%nat) with (0%nat :: replicate 3 0%nat).
    cbn [run_schedule]. rewrite Hstep. apply run_schedule_steps. }
  assert (Hpool : pool q = [Returned EXIT_FAILURE]).
  { vm_compute in Hq. by injection Hq as <-. }
  split; [exact Hpool|].
  destruct (Hend q Hrunq) as (_ & _ & out & Hfin).
  { rewrite Hpool. by repeat constructor. }
  rewrite Hfin. do 2 f_equal.
  vm_compute in Hq. injection Hq as <-.
  vm_compute in Hfin. by injection Hfin as <-.
Defined.
